(** * Invantia Desktop: the retrieval core, embedded and verified

    A shallow embedding of the retrieval pipeline of Invantia Desktop:

    - [Vectorizer]: tokenizer, co-occurrence indexer, cosine similarity,
      top-K similar terms and query expansion (vectorizer.js);
    - [Search]: hybrid chunk scoring, ranking, topic packing into super
      chunks and the textual envelope (the query engine at the end of
      query-builder.js).

    Conventions of the embedding.

    - A JavaScript string is a [string] of 8-bit characters, read as the
      code units 0 to 255 (Latin-1); [toLowerCase] folds the capital letters
      among them, ASCII and accented alike.
    - A JavaScript [Map] (and a plain object used as a dictionary) is an
      association list in insertion order with one binding per key: its
      iteration order is observable in the code ([JsMap]).
    - A JavaScript number is an IEEE 754 double.  The code's arithmetic is
      written once, over the interface [Num.Number], and read at two
      instances: [Num.Float64], the binary64 numbers of the engine, on which
      the definitions compute, and [Num.Exact], the real numbers, the
      arithmetic the formulas of the specification speak of.  Integers that
      only count or index (positions, counts, identifiers, lengths) are
      [nat] or [Z].
    - [Array.prototype.sort] is a stable sort (ECMAScript 2019); with a
      consistent comparator every stable sort yields the same array, here
      computed by a stable insertion sort ([Js.sort]). *)

From Stdlib Require Import String Ascii Bool Arith ZArith Lia.
From Stdlib Require Import Permutation Sorted.
From Stdlib Require Import Reals Lra Psatz.
From Stdlib Require Import Floats.
From Stdlib Require Import DecimalString.
From Stdlib Require Import List.
Import ListNotations.

Set Implicit Arguments.

(* ===================================================================== *)
(** * JavaScript values: strings, arrays, maps                            *)
(* ===================================================================== *)

Module Js.

Definition nl : string := String "010"%char EmptyString.

Definition strlen (s : string) : Z := Z.of_nat (String.length s).

(** Decimal rendering of an integer inside a template literal. *)
Definition showZ (z : Z) : string := NilZero.string_of_int (Z.to_int z).

Definition showNat (n : nat) : string := showZ (Z.of_nat n).

Definition is_upper (c : ascii) : bool :=
  let n := nat_of_ascii c in (65 <=? n) && (n <=? 90).

Definition is_lower (c : ascii) : bool :=
  let n := nat_of_ascii c in (97 <=? n) && (n <=? 122).

Definition is_digit (c : ascii) : bool :=
  let n := nat_of_ascii c in (48 <=? n) && (n <=? 57).

(** The capital letters among the characters 128 to 255, which the
    embedding reads as Latin-1: [À] to [Ö] and [Ø] to [Þ]. *)
Definition is_upper_latin1 (c : ascii) : bool :=
  let n := nat_of_ascii c in
  ((192 <=? n) && (n <=? 214)) || ((216 <=? n) && (n <=? 222)).

(** The small letter of a capital letter stands 32 places after it, in
    ASCII and in Latin-1 alike; no other character below 256 changes. *)
Definition lower_char (c : ascii) : ascii :=
  if is_upper c || is_upper_latin1 c then ascii_of_nat (nat_of_ascii c + 32) else c.

(** [s.toLowerCase()] *)
Fixpoint toLowerCase (s : string) : string :=
  match s with
  | EmptyString => EmptyString
  | String c r => String (lower_char c) (toLowerCase r)
  end.

(** First index [k >= from] at which [term] occurs in the text whose
    suffix from index [pos] is [s]. *)
Fixpoint find_from (term s : string) (pos from : nat) : option nat :=
  if (from <=? pos) && String.prefix term s then Some pos
  else match s with
       | EmptyString => None
       | String _ rest => find_from term rest (S pos) from
       end.

(** [content.indexOf(term, from)], [None] for [-1].  For the empty search
    string JavaScript answers [min(from, content.length)]. *)
Definition indexOf (content term : string) (from : nat) : option nat :=
  match term with
  | EmptyString => Some (Nat.min from (String.length content))
  | _ => find_from term content 0 from
  end.

(** [content.includes(term)] *)
Definition includes (content term : string) : bool :=
  match indexOf content term 0 with Some _ => true | None => false end.

(** [array.includes(x)] on an array of strings *)
Definition array_includes (l : list string) (x : string) : bool :=
  existsb (String.eqb x) l.

(** [[...new Set(array)]]: the first occurrence of each string, in order. *)
Fixpoint uniq_acc (seen l : list string) : list string :=
  match l with
  | [] => []
  | x :: r => if array_includes seen x then uniq_acc seen r
              else x :: uniq_acc (x :: seen) r
  end.

Definition uniq (l : list string) : list string := uniq_acc [] l.

(** ** [Array.prototype.sort]

    [after a b] reads "the comparator is positive on (a, b)": [a] has to
    come after [b].  Elements on which it is not positive either way keep
    the order they had. *)
Section Sort.
Variable A : Type.
Variable after : A -> A -> bool.

Fixpoint insert (x : A) (l : list A) : list A :=
  match l with
  | [] => [x]
  | y :: l' => if after x y then y :: insert x l' else x :: l
  end.

Definition sort (l : list A) : list A := fold_right insert [] l.

End Sort.

(** ** [Map]: bindings in insertion order, one per key *)
Definition JsMap (V : Type) : Type := list (string * V).

Fixpoint map_get {V} (m : JsMap V) (k : string) : option V :=
  match m with
  | [] => None
  | (k', v) :: r => if String.eqb k' k then Some v else map_get r k
  end.

Definition map_has {V} (m : JsMap V) (k : string) : bool :=
  match map_get m k with Some _ => true | None => false end.

(** [m.set(k, v)]: an existing key keeps its place, a new one goes last. *)
Fixpoint map_set {V} (m : JsMap V) (k : string) (v : V) : JsMap V :=
  match m with
  | [] => [(k, v)]
  | (k', v') :: r =>
      if String.eqb k' k then (k', v) :: r else (k', v') :: map_set r k v
  end.

Definition map_keys {V} (m : JsMap V) : list string := map fst m.

(** [m.get(k) || 0] on a map of counts *)
Definition count_of (m : JsMap nat) (k : string) : nat :=
  match map_get m k with Some c => c | None => 0 end.

(** The invariant of a [Map]: no key twice. *)
Definition map_wf {V} (m : JsMap V) : Prop := NoDup (map_keys m).

(** [[...array.entries()]]: the elements with their indices. *)
Definition entries {A} (l : list A) : list (nat * A) :=
  combine (seq 0 (List.length l)) l.

(** [set.add(x)] on a [Set] of strings, kept in insertion order: an element
    that is there already is not added again. *)
Definition set_add (s : list string) (x : string) : list string :=
  if array_includes s x then s else s ++ [x].

(** [[...new Set(array)]] on an array of numbers. *)
Fixpoint uniqZ_acc (seen l : list Z) : list Z :=
  match l with
  | [] => []
  | x :: r => if existsb (Z.eqb x) seen then uniqZ_acc seen r
              else x :: uniqZ_acc (x :: seen) r
  end.

Definition uniqZ (l : list Z) : list Z := uniqZ_acc [] l.

(** [array.slice(0, end)]: a negative [end] counts from the end of the
    array. *)
Definition slice0 {A} (l : list A) (finish : Z) : list A :=
  if (0 <=? finish)%Z then firstn (Z.to_nat finish) l
  else firstn (List.length l - Z.to_nat (- finish)) l.

(** [\s] on the characters of the embedding: tab, line feed, vertical tab,
    form feed, carriage return, space and no-break space. *)
Definition is_space (c : ascii) : bool :=
  let n := nat_of_ascii c in
  ((9 <=? n) && (n <=? 13)) || (n =? 32) || (n =? 160).

(** [s.replace(/[...]/g, '')] for a class [p] of characters: they are
    removed. *)
Fixpoint remove_chars (p : ascii -> bool) (s : string) : string :=
  match s with
  | EmptyString => EmptyString
  | String c r => if p c then remove_chars p r else String c (remove_chars p r)
  end.

(** [s.split(/\s+/)]: [piece] is the piece being read and [in_space] tells
    whether the last character was white space.  White space at the start or
    at the end of the string leaves an empty piece there, and the empty
    string splits into one empty piece. *)
Fixpoint split_loop (s piece : string) (in_space : bool) : list string :=
  match s with
  | EmptyString => [piece]
  | String c r =>
      if is_space c
      then if in_space then split_loop r EmptyString true
           else piece :: split_loop r EmptyString true
      else split_loop r (piece ++ String c EmptyString) false
  end.

Definition split_spaces (s : string) : list string :=
  split_loop s EmptyString false.

(** ** Plain objects *)

(** The number a string of decimal digits writes after [acc]; [None] for a
    string with another character. *)
Fixpoint digits_value (s : string) (acc : N) : option N :=
  match s with
  | EmptyString => Some acc
  | String c r =>
      if is_digit c
      then digits_value r (10 * acc + N.of_nat (nat_of_ascii c - 48))
      else None
  end.

(** A property name is an array index when it is the canonical writing of
    an integer from 0 to 2^32 - 2: decimal digits without a leading zero. *)
Definition array_index (s : string) : option N :=
  match s with
  | EmptyString => None
  | String c r =>
      if Ascii.eqb c "0"%char && negb (String.eqb r EmptyString) then None
      else match digits_value s 0 with
           | Some n => if (n <? 4294967295)%N then Some n else None
           | None => None
           end
  end.

(** A plain object: its own properties in the order in which
    [Object.entries] lists them, the array indices first, in ascending
    order, then the other names in the order of their creation. *)
Definition JsObject (V : Type) : Type := list (string * V).

(** The place of a new array index [n] among the properties. *)
Fixpoint insert_index {V} (o : JsObject V) (n : N) (k : string) (v : V)
    : JsObject V :=
  match o with
  | [] => [(k, v)]
  | (k', v') :: r =>
      match array_index k' with
      | Some n' =>
          if (n' <? n)%N then (k', v') :: insert_index r n k v
          else (k, v) :: o
      | None => (k, v) :: o
      end
  end.

(** Defining the own property [k]: a property that is there keeps its
    place and takes the value. *)
Definition define_property {V} (o : JsObject V) (k : string) (v : V)
    : JsObject V :=
  if map_has o k then map_set o k v
  else match array_index k with
       | Some n => insert_index o n k v
       | None => o ++ [(k, v)]
       end.

(** [Object.fromEntries(entries)] *)
Definition fromEntries {V} (entries : list (string * V)) : JsObject V :=
  fold_left (fun o e => define_property o (fst e) (snd e)) entries [].

(** [Object.entries(o)] *)
Definition objectEntries {V} (o : JsObject V) : list (string * V) := o.

(** [new Map(entries)] *)
Definition mapOf {V} (entries : list (string * V)) : JsMap V :=
  fold_left (fun m e => map_set m (fst e) (snd e)) entries [].

End Js.

(* ===================================================================== *)
(** * JavaScript numbers                                                  *)
(* ===================================================================== *)

Module Num.

(** The operations the code applies to numbers. [leb a b] is [a <= b],
    [ltb a b] is [a < b], [eqb a b] is [a === b]. *)
Class Number (num : Type) : Type := {
  ofZ : Z -> num;
  add : num -> num -> num;
  sub : num -> num -> num;
  mul : num -> num -> num;
  div : num -> num -> num;
  sqrt : num -> num;
  leb : num -> num -> bool;
  ltb : num -> num -> bool;
  eqb : num -> num -> bool
}.

Section Derived.
Context {num : Type} {N : Number num}.

Definition zero : num := ofZ 0.
Definition one : num := ofZ 1.
Definition ofNat (n : nat) : num := ofZ (Z.of_nat n).

(** A decimal literal [n/d] such as [0.7 = dec 7 10]: on doubles the
    division of two small integers rounds to the double nearest to the
    quotient, which is the value of the literal. *)
Definition dec (n d : Z) : num := div (ofZ n) (ofZ d).

(** [NaN], the number [undefined] converts to, as [0 / 0]. *)
Definition nan : num := div zero zero.

End Derived.

(** ** Doubles *)

Definition float_ofZ (z : Z) : float :=
  match z with
  | Z0 => PrimFloat.of_uint63 (Uint63.of_Z 0)
  | Zpos _ => PrimFloat.of_uint63 (Uint63.of_Z z)
  | Zneg p => PrimFloat.opp (PrimFloat.of_uint63 (Uint63.of_Z (Zpos p)))
  end.

(** Binary64 arithmetic; [float_ofZ] is exact below [2^53] in absolute value,
    which covers every integer the code converts. *)
#[global] Instance Float64 : Number float := {|
  ofZ := float_ofZ;
  add := PrimFloat.add;
  sub := PrimFloat.sub;
  mul := PrimFloat.mul;
  div := PrimFloat.div;
  sqrt := PrimFloat.sqrt;
  leb := PrimFloat.leb;
  ltb := PrimFloat.ltb;
  eqb := PrimFloat.eqb
|}.

(** ** Exact arithmetic *)

Definition Rleb (x y : R) : bool := if Rle_dec x y then true else false.
Definition Rltb (x y : R) : bool := if Rlt_dec x y then true else false.
Definition Reqb (x y : R) : bool := if Req_dec_T x y then true else false.

#[global] Instance Exact : Number R := {|
  ofZ := IZR;
  add := Rplus;
  sub := Rminus;
  mul := Rmult;
  div := Rdiv;
  sqrt := R_sqrt.sqrt;
  leb := Rleb;
  ltb := Rltb;
  eqb := Reqb
|}.

(** ** [toFixed(1)] and truthiness *)

Class Format (num : Type) : Type := {
  toFixed1 : num -> string;
  truthy : num -> bool
}.

(** [n] tenths printed with one decimal. *)
Definition show_tenths (n : Z) : string :=
  (Js.showZ (n / 10) ++ "." ++ Js.showZ (n mod 10))%string.

(** The integer [n] nearest to [10 * m * 2^e], the larger one on a tie. *)
Definition round_tenths (m : positive) (e : Z) : Z :=
  if (0 <=? e)%Z then (10 * Zpos m * 2 ^ e)%Z
  else ((2 * 10 * Zpos m + 2 ^ (- e)) / 2 ^ (- e + 1))%Z.

(** [x.toFixed(1)] for a double below [1e21] in absolute value (above it
    JavaScript switches to exponent notation, which no score reaches). *)
Definition float_toFixed1 (x : float) : string :=
  match Prim2SF x with
  | S754_nan => "NaN"
  | S754_infinity false => "Infinity"
  | S754_infinity true => "-Infinity"
  | S754_zero _ => "0.0"
  | S754_finite s m e =>
      ((if s then "-" else "") ++ show_tenths (round_tenths m e))%string
  end.

(** [if (x)]: false for [0], [-0] and [NaN]. *)
Definition float_truthy (x : float) : bool :=
  match Prim2SF x with
  | S754_nan | S754_zero _ => false
  | _ => true
  end.

#[global] Instance Float64Format : Format float := {|
  toFixed1 := float_toFixed1;
  truthy := float_truthy
|}.

(** ** [x || d]

    [isTruthy x] is false for [0], [-0] and [NaN]. *)
Class Truth (num : Type) : Type := {
  isTruthy : num -> bool
}.

#[global] Instance Float64Truth : Truth float := {|
  isTruthy := float_truthy
|}.

#[global] Instance ExactTruth : Truth R := {|
  isTruthy := fun x => negb (Reqb x 0)
|}.

(** [v || d], [None] being [undefined]. *)
Definition orDefault {num} {T : Truth num} (v : option num) (d : num) : num :=
  match v with
  | Some x => if isTruthy x then x else d
  | None => d
  end.

End Num.

(* ===================================================================== *)
(** * vectorizer.js                                                       *)
(* ===================================================================== *)

Module Vectorizer.
Import Js.

(** ** Configuration *)

Record Config (num : Type) : Type := {
  windowSize : nat;
  minFrequency : nat;
  maxTerms : Z;
  minSimilarity : num;
  maxExpansions : nat;
  stopwords : list string
}.

Definition default_stopwords : list string :=
  [ "the"; "be"; "to"; "of"; "and"; "a"; "in"; "that"; "have"; "i";
    "it"; "for"; "not"; "on"; "with"; "he"; "as"; "you"; "do"; "at";
    "this"; "but"; "his"; "by"; "from"; "they"; "we"; "say"; "her"; "she";
    "or"; "an"; "will"; "my"; "one"; "all"; "would"; "there"; "their";
    "what"; "so"; "up"; "out"; "if"; "about"; "who"; "get"; "which"; "go";
    "me"; "when"; "make"; "can"; "like"; "time"; "no"; "just"; "him"; "know";
    "take"; "people"; "into"; "year"; "your"; "good"; "some"; "could"; "them";
    "see"; "other"; "than"; "then"; "now"; "look"; "only"; "come"; "its"; "over";
    "think"; "also"; "back"; "after"; "use"; "two"; "how"; "our"; "work";
    "first"; "well"; "way"; "even"; "new"; "want"; "because"; "any"; "these";
    "give"; "day"; "most"; "us"; "is"; "was"; "are"; "been"; "has"; "had";
    "were"; "said"; "did"; "having"; "may"; "should"; "does"; "am" ]%string.

Definition CONFIG {num} `{Num.Number num} : Config num := {|
  windowSize := 7;
  minFrequency := 2;
  maxTerms := 10000%Z;
  minSimilarity := Num.dec 3 10;
  maxExpansions := 5;
  stopwords := default_stopwords
|}.

(** ** Tokenization *)

(** An entry of the positional term sequence: a token [{term, position}]
    or a phrase [{term, position, type}]. *)
Record TermOcc : Type := {
  term : string;
  position : nat;
  type : option string
}.

(** [\w] of a regular expression without flags *)
Definition is_word (c : ascii) : bool :=
  is_lower c || is_upper c || is_digit c || Ascii.eqb c "_"%char.

(** The class [[a-z0-9\-]] *)
Definition is_tail (c : ascii) : bool :=
  is_lower c || is_digit c || Ascii.eqb c "-"%char.

Definition next_is_word (s : string) : bool :=
  match s with
  | EmptyString => false
  | String c _ => is_word c
  end.

(** [[a-z0-9\-]*\b], greedy with backtracking: [len] characters are
    consumed, the last of them [prev], and [s] is what follows; the answer is
    the longest length at which the closing [\b] holds. *)
Fixpoint match_end (prev : ascii) (s : string) (len : nat) : option nat :=
  let here := if xorb (is_word prev) (next_is_word s) then Some len else None in
  match s with
  | EmptyString => here
  | String c r =>
      if is_tail c
      then match match_end c r (S len) with
           | Some e => Some e
           | None => here
           end
      else here
  end.

Section Tokenize.
Context {num : Type} (cfg : Config num).

(** The body of the [while] loop: stop words and one-letter tokens are
    skipped. *)
Definition keep_token (token : string) (index : nat) : list TermOcc :=
  if array_includes (stopwords cfg) token then []
  else if String.length token <? 2 then []
  else [ {| term := token; position := index; type := None |} ].

(** The loop [while ((match = wordPattern.exec(text)) !== null)] for the
    pattern [/\b[a-z][a-z0-9\-]*\b/g]: [s] is the text from index [pos],
    [prev_word] tells whether the character before it is a word character,
    and [skip] counts the characters of the last match still to pass. *)
Fixpoint scan (prev_word : bool) (skip pos : nat) (s : string) : list TermOcc :=
  match s with
  | EmptyString => []
  | String c r =>
      match skip with
      | S k => scan (is_word c) k (S pos) r
      | O =>
          if negb prev_word && is_lower c
          then match match_end c r 1 with
               | Some e =>
                   keep_token (String.substring 0 e s) pos
                     ++ scan (is_word c) (e - 1) (S pos) r
               | None => scan (is_word c) 0 (S pos) r
               end
          else scan (is_word c) 0 (S pos) r
      end
  end.

Definition tokenize (text : string) : list TermOcc :=
  scan false 0 0 (toLowerCase text).

End Tokenize.

Definition no_term : TermOcc := {| term := ""; position := 0; type := None |}.

(** [tokens[i]] *)
Definition at_index (tokens : list TermOcc) (i : nat) : TermOcc :=
  nth i tokens no_term.

Definition extractPhrases (tokens : list TermOcc) : list TermOcc :=
  let bigrams :=
    map (fun i =>
           {| term := (term (at_index tokens i) ++ " "
                         ++ term (at_index tokens (i + 1)))%string;
              position := position (at_index tokens i);
              type := Some "bigram"%string |})
        (seq 0 (List.length tokens - 1)) in
  let trigrams :=
    map (fun i =>
           {| term := (term (at_index tokens i) ++ " "
                         ++ term (at_index tokens (i + 1)) ++ " "
                         ++ term (at_index tokens (i + 2)))%string;
              position := position (at_index tokens i);
              type := Some "trigram"%string |})
        (seq 0 (List.length tokens - 2)) in
  bigrams ++ trigrams.

(** ** Co-occurrence matrix *)

Record CoOccurrenceIndex : Type := {
  matrix : JsMap (JsMap nat);
  termFrequencies : JsMap nat;
  totalTerms : nat
}.

(** [centerVector.set(contextTerm, (centerVector.get(contextTerm) || 0) + 1)] *)
Definition increment (vector : JsMap nat) (key : string) : JsMap nat :=
  map_set vector key (count_of vector key + 1).

(** The frequency count of [allTerms.forEach(...)]. *)
Definition countFrequencies (allTerms : list TermOcc) : JsMap nat :=
  fold_left (fun termFreq item => increment termFreq (term item)) allTerms [].

(** One turn of the inner loop [for (j = windowStart; j <= windowEnd; j++)]. *)
Definition window_step (validTerms : list TermOcc) (i : nat)
    (centerVector : JsMap nat) (j : nat) : JsMap nat :=
  if i =? j then centerVector
  else increment centerVector (term (at_index validTerms j)).

(** The indices [windowStart .. windowEnd] of position [i]:
    [max(0, i - windowSize) .. min(length - 1, i + windowSize)]. *)
Definition window (windowSize len i : nat) : list nat :=
  let windowStart := Nat.max 0 (i - windowSize) in
  let windowEnd := Nat.min (len - 1) (i + windowSize) in
  seq windowStart (S windowEnd - windowStart).

(** One turn of the outer loop.  The code updates the vector object held by
    the map in place; here the updated vector is written back under its key,
    which keeps the key's place. *)
Definition matrix_step (windowSize : nat) (validTerms : list TermOcc)
    (coOccurrence : JsMap (JsMap nat)) (i : nat) : JsMap (JsMap nat) :=
  let centerTerm := term (at_index validTerms i) in
  let coOccurrence :=
    if map_has coOccurrence centerTerm then coOccurrence
    else map_set coOccurrence centerTerm [] in
  let centerVector :=
    match map_get coOccurrence centerTerm with Some v => v | None => [] end in
  map_set coOccurrence centerTerm
    (fold_left (window_step validTerms i)
               (window windowSize (List.length validTerms) i) centerVector).

Section Build.
Context {num : Type} (cfg : Config num).

(** The terms the index is built from: the tokens, then the phrases. *)
Definition allTermsOf (text : string) : list TermOcc :=
  let tokens := tokenize cfg text in
  tokens ++ extractPhrases tokens.

(** The terms that pass the frequency filter, in sequence. *)
Definition validTermsOf (text : string) : list TermOcc :=
  let allTerms := allTermsOf text in
  let termFreq := countFrequencies allTerms in
  filter (fun item => minFrequency cfg <=? count_of termFreq (term item)) allTerms.

Definition buildCoOccurrenceMatrix (text : string) : CoOccurrenceIndex :=
  let allTerms := allTermsOf text in
  let termFreq := countFrequencies allTerms in
  let validTerms := validTermsOf text in
  let coOccurrence :=
    fold_left (matrix_step (windowSize cfg) validTerms)
              (seq 0 (List.length validTerms)) [] in
  {| matrix := coOccurrence;
     termFrequencies := termFreq;
     totalTerms := List.length validTerms |}.

End Build.

(** ** Vector similarity *)

(** An entry of the array [findSimilarTerms] returns. *)
Record Similar (num : Type) : Type := {
  sim_term : string;
  similarity : num
}.

(** An entry of the array [expandQuery] returns. *)
Record Expansion (num : Type) : Type := {
  originalTerm : string;
  expandedTerms : list string;
  similarities : list num
}.

Section Similarity.
Context {num : Type} {N : Num.Number num}.

(** The loop [for (const [term, count1] of vec1.entries())]. *)
Definition dotProduct (vec1 vec2 : JsMap nat) : num :=
  fold_left
    (fun acc entry =>
       let '(term, count1) := entry in
       if map_has vec2 term
       then Num.add acc (Num.mul (Num.ofNat count1) (Num.ofNat (count_of vec2 term)))
       else acc)
    vec1 Num.zero.

(** The loop [for (const count of vec.values())], before the square root. *)
Definition sumSquares (vec : JsMap nat) : num :=
  fold_left
    (fun acc entry => Num.add acc (Num.mul (Num.ofNat (snd entry)) (Num.ofNat (snd entry))))
    vec Num.zero.

(** [None] is an absent vector ([undefined]). *)
Definition cosineSimilarity (vec1 vec2 : option (JsMap nat)) : num :=
  match vec1, vec2 with
  | Some vec1, Some vec2 =>
      if (List.length vec1 =? 0) || (List.length vec2 =? 0) then Num.zero
      else
        let dot := dotProduct vec1 vec2 in
        let mag1 := Num.sqrt (sumSquares vec1) in
        let mag2 := Num.sqrt (sumSquares vec2) in
        if Num.eqb mag1 Num.zero || Num.eqb mag2 Num.zero then Num.zero
        else Num.div dot (Num.mul mag1 mag2)
  | _, _ => Num.zero
  end.

(** The comparator [(a, b) => b.similarity - a.similarity] is positive. *)
Definition bySimilarityDesc (a b : Similar num) : bool :=
  Num.ltb Num.zero (Num.sub (similarity b) (similarity a)).

(** The terms that pass the threshold, in the iteration order of the matrix. *)
Definition candidates (cfg : Config num) (queryTerm : string)
    (queryVector : JsMap nat) (matrix : JsMap (JsMap nat)) : list (Similar num) :=
  fold_left
    (fun similarities entry =>
       let '(term, termVector) := entry in
       if String.eqb term queryTerm then similarities
       else
         let similarity := cosineSimilarity (Some queryVector) (Some termVector) in
         if Num.leb (minSimilarity cfg) similarity
         then similarities ++ [ {| sim_term := term; similarity := similarity |} ]
         else similarities)
    matrix [].

Definition findSimilarTerms (cfg : Config num) (queryTerm : string)
    (coOccurrenceData : CoOccurrenceIndex) (maxResults : nat) : list (Similar num) :=
  let matrix := matrix coOccurrenceData in
  let queryTerm := toLowerCase queryTerm in
  match map_get matrix queryTerm with
  | None => []
  | Some queryVector =>
      let similarities := candidates cfg queryTerm queryVector matrix in
      firstn maxResults (sort bySimilarityDesc similarities)
  end.

(** ** Query expansion *)

(** [vectors] is what the store returns for the document: [None] when no
    index is stored. *)
Definition expandQuery (cfg : Config num) (queryText : string)
    (vectors : option CoOccurrenceIndex) : list (Expansion num) :=
  match vectors with
  | None =>
      let tokens := tokenize cfg queryText in
      map (fun t =>
             {| originalTerm := term t;
                expandedTerms := [term t];
                similarities := [Num.one] |})
          tokens
  | Some vectors =>
      let queryTokens := tokenize cfg queryText in
      let queryPhrases := extractPhrases queryTokens in
      let allQueryTerms := queryTokens ++ queryPhrases in
      let uniqueTerms := uniq (map term allQueryTerms) in
      map (fun term =>
             let similar := findSimilarTerms cfg term vectors (maxExpansions cfg) in
             {| originalTerm := term;
                expandedTerms := term :: map (fun s => sim_term s) similar;
                similarities := Num.one :: map (fun s => similarity s) similar |})
          uniqueTerms
  end.

End Similarity.

(** ** Query expansion over several documents *)

(** An entry of the map [allExpansions]: the expanded terms are a [Set], the
    similarities a [Map]. *)
Record Merged (num : Type) : Type := {
  m_originalTerm : string;
  m_expandedTerms : list string;
  m_similarities : JsMap num
}.

Section MultiDoc.
Context {num : Type} {N : Num.Number num} {T : Num.Truth num}.
Variable cfg : Config num.

(** What the store answers to [getVectors(documentId)]. *)
Variable getVectors : Z -> option CoOccurrenceIndex.

(** The body of [concept.expandedTerms.forEach((expandedTerm, idx) => ...)]:
    the term joins the set, and its similarity replaces the one kept so far
    when it is greater. *)
Definition mergeTerm (similarities : list num) (merged : Merged num)
    (entry : nat * string) : Merged num :=
  let '(idx, expandedTerm) := entry in
  let existingSim :=
    Num.orDefault (map_get (m_similarities merged) expandedTerm) Num.zero in
  {| m_originalTerm := m_originalTerm merged;
     m_expandedTerms := set_add (m_expandedTerms merged) expandedTerm;
     m_similarities :=
       match nth_error similarities idx with
       | Some newSim =>
           if Num.ltb existingSim newSim
           then map_set (m_similarities merged) expandedTerm newSim
           else m_similarities merged
       | None => m_similarities merged
       end |}.

(** The body of [for (const concept of docExpansions)].  The code updates
    the entry held by the map in place; here it is written back under its
    key. *)
Definition mergeConcept (allExpansions : JsMap (Merged num))
    (concept : Expansion num) : JsMap (Merged num) :=
  let term := originalTerm concept in
  let fresh :=
    {| m_originalTerm := term;
       m_expandedTerms := [term];
       m_similarities := [(term, Num.one)] |} in
  let allExpansions :=
    if map_has allExpansions term then allExpansions
    else map_set allExpansions term fresh in
  let merged :=
    match map_get allExpansions term with Some m => m | None => fresh end in
  map_set allExpansions term
    (fold_left (mergeTerm (similarities concept))
               (entries (expandedTerms concept)) merged).

(** The body of [for (const docId of documentIds)]. *)
Definition mergeDocument (queryText : string)
    (allExpansions : JsMap (Merged num)) (docId : Z) : JsMap (Merged num) :=
  fold_left mergeConcept (expandQuery cfg queryText (getVectors docId))
            allExpansions.

Definition expandQueryMultiDoc (queryText : string) (documentIds : list Z)
    : list (Expansion num) :=
  let allExpansions := fold_left (mergeDocument queryText) documentIds [] in
  map (fun entry =>
         let '(term, data) := entry in
         let expandedArray := m_expandedTerms data in
         {| originalTerm := term;
            expandedTerms := expandedArray;
            similarities :=
              map (fun t => Num.orDefault (map_get (m_similarities data) t) Num.zero)
                  expandedArray |})
      allExpansions.

End MultiDoc.

End Vectorizer.

(* ===================================================================== *)
(** * The store of the vectors (indexeddb.js)                             *)
(* ===================================================================== *)

Module InvantiaDB.
Import Js Vectorizer.

(** A record of the object store [vectors]: the maps are stored as plain
    objects.  The field [created], a time stamp that nothing reads, is left
    out. *)
Record StoredVectors : Type := {
  sv_documentId : Z;
  sv_matrix : JsObject (JsObject nat);
  sv_termFrequencies : JsObject nat;
  sv_totalTerms : nat
}.

(** The object store [vectors], created with [keyPath: 'documentId']: the
    record of a key, if there is one.  What is stored and read back is a
    structured clone, which keeps the properties of a plain object and their
    order. *)
Definition VectorStore : Type := Z -> option StoredVectors.

(** [store.put(record)]: the record takes the place of the one with its
    key. *)
Definition put (store : VectorStore) (record : StoredVectors) : VectorStore :=
  fun key => if (key =? sv_documentId record)%Z then Some record else store key.

(** [store.delete(key)] *)
Definition delete (store : VectorStore) (key : Z) : VectorStore :=
  fun key' => if (key' =? key)%Z then None else store key'.

(** The object [storableData] of [addVectors]. *)
Definition storableData (documentId : Z) (vectorData : CoOccurrenceIndex)
    : StoredVectors :=
  {| sv_documentId := documentId;
     sv_matrix :=
       fromEntries
         (map (fun entry => (fst entry, fromEntries (snd entry)))
              (matrix vectorData));
     sv_termFrequencies := fromEntries (termFrequencies vectorData);
     sv_totalTerms := totalTerms vectorData |}.

(** The store after [addVectors(documentId, vectorData)]. *)
Definition addVectors (store : VectorStore) (documentId : Z)
    (vectorData : CoOccurrenceIndex) : VectorStore :=
  put store (storableData documentId vectorData).

(** [getVectors(documentId)], [None] for [null].  [Number(v)] leaves a
    count as it is. *)
Definition getVectors (store : VectorStore) (documentId : Z)
    : option CoOccurrenceIndex :=
  match store documentId with
  | None => None
  | Some data =>
      let matrix :=
        mapOf
          (map (fun entry =>
                  (fst entry,
                   mapOf (map (fun kv => (fst kv, snd kv))
                              (objectEntries (snd entry)))))
               (objectEntries (sv_matrix data))) in
      Some {| matrix := matrix;
              termFrequencies :=
                mapOf (map (fun kv => (fst kv, snd kv))
                           (objectEntries (sv_termFrequencies data)));
              totalTerms := sv_totalTerms data |}
  end.

(** The store after [deleteVectors(documentId)]. *)
Definition deleteVectors (store : VectorStore) (documentId : Z) : VectorStore :=
  delete store documentId.

End InvantiaDB.

(* ===================================================================== *)
(** * The query engine (search.js, at the end of query-builder.js)        *)
(* ===================================================================== *)

Module Search.
Import Js.

(** ** Data *)

Record ScoringConfig (num : Type) : Type := {
  originalTermWeight : num;
  semanticWeight : num;
  proximityWeight : num;
  highSimilarityThreshold : num;
  minimumScoreThreshold : num;
  proximityDistance : num
}.

Definition SCORING_CONFIG {num} `{Num.Number num} : ScoringConfig num := {|
  originalTermWeight := Num.ofZ 100;
  semanticWeight := Num.ofZ 30;
  proximityWeight := Num.ofZ 50;
  highSimilarityThreshold := Num.dec 7 10;
  minimumScoreThreshold := Num.ofZ 30;
  proximityDistance := Num.ofZ 200
|}.

(** A stored chunk. *)
Record Chunk : Type := {
  id : Z;
  documentId : Z;
  chunkNumber : Z;
  content : string
}.

(** An entry of [concept.termMetadata]. *)
Record TermMeta (num : Type) : Type := {
  similarity : num;
  isOriginal : bool
}.

Record Concept (num : Type) : Type := {
  terms : list string;
  originalTerms : list string;
  termMetadata : JsMap (TermMeta num)
}.

Record Score (num : Type) : Type := {
  totalScore : num;
  originalTermScore : num;
  semanticScore : num;
  proximityScore : num;
  matchedTerms : list string;
  matchedOriginalTerms : list string;
  matchCount : nat
}.

(** [{...chunk, relevanceScore, scoreDetails}] *)
Record ScoredChunk (num : Type) : Type := {
  chunk : Chunk;
  relevanceScore : num;
  scoreDetails : Score num
}.

Record Block (num : Type) : Type := {
  topicId : Z;
  topicQuestion : string;
  spatialCategory : string;
  inclusionConcepts : list (Concept num)
}.

(** The accumulators of [scoreChunk]. *)
Record Acc (num : Type) : Type := {
  acc_original : num;
  acc_semantic : num;
  acc_matched : list string;
  acc_matchedOriginal : list string
}.

Section Scoring.
Context {num : Type} {N : Num.Number num}.
Variable cfg : ScoringConfig num.

(** ** Proximity *)

(** The loop
    [while (index !== -1) { positions.push(index); index = content.indexOf(termLower, index + 1); }]
    run for at most [fuel] turns; [None] when the turns do not suffice. *)
Fixpoint occurrences_loop (fuel : nat) (content termLower : string)
    (index : option nat) (positions : list nat) : option (list nat) :=
  match index with
  | None => Some positions
  | Some i =>
      match fuel with
      | O => None
      | S fuel =>
          occurrences_loop fuel content termLower
            (indexOf content termLower (i + 1)) (positions ++ [i])
      end
  end.

(** The body of [matchedTerms.forEach]: the positions of one term are pushed
    after those found so far.  An occurrence starts before the end of the
    content, so [length content + 1] turns suffice for a term that is not
    empty; for the empty term the loop of the code never ends, and no number
    of turns suffices (lemmas [occurrences_loop_enough] and
    [occurrences_loop_empty_term]). *)
Definition pushOccurrences (content : string) (positions : option (list nat))
    (term : string) : option (list nat) :=
  match positions with
  | None => None
  | Some positions =>
      let termLower := toLowerCase term in
      occurrences_loop (String.length content + 1) content termLower
        (indexOf content termLower 0) positions
  end.

(** The comparator [(a, b) => a - b] is positive. *)
Definition ascending (a b : nat) : bool := b <? a.

(** The loop [for (let i = 0; i < positions.length - 1; i++)] on the sorted
    positions; [None] is [Infinity]. *)
Fixpoint minDistanceLoop (positions : list nat) (minDistance : option nat)
    : option nat :=
  match positions with
  | a :: (b :: _) as rest =>
      let distance := b - a in
      minDistanceLoop rest
        (match minDistance with
         | None => Some distance
         | Some m => if distance <? m then Some distance else Some m
         end)
  | _ => minDistance
  end.

(** [None]: the position loop does not end. *)
Definition calculateProximityScore (content : string)
    (matchedTerms : list string) : option num :=
  match fold_left (pushOccurrences content) matchedTerms (Some []) with
  | None => None
  | Some positions =>
      if List.length positions <? 2 then Some Num.zero
      else
        let positions := sort ascending positions in
        match minDistanceLoop positions None with
        | Some minDistance =>
            if Num.leb (Num.ofNat minDistance) (proximityDistance cfg)
            then
              let proximityRatio :=
                Num.sub Num.one
                  (Num.div (Num.ofNat minDistance) (proximityDistance cfg)) in
              Some (Num.mul (proximityWeight cfg) proximityRatio)
            else Some Num.zero
        | None => Some Num.zero
        end
  end.

(** ** Hybrid score *)

(** The names every plain object inherits from [Object.prototype]. *)
Definition inherited_names : list string :=
  [ "constructor"; "__defineGetter__"; "__defineSetter__"; "hasOwnProperty";
    "__lookupGetter__"; "__lookupSetter__"; "isPrototypeOf";
    "propertyIsEnumerable"; "toString"; "valueOf"; "__proto__";
    "toLocaleString" ]%string.

(** [termMetadata[term] || { similarity: 0.5, isOriginal: false }].  The map
    holds the object's own entries.  For a name the object only inherits the
    code reads the inherited value, a function or (for [__proto__]) the
    prototype, which is truthy: its [isOriginal] is undefined, which is as
    false as the default's, and its [similarity] is undefined, which the
    arithmetic turns into [NaN]. *)
Definition metadataOf (c : Concept num) (term : string) : TermMeta num :=
  match map_get (termMetadata c) term with
  | Some m => m
  | None =>
      if array_includes inherited_names term
      then {| similarity := Num.nan; isOriginal := false |}
      else {| similarity := Num.dec 1 2; isOriginal := false |}
  end.

(** The body of [terms.forEach]. *)
Definition scoreTerm (content : string) (c : Concept num) (a : Acc num)
    (term : string) : Acc num :=
  let termLower := toLowerCase term in
  if includes content termLower then
    let metadata := metadataOf c term in
    if isOriginal metadata || array_includes (originalTerms c) term then
      {| acc_original := Num.add (acc_original a) (originalTermWeight cfg);
         acc_semantic := acc_semantic a;
         acc_matched := acc_matched a ++ [term];
         acc_matchedOriginal := acc_matchedOriginal a ++ [term] |}
    else if Num.leb (highSimilarityThreshold cfg) (similarity metadata) then
      {| acc_original := acc_original a;
         acc_semantic :=
           Num.add (acc_semantic a)
             (Num.mul (semanticWeight cfg) (similarity metadata));
         acc_matched := acc_matched a ++ [term];
         acc_matchedOriginal := acc_matchedOriginal a |}
    else
      {| acc_original := acc_original a;
         acc_semantic :=
           Num.add (acc_semantic a)
             (Num.mul (Num.mul (semanticWeight cfg) (similarity metadata))
                      (Num.dec 1 2));
         acc_matched := acc_matched a ++ [term];
         acc_matchedOriginal := acc_matchedOriginal a |}
  else a.

Definition scoreChunk (chunk : Chunk) (concept : Concept num)
    : option (Score num) :=
  let content := toLowerCase (content chunk) in
  let a :=
    fold_left (scoreTerm content concept) (terms concept)
      {| acc_original := Num.zero; acc_semantic := Num.zero;
         acc_matched := []; acc_matchedOriginal := [] |} in
  let proximity :=
    if 2 <=? List.length (acc_matched a)
    then calculateProximityScore content (acc_matched a)
    else Some Num.zero in
  match proximity with
  | None => None
  | Some proximityScore =>
      Some {| totalScore :=
                Num.add (Num.add (acc_original a) (acc_semantic a)) proximityScore;
              originalTermScore := acc_original a;
              semanticScore := acc_semantic a;
              proximityScore := proximityScore;
              matchedTerms := acc_matched a;
              matchedOriginalTerms := acc_matchedOriginal a;
              matchCount := List.length (acc_matched a) |}
  end.

(** ** Spatial filter *)

(** [positions.reduce((sum, pos) => sum + pos, 0)] *)
Definition sumOf (l : list num) : num := fold_left Num.add l Num.zero.

(** [Math.pow(pos - mean, 2)] is the product of the difference with itself. *)
Definition calculateSpatialVariance (chunks : list (ScoredChunk num)) : num :=
  if List.length chunks =? 0 then Num.zero
  else if List.length chunks =? 1 then Num.zero
  else
    let positions := map (fun c => Num.ofZ (chunkNumber (chunk c))) chunks in
    let mean := Num.div (sumOf positions) (Num.ofNat (List.length positions)) in
    let squaredDiffs :=
      map (fun pos => Num.mul (Num.sub pos mean) (Num.sub pos mean)) positions in
    let variance :=
      Num.div (sumOf squaredDiffs) (Num.ofNat (List.length positions)) in
    Num.sqrt variance.

Definition detectSpatialPattern (variance : num) (chunkCount : nat) : string :=
  if chunkCount =? 0 then "none"
  else if chunkCount =? 1 then "single"
  else if Num.ltb variance (Num.ofZ 10) then "concentrated"
  else if Num.ltb (Num.ofZ 50) variance then "spread"
  else "moderate".

Definition filterBySpatialCategory (chunks : list (ScoredChunk num))
    (category : string) : list (ScoredChunk num) :=
  let variance := calculateSpatialVariance chunks in
  let pattern := detectSpatialPattern variance (List.length chunks) in
  if String.eqb category "concentrated" && String.eqb pattern "concentrated"
  then chunks
  else if String.eqb category "spread" && String.eqb pattern "spread"
  then chunks
  else if String.eqb category "concentrated" || String.eqb category "spread"
  then []
  else chunks.

(** ** Scoring a topic *)

(** [searchableChunks.map(chunk => ...)]; [None] when scoring a chunk does
    not end. *)
Fixpoint scoreAll (concept : Concept num) (chunks : list Chunk)
    : option (list (ScoredChunk num)) :=
  match chunks with
  | [] => Some []
  | chunk :: rest =>
      match scoreChunk chunk concept, scoreAll concept rest with
      | Some score, Some scored =>
          Some ({| chunk := chunk;
                   relevanceScore := totalScore score;
                   scoreDetails := score |} :: scored)
      | _, _ => None
      end
  end.

(** The comparator [(a, b) => b.relevanceScore - a.relevanceScore] is
    positive. *)
Definition byScoreDesc (a b : ScoredChunk num) : bool :=
  Num.ltb Num.zero (Num.sub (relevanceScore b) (relevanceScore a)).

Definition qualifies (c : ScoredChunk num) : bool :=
  Num.leb (minimumScoreThreshold cfg) (relevanceScore c).

Definition executeBlockWithScoring (block : Block num)
    (searchableChunks : list Chunk) : option (list (ScoredChunk num)) :=
  match inclusionConcepts block with
  | [] => Some []
  | concept :: _ =>
      match scoreAll concept searchableChunks with
      | None => None
      | Some scoredChunks =>
          let qualifyingChunks := filter qualifies scoredChunks in
          let qualifyingChunks := sort byScoreDesc qualifyingChunks in
          if negb (String.eqb (spatialCategory block) "auto")
          then Some (filterBySpatialCategory qualifyingChunks (spatialCategory block))
          else Some qualifyingChunks
      end
  end.

End Scoring.

(** ** Packing into super chunks *)

Record TopicResult (num : Type) : Type := {
  tr_topicId : Z;
  tr_topicQuestion : string;
  tr_chunks : list (ScoredChunk num)
}.

Record TopicSection (num : Type) : Type := {
  sec_topicId : Z;
  sec_topicQuestion : string;
  chunks : list (ScoredChunk num);
  isContinuation : bool
}.

Record SuperChunk (num : Type) : Type := {
  topics : list (TopicSection num);
  totalChars : Z;
  isFirst : bool
}.

(** A stored document, as [getDocument] returns it. *)
Record Document : Type := {
  doc_id : Z;
  name : string
}.

(** The comparator of [sortChunksChronologically] is positive. *)
Definition chronological {num} (a b : ScoredChunk num) : bool :=
  if negb (documentId (chunk a) =? documentId (chunk b))%Z
  then (0 <? documentId (chunk a) - documentId (chunk b))%Z
  else (0 <? chunkNumber (chunk a) - chunkNumber (chunk b))%Z.

Definition sortChunksChronologically {num} (chunks : list (ScoredChunk num))
    : list (ScoredChunk num) :=
  sort chronological chunks.

(** The questions of the header, [allTopics.forEach((question, idx) => ...)]. *)
Fixpoint questionLines (allTopics : list string) (idx : nat) : string :=
  match allTopics with
  | [] => ""%string
  | question :: rest =>
      ("  Q" ++ showNat (idx + 1) ++ ": " ++ question ++ nl
         ++ questionLines rest (idx + 1))%string
  end.

Definition formatChatPackageHeader (allTopics : list string) : string :=
  ("[[chat package]]" ++ nl
   ++ "[[Only respond with OK until all Super Chunks have been provided to you.]]"
   ++ nl ++ nl
   ++ "[[paste all super chunks sequentially]]" ++ nl ++ nl
   ++ "[[Answer questions ONLY from the provided content and tell user if other content is needed.]]"
   ++ nl ++ nl
   ++ "Questions:" ++ nl
   ++ questionLines allTopics 0
   ++ nl)%string.

(** The variables of [createSuperChunksWithTopics] that live across topics. *)
Record Packer (num : Type) : Type := {
  superChunks : list (SuperChunk num);
  currentChars : Z;
  currentTopics : list (TopicSection num);
  isFirstSuperChunk : bool
}.

Section Packing.
Context {num : Type} {F : Num.Format num}.

(** The packer's rendering of a chunk.  [relevanceScore] is a number on
    every scored chunk, so [?.] passes it on and [toFixed], which never
    yields the empty string, leaves ['?'] unused. *)
Definition chunkFormatted (c : ScoredChunk num) : string :=
  ("[[chunk " ++ showZ (chunkNumber (chunk c)) ++ "]] (score: "
   ++ Num.toFixed1 (relevanceScore c) ++ ")" ++ nl
   ++ content (chunk c) ++ nl ++ nl)%string.

Definition topicHeaderText (topicIndex : nat) (topicResult : TopicResult num)
    : string :=
  (nl ++ "[[topic " ++ showNat (topicIndex + 1) ++ ": "
   ++ tr_topicQuestion topicResult ++ "]]" ++ nl ++ nl)%string.

Definition pushChunk (s : TopicSection num) (c : ScoredChunk num)
    : TopicSection num :=
  {| sec_topicId := sec_topicId s;
     sec_topicQuestion := sec_topicQuestion s;
     chunks := chunks s ++ [c];
     isContinuation := isContinuation s |}.

Section Topic.
Variable maxCharsPerSuperChunk : Z.
Variable headerChars : Z.
Variable topicResult : TopicResult num.
Variable topicHeaderChars : Z.

(** The body of [for (const chunk of sortedChunks)]: the state is the packer
    and the topic section being filled. *)
Definition packChunk (st : Packer num * TopicSection num) (c : ScoredChunk num)
    : Packer num * TopicSection num :=
  let '(p, currentTopicSection) := st in
  let chunkChars := strlen (chunkFormatted c) in
  let requiredSpace :=
    if List.length (chunks currentTopicSection) =? 0
    then (chunkChars + topicHeaderChars)%Z else chunkChars in
  let headerSpace := if isFirstSuperChunk p then headerChars else 0%Z in
  let totalIfAdded := (headerSpace + currentChars p + requiredSpace)%Z in
  if (maxCharsPerSuperChunk <? totalIfAdded)%Z
     && ((0 <? List.length (currentTopics p))
         || (0 <? List.length (chunks currentTopicSection)))
  then
    let currentTopics' :=
      if 0 <? List.length (chunks currentTopicSection)
      then currentTopics p ++ [currentTopicSection] else currentTopics p in
    let superChunk :=
      {| topics := currentTopics';
         totalChars := (currentChars p + headerSpace)%Z;
         isFirst := isFirstSuperChunk p |} in
    ({| superChunks := superChunks p ++ [superChunk];
        currentChars := (0 + (topicHeaderChars + chunkChars))%Z;
        currentTopics := [];
        isFirstSuperChunk := false |},
     {| sec_topicId := tr_topicId topicResult;
        sec_topicQuestion := tr_topicQuestion topicResult;
        chunks := [c];
        isContinuation := true |})
  else
    let section := pushChunk currentTopicSection c in
    let chars :=
      if List.length (chunks section) =? 1
      then (currentChars p + topicHeaderChars)%Z else currentChars p in
    ({| superChunks := superChunks p;
        currentChars := (chars + chunkChars)%Z;
        currentTopics := currentTopics p;
        isFirstSuperChunk := isFirstSuperChunk p |},
     section).

End Topic.

(** The body of [for (let topicIndex = 0; ...)]. *)
Definition packTopic (maxCharsPerSuperChunk headerChars : Z) (p : Packer num)
    (indexed : nat * TopicResult num) : Packer num :=
  let '(topicIndex, topicResult) := indexed in
  if List.length (tr_chunks topicResult) =? 0 then p
  else
    let sortedChunks := sortChunksChronologically (tr_chunks topicResult) in
    let currentTopicSection :=
      {| sec_topicId := tr_topicId topicResult;
         sec_topicQuestion := tr_topicQuestion topicResult;
         chunks := [];
         isContinuation := false |} in
    let topicHeaderChars := strlen (topicHeaderText topicIndex topicResult) in
    let '(p, currentTopicSection) :=
      fold_left
        (packChunk maxCharsPerSuperChunk headerChars topicResult topicHeaderChars)
        sortedChunks (p, currentTopicSection) in
    if 0 <? List.length (chunks currentTopicSection)
    then {| superChunks := superChunks p;
            currentChars := currentChars p;
            currentTopics := currentTopics p ++ [currentTopicSection];
            isFirstSuperChunk := isFirstSuperChunk p |}
    else p.

(** [topicResults] paired with their indices. *)
Definition indexed {A} (l : list A) : list (nat * A) :=
  combine (seq 0 (List.length l)) l.

Definition createSuperChunksWithTopics (topicResults : list (TopicResult num))
    (maxCharsPerSuperChunk : Z) (allTopics : list string)
    : list (SuperChunk num) :=
  let headerChars := strlen (formatChatPackageHeader allTopics) in
  let p :=
    fold_left (packTopic maxCharsPerSuperChunk headerChars)
      (indexed topicResults)
      {| superChunks := []; currentChars := 0; currentTopics := [];
         isFirstSuperChunk := true |} in
  if 0 <? List.length (currentTopics p)
  then
    let headerSpace := if isFirstSuperChunk p then headerChars else 0%Z in
    superChunks p
      ++ [ {| topics := currentTopics p;
              totalChars := (currentChars p + headerSpace)%Z;
              isFirst := isFirstSuperChunk p |} ]
  else superChunks p.

(** ** The envelope *)

Variable getDocument : Z -> option Document.

(** The formatter's rendering of a chunk. *)
Definition formatChunk (c : ScoredChunk num) : string :=
  ("[[chunk " ++ showZ (chunkNumber (chunk c)) ++ "]]"
   ++ (if Num.truthy (relevanceScore c)
       then " (score: " ++ Num.toFixed1 (relevanceScore c) ++ ")" else "")
   ++ nl ++ content (chunk c) ++ nl ++ nl)%string.

Definition concatMap {A} (f : A -> string) (l : list A) : string :=
  fold_left (fun output x => (output ++ f x)%string) l ""%string.

(** One topic section; [None] when the section has no first chunk or its
    document is not stored (the code throws a [TypeError]). *)
Definition formatTopicSection (topicSection : TopicSection num) : option string :=
  match chunks topicSection with
  | [] => None
  | firstChunk :: _ =>
      match getDocument (documentId (chunk firstChunk)) with
      | None => None
      | Some doc =>
          let continuationMarker :=
            (if isContinuation topicSection then " (continued)" else "")%string in
          Some ("[[topic: " ++ sec_topicQuestion topicSection
                ++ continuationMarker ++ "]]" ++ nl ++ nl
                ++ "[[document: " ++ name doc ++ "]]" ++ nl ++ nl
                ++ concatMap formatChunk (chunks topicSection))%string
      end
  end.

Fixpoint formatTopicSections (sections : list (TopicSection num))
    : option string :=
  match sections with
  | [] => Some ""%string
  | s :: rest =>
      match formatTopicSection s, formatTopicSections rest with
      | Some here, Some there => Some (here ++ there)%string
      | _, _ => None
      end
  end.

(** [allTopics] is [null] for every super chunk but the first of the list. *)
Definition formatSuperChunkContent (superChunk : SuperChunk num)
    (superChunkNumber totalSuperChunks : nat) (allTopics : option (list string))
    : option string :=
  let header :=
    match allTopics with
    | Some allTopics =>
        if isFirst superChunk then formatChatPackageHeader allTopics else ""%string
    | None => ""%string
    end in
  match formatTopicSections (topics superChunk) with
  | None => None
  | Some sections =>
      Some (header
            ++ "[[super chunk " ++ showNat superChunkNumber ++ " of "
            ++ showNat totalSuperChunks ++ "]]" ++ nl
            ++ (if (1 <? superChunkNumber)%nat
                then "[[continued from previous super chunk]]" ++ nl else "")
            ++ nl
            ++ sections
            ++ "[[/super chunk " ++ showNat superChunkNumber ++ "]]" ++ nl
            ++ (if (superChunkNumber =? totalSuperChunks)%nat
                then nl ++ "[[/chat package]]" else ""))%string
  end.

Record Formatted : Type := {
  index : nat;
  chunkCount : nat;
  charCount : Z;
  formattedContent : string
}.

Fixpoint formatFrom (i total : nat) (allTopics : list string)
    (superChunks : list (SuperChunk num)) : option (list Formatted) :=
  match superChunks with
  | [] => Some []
  | superChunk :: rest =>
      match formatSuperChunkContent superChunk (i + 1) total
              (if i =? 0 then Some allTopics else None),
            formatFrom (i + 1) total allTopics rest with
      | Some text, Some formatted =>
          Some ({| index := i;
                   chunkCount :=
                     fold_left (fun sum t => sum + List.length (chunks t))
                               (topics superChunk) 0;
                   charCount := strlen text;
                   formattedContent := text |} :: formatted)
      | _, _ => None
      end
  end.

Definition formatSuperChunks (superChunks : list (SuperChunk num))
    (allTopics : list string) : option (list Formatted) :=
  formatFrom 0 (List.length superChunks) allTopics superChunks.

End Packing.

(** ** The query and its execution *)

(** The query structure in the 2.3 format, as [convertToSearchFormat] builds
    it; [normalizeQueryStructure] returns such a query as it is.  The fields
    the engine only passes on (tier names, package size, time stamp) are
    left out. *)
Record SearchQuery (num : Type) : Type := {
  sourceType : string;
  documentIds : list Z;
  collectionId : option Z;
  maxCharsPerSuperChunk : Z;
  limitSuperChunks : bool;
  maxSuperChunksPerTopic : Z;
  blocks : list (Block num);
  allTopics : list string
}.

(** What the store answers to the reads of the engine. *)
Record Store : Type := {
  getChunksByDocument : Z -> list Chunk;
  getChunksByCollection : option Z -> list Chunk;
  getDocument : Z -> option Document
}.

(** How a call of the engine ends: it returns a result; or the position
    loop of the scoring goes round without end (the array of positions grows
    with every turn, so that an engine gives up when the array cannot grow
    any more); or the formatter throws, for want of a document.  A read of
    the store that fails is not part of the model. *)
Inductive Outcome (A : Type) : Type :=
| Returns (a : A)
| NeverEnds
| Throws.

Arguments NeverEnds {A}.
Arguments Throws {A}.

Record QueryResult (num : Type) : Type := {
  totalChunks : nat;
  topicResults : list (TopicResult num);
  r_superChunks : list Formatted
}.

Definition fetchChunksForQuery {num} (store : Store)
    (queryStructure : SearchQuery num) : list Chunk :=
  if String.eqb (sourceType queryStructure) "documents"
  then fold_left (fun chunks docId => chunks ++ getChunksByDocument store docId)
                 (documentIds queryStructure) []
  else if String.eqb (sourceType queryStructure) "collection"
  then getChunksByCollection store (collectionId queryStructure)
  else [].

(** The chunks of all topics, each chunk [id] once: [seenIds] are the ids met
    so far. *)
Definition combineTopicResults {num} (topicResults : list (TopicResult num))
    : list (ScoredChunk num) :=
  fst (fold_left
         (fun state topicResult =>
            fold_left
              (fun state chunk =>
                 let '(allChunks, seenIds) := state in
                 if existsb (Z.eqb (id (Search.chunk chunk))) seenIds then state
                 else (allChunks ++ [chunk], seenIds ++ [id (Search.chunk chunk)]))
              (tr_chunks topicResult) state)
         topicResults ([], [])).

(** [topicCounts.get(k) || 0] and [topicCounts.set(k, v)] on the map from
    topic ids to counts; the map is only read by key. *)
Fixpoint topicCount (topicCounts : list (Z * nat)) (k : Z) : nat :=
  match topicCounts with
  | [] => 0
  | (k', v) :: r => if (k' =? k)%Z then v else topicCount r k
  end.

Fixpoint setTopicCount (topicCounts : list (Z * nat)) (k : Z) (v : nat)
    : list (Z * nat) :=
  match topicCounts with
  | [] => [(k, v)]
  | (k', v') :: r =>
      if (k' =? k)%Z then (k', v) :: r else (k', v') :: setTopicCount r k v
  end.

(** The body of [for (const superChunk of allSuperChunks)]. *)
Definition limitStep {num} (maxPerTopic : Z)
    (state : list (SuperChunk num) * list (Z * nat)) (superChunk : SuperChunk num)
    : list (SuperChunk num) * list (Z * nat) :=
  let '(result, topicCounts) := state in
  match topics superChunk with
  | [] => state
  | primary :: _ =>
      let primaryTopicId := sec_topicId primary in
      let currentCount := topicCount topicCounts primaryTopicId in
      if (Z.of_nat currentCount <? maxPerTopic)%Z
      then (result ++ [superChunk],
            setTopicCount topicCounts primaryTopicId (currentCount + 1))
      else state
  end.

Definition limitSuperChunksPerTopic {num} (allSuperChunks : list (SuperChunk num))
    (numTopics : nat) (maxPerTopic : Z) : list (SuperChunk num) :=
  if numTopics =? 1 then slice0 allSuperChunks maxPerTopic
  else fst (fold_left (limitStep maxPerTopic) allSuperChunks ([], [])).

Section Engine.
Context {num : Type} {N : Num.Number num} {F : Num.Format num}.
Variable cfg : ScoringConfig num.
Variable store : Store.

(** The loop over the blocks of [executeQuery]; [None] when the scoring of a
    block does not end. *)
Fixpoint executeBlocks (blocks : list (Block num)) (allChunks : list Chunk)
    : option (list (TopicResult num)) :=
  match blocks with
  | [] => Some []
  | block :: rest =>
      match executeBlockWithScoring cfg block allChunks,
            executeBlocks rest allChunks with
      | Some scoredChunks, Some topicResults =>
          Some ({| tr_topicId := topicId block;
                   tr_topicQuestion := topicQuestion block;
                   tr_chunks := scoredChunks |} :: topicResults)
      | _, _ => None
      end
  end.

(** [limitSuperChunks && maxSuperChunksPerTopic] is truthy. *)
Definition willLimit (q : SearchQuery num) : bool :=
  limitSuperChunks q && negb (maxSuperChunksPerTopic q =? 0)%Z.

(** [executeQuery] logs an error and throws it again: it throws when the
    formatter does. *)
Definition executeQuery (queryStructure : SearchQuery num)
    : Outcome (QueryResult num) :=
  let normalizedQuery := queryStructure in
  let allChunks := fetchChunksForQuery store normalizedQuery in
  match executeBlocks (blocks normalizedQuery) allChunks with
  | None => NeverEnds
  | Some topicResults =>
      let combinedChunks := combineTopicResults topicResults in
      let allSuperChunks :=
        createSuperChunksWithTopics topicResults
          (maxCharsPerSuperChunk normalizedQuery) (allTopics normalizedQuery) in
      let finalSuperChunks :=
        if willLimit normalizedQuery
        then limitSuperChunksPerTopic allSuperChunks (List.length topicResults)
               (maxSuperChunksPerTopic normalizedQuery)
        else allSuperChunks in
      match formatSuperChunks (getDocument store) finalSuperChunks
              (allTopics normalizedQuery) with
      | None => Throws
      | Some formattedSuperChunks =>
          Returns {| totalChunks := List.length combinedChunks;
                     topicResults := topicResults;
                     r_superChunks := formattedSuperChunks |}
      end
  end.

End Engine.

End Search.

(* ===================================================================== *)
(** * The query builder (query-builder.js)                                *)
(* ===================================================================== *)

Module QueryBuilder.
Import Js Vectorizer.

(** A topic of the query: [expandedConcepts] is absent until the topic is
    expanded. *)
Record Topic (num : Type) : Type := {
  t_topicId : Z;
  question : string;
  t_spatialCategory : string;
  expandedConcepts : option (list (Search.Concept num))
}.

(** The query [generateQueryStructure] builds, without the fields that are
    only passed on. *)
Record Query (num : Type) : Type := {
  q_maxCharsPerSuperChunk : Z;
  q_sourceType : string;
  q_documentIds : list Z;
  q_collectionId : option Z;
  q_limitSuperChunks : bool;
  q_maxSuperChunksPerTopic : Z;
  q_topics : list (Topic num);
  q_vectorizationApplied : bool
}.

Section Expansion.
Context {num : Type} {N : Num.Number num} {T : Num.Truth num}.
Variable cfg : Config num.
Variable getVectors : Z -> option CoOccurrenceIndex.
Variable getChunksByCollection : option Z -> list Search.Chunk.

(** The body of [exp.expandedTerms.forEach((term, idx) => ...)]: the first
    expansion that brings a term sets its metadata. *)
Definition noteTerm (exp : Expansion num)
    (state : list string * JsMap (Search.TermMeta num)) (entry : nat * string)
    : list string * JsMap (Search.TermMeta num) :=
  let '(allExpandedTerms, termMetadata) := state in
  let '(idx, term) := entry in
  let termMetadata :=
    if negb (map_has termMetadata term)
    then map_set termMetadata term
           {| Search.similarity :=
                Num.orDefault (nth_error (similarities exp) idx) Num.one;
              Search.isOriginal := String.eqb (originalTerm exp) term |}
    else termMetadata in
  (allExpandedTerms ++ [term], termMetadata).

(** The single concept of a topic.  [Object.fromEntries(termMetadata)] has
    the entries of the map as its own properties. *)
Definition singleConcept (expansions : list (Expansion num))
    : Search.Concept num :=
  let originalTerms := map (fun exp => originalTerm exp) expansions in
  let '(allExpandedTerms, termMetadata) :=
    fold_left
      (fun state exp => fold_left (noteTerm exp) (entries (expandedTerms exp)) state)
      expansions ([], []) in
  let uniqueTerms := uniq allExpandedTerms in
  {| Search.terms := uniqueTerms;
     Search.originalTerms := originalTerms;
     Search.termMetadata := termMetadata |}.

(** The body of [query.topics.map(async (topic) => ...)].  Its [catch]
    branch, which returns the topic as it is, is entered when a read of the
    store fails, which is not part of the model. *)
Definition expandTopic (documentIds : list Z) (topic : Topic num) : Topic num :=
  let expansions := expandQueryMultiDoc cfg getVectors (question topic) documentIds in
  {| t_topicId := t_topicId topic;
     question := question topic;
     t_spatialCategory := t_spatialCategory topic;
     expandedConcepts := Some [singleConcept expansions] |}.

(** [vectorizationEnabled] is the flag of the builder's state. *)
Definition expandQueryTopics (vectorizationEnabled : bool) (query : Query num)
    : Query num :=
  if negb vectorizationEnabled then query
  else
    let documentIds :=
      if String.eqb (q_sourceType query) "documents" then q_documentIds query
      else if String.eqb (q_sourceType query) "collection"
      then uniqZ (map (fun c => Search.documentId c)
                      (getChunksByCollection (q_collectionId query)))
      else [] in
    if List.length documentIds =? 0 then query
    else
      {| q_maxCharsPerSuperChunk := q_maxCharsPerSuperChunk query;
         q_sourceType := q_sourceType query;
         q_documentIds := q_documentIds query;
         q_collectionId := q_collectionId query;
         q_limitSuperChunks := q_limitSuperChunks query;
         q_maxSuperChunksPerTopic := q_maxSuperChunksPerTopic query;
         q_topics := map (expandTopic documentIds) (q_topics query);
         q_vectorizationApplied := true |}.

End Expansion.

(** The class [[?.,!]] *)
Definition is_punctuation (c : ascii) : bool :=
  Ascii.eqb c "?"%char || Ascii.eqb c "."%char
  || Ascii.eqb c ","%char || Ascii.eqb c "!"%char.

(** The words of a question that is not expanded. *)
Definition wordsOf (question : string) : list string :=
  filter (fun w => 2 <? String.length w)
         (split_spaces (remove_chars is_punctuation (toLowerCase question))).

(** The body of [query.topics.map((topic, index) => ...)]; a block keeps the
    fields the engine reads. *)
Definition blockOf {num} (topic : Topic num) : Search.Block num :=
  let inclusionConcepts :=
    match expandedConcepts topic with
    | Some expandedConcepts => expandedConcepts
    | None =>
        let words := wordsOf (question topic) in
        [ {| Search.terms := words;
             Search.originalTerms := words;
             Search.termMetadata := [] |} ]
    end in
  {| Search.topicId := t_topicId topic;
     Search.topicQuestion := question topic;
     Search.spatialCategory := t_spatialCategory topic;
     Search.inclusionConcepts := inclusionConcepts |}.

Definition convertToSearchFormat {num} (query : Query num)
    : Search.SearchQuery num :=
  {| Search.sourceType := q_sourceType query;
     Search.documentIds := q_documentIds query;
     Search.collectionId := q_collectionId query;
     Search.maxCharsPerSuperChunk := q_maxCharsPerSuperChunk query;
     Search.limitSuperChunks := q_limitSuperChunks query;
     Search.maxSuperChunksPerTopic := q_maxSuperChunksPerTopic query;
     Search.blocks := map blockOf (q_topics query);
     Search.allTopics := map (fun t => question t) (q_topics query) |}.

End QueryBuilder.


(* ===================================================================== *)
(** * The vocabulary of the properties                                    *)
(* ===================================================================== *)

(** ** Order of appearance *)

Module Order.

(** [a] stands somewhere before [b] in [l]. *)
Definition precedes {A} (l : list A) (a b : A) : Prop :=
  exists l1 l2 l3, l = l1 ++ a :: l2 ++ b :: l3.

(** [a] may stand before [b]: the comparator does not ask for [a] after [b]. *)
Definition inorder {A} (after : A -> A -> bool) (a b : A) : Prop :=
  after a b = false.

End Order.

(** ** The order of the doubles *)

Module FloatSpec.

(** [x] is a number: it is not [NaN], the only double that differs from
    itself. *)
Definition number (x : float) : Prop := PrimFloat.eqb x x = true.

(** The place of a double on the number line: first its class (negative
    infinity, negative, zero, positive, positive infinity), then exponent
    and mantissa, taken negatively for a negative number. *)
Definition rank (f : spec_float) : Z * Z * Z :=
  match f with
  | S754_infinity true => (-2, 0, 0)
  | S754_finite true m e => (-1, - e, - Zpos m)
  | S754_zero _ => (0, 0, 0)
  | S754_nan => (0, 0, 0)
  | S754_finite false m e => (1, e, Zpos m)
  | S754_infinity false => (2, 0, 0)
  end%Z.

(** The lexicographic order of the ranks. *)
Definition lt3 (a b : Z * Z * Z) : Prop :=
  (fst (fst a) < fst (fst b)
   \/ (fst (fst a) = fst (fst b)
       /\ (snd (fst a) < snd (fst b)
           \/ (snd (fst a) = snd (fst b) /\ snd a < snd b))))%Z.

End FloatSpec.

(** ** Count vectors *)

Module Counts.
Import Js.

(** The dot product and the squared magnitude of two count vectors, as the
    natural numbers they are when nothing is rounded. *)
Definition dotN (vec1 vec2 : JsMap nat) : nat :=
  fold_right (fun entry acc => snd entry * count_of vec2 (fst entry) + acc) 0 vec1.

Definition squaresN (vec : JsMap nat) : nat :=
  fold_right (fun entry acc => snd entry * snd entry + acc) 0 vec.

(** The count of [t] in a vector whose only key is [k]. *)
Definition pick (k t : string) (c : nat) : nat := if String.eqb k t then c else 0.

(** A count as a real number. *)
Definition natR (n : nat) : R := IZR (Z.of_nat n).

End Counts.

(** ** The index *)

Module IndexSpec.
Import Js Vectorizer.

(** [matrix.get(T)], the empty vector when [T] is no key. *)
Definition vectorOf (m : JsMap (JsMap nat)) (T : string) : JsMap nat :=
  match map_get m T with Some v => v | None => [] end.

(** The sequence of terms the matrix of a text is built from. *)
Definition sequenceOf {num} (cfg : Config num) (text : string) : list string :=
  map term (validTermsOf cfg text).

(** The configuration [cfg] with another vocabulary cap. *)
Definition withMaxTerms {num} (cfg : Config num) (cap : Z) : Config num :=
  {| windowSize := windowSize cfg;
     minFrequency := minFrequency cfg;
     maxTerms := cap;
     minSimilarity := minSimilarity cfg;
     maxExpansions := maxExpansions cfg;
     stopwords := stopwords cfg |}.

(** What one entry of the matrix adds to the candidates of
    [findSimilarTerms]. *)
Definition candidate {num} {N : Num.Number num} (cfg : Config num)
    (queryTerm : string) (queryVector : JsMap nat)
    (entry : string * JsMap nat) : list (Similar num) :=
  if String.eqb (fst entry) queryTerm then []
  else
    let s := cosineSimilarity (Some queryVector) (Some (snd entry)) in
    if Num.leb (minSimilarity cfg) s
    then [ {| sim_term := fst entry; similarity := s |} ] else [].

End IndexSpec.

(** ** The hybrid score, as the specification words it *)

Module ScoreSpec.
Import Js.

(** The gaps between neighbours of a list of offsets. *)
Fixpoint gaps (l : list nat) : list nat :=
  match l with
  | a :: (b :: _) as rest => (b - a) :: gaps rest
  | _ => []
  end.

Section Spec.
Context {num : Type} {N : Num.Number num}.
Variable cfg : Search.ScoringConfig num.
Variable C : string.
Variable concept : Search.Concept num.

(** [T] matches: lowercased, it is a substring of the lowercased content. *)
Definition matches (T : string) : bool :=
  includes (toLowerCase C) (toLowerCase T).

Definition matched : list string := filter matches (Search.terms concept).

(** [T] is an original term: its metadata says so, or it is listed among
    the original terms of the concept. *)
Definition original (T : string) : bool :=
  match map_get (Search.termMetadata concept) T with
  | Some m => Search.isOriginal m
  | None => false
  end
  || array_includes (Search.originalTerms concept) T.

Definition similarityOf (T : string) : num :=
  match map_get (Search.termMetadata concept) T with
  | Some m => Search.similarity m
  | None => Num.zero
  end.

(** What a matched expansion term adds to the semantic score. *)
Definition semantic (T : string) : num :=
  if Num.leb (Search.highSimilarityThreshold cfg) (similarityOf T)
  then Num.mul (Search.semanticWeight cfg) (similarityOf T)
  else Num.mul (Num.mul (Search.semanticWeight cfg) (similarityOf T)) (Num.dec 1 2).

Definition originalTermScore : num :=
  fold_left (fun sum _ => Num.add sum (Search.originalTermWeight cfg))
            (filter original matched) Num.zero.

Definition semanticScore : num :=
  fold_left (fun sum T => Num.add sum (semantic T))
            (filter (fun T => negb (original T)) matched) Num.zero.

(** [T] occurs in the content at offset [k]. *)
Definition occursAt (T : string) (k : nat) : bool :=
  String.eqb
    (String.substring k (String.length (toLowerCase T)) (toLowerCase C))
    (toLowerCase T).

Definition offsetsOf (T : string) : list nat :=
  filter (occursAt T) (seq 0 (String.length (toLowerCase C))).

(** All occurrence offsets of the matched terms, enumerated term by term: an
    offset at which two matched terms occur is listed once for each. *)
Definition offsets : list nat := flat_map offsetsOf matched.

(** The proximity bonus for a minimum gap [d]. *)
Definition bonus (d : nat) : num :=
  if Num.leb (Num.ofNat d) (Search.proximityDistance cfg)
  then Num.mul (Search.proximityWeight cfg)
         (Num.sub Num.one
            (Num.div (Num.ofNat d) (Search.proximityDistance cfg)))
  else Num.zero.

(** [p] is the proximity component: the bonus of the minimum gap between
    neighbours of the offsets sorted in ascending order. *)
Definition proximity (p : num) : Prop :=
  exists sorted d,
    Permutation sorted offsets
    /\ StronglySorted le sorted
    /\ In d (gaps sorted) /\ Forall (le d) (gaps sorted)
    /\ p = bonus d.

(** Every term among [ts] that is not original has an entry in the
    metadata. *)
Definition expansionsHaveMetadata (ts : list string) : Prop :=
  forall T, In T ts -> original T = false ->
            map_has (Search.termMetadata concept) T = true.

End Spec.

(** The offsets at or after [pos] at which [t] occurs, [s] being the content
    from [pos] on. *)
Fixpoint offs (t s : string) (pos : nat) : list nat :=
  match s with
  | EmptyString => []
  | String _ r =>
      (if String.prefix t s then [pos] else []) ++ offs t r (S pos)
  end.


End ScoreSpec.

(** ** Chronology and packing *)

Module PackSpec.
Import Js Search.

(** The key [(documentId, chunkNumber)] of a chunk. *)
Definition keyOf {num} (c : ScoredChunk num) : Z * Z :=
  (documentId (chunk c), chunkNumber (chunk c)).

(** The chronological order: lexicographic on the key. *)
Definition keyLe {num} (a b : ScoredChunk num) : Prop :=
  (documentId (chunk a) < documentId (chunk b)
   \/ (documentId (chunk a) = documentId (chunk b)
       /\ chunkNumber (chunk a) <= chunkNumber (chunk b)))%Z.

Definition keyLt {num} (a b : ScoredChunk num) : Prop :=
  (documentId (chunk a) < documentId (chunk b)
   \/ (documentId (chunk a) = documentId (chunk b)
       /\ chunkNumber (chunk a) < chunkNumber (chunk b)))%Z.

(** The number of chunks in a list of topic sections. *)
Definition chunksIn {num} (sections : list (TopicSection num)) : nat :=
  list_sum (map (fun t => List.length (chunks t)) sections).

Section Invariants.
Context {num : Type}.

(** The order [R] holds within a section. *)
Definition ordered (R : ScoredChunk num -> ScoredChunk num -> Prop)
    (s : TopicSection num) : Prop :=
  StronglySorted R (chunks s).

(** Every section closed so far is in order. *)
Definition closedOrdered (R : ScoredChunk num -> ScoredChunk num -> Prop)
    (p : Packer num) : Prop :=
  Forall (fun sc => Forall (ordered R) (topics sc)) (superChunks p)
  /\ Forall (ordered R) (currentTopics p).

Variable maxChars : Z.
Variable headerChars : Z.

(** A closed super chunk is within the limit by the packer's count, or it
    holds a single chunk. *)
Definition withinLimit (sc : SuperChunk num) : Prop :=
  (totalChars sc <= maxChars)%Z \/ chunksIn (topics sc) = 1.

(** The same for the super chunk being filled, [s] being its open section;
    it may still be empty. *)
Definition fillingWithinLimit (p : Packer num) (s : TopicSection num) : Prop :=
  ((if isFirstSuperChunk p then headerChars else 0) + currentChars p <= maxChars)%Z
  \/ chunksIn (currentTopics p) + List.length (chunks s) <= 1.

Definition nonempty (s : TopicSection num) : Prop := chunks s <> [].

(** The invariant of the packing loops. *)
Definition invariant (p : Packer num) (s : TopicSection num) : Prop :=
  Forall (fun sc => withinLimit sc /\ Forall nonempty (topics sc)) (superChunks p)
  /\ Forall nonempty (currentTopics p)
  /\ fillingWithinLimit p s.

(** A section with no chunk: the state between two topics. *)
Definition noSection : TopicSection num :=
  {| sec_topicId := 0; sec_topicQuestion := ""; chunks := []; isContinuation := false |}.

End Invariants.

End PackSpec.

(* ===================================================================== *)
(** * Sample inputs                                                       *)
(* ===================================================================== *)

Module Samples.
Import Js Vectorizer Search.

(** The vector [{a: 1, b: 1, c: 1}]. *)
Definition three_ones : JsMap nat :=
  [("a"%string, 1); ("b"%string, 1); ("c"%string, 1)].

Definition fuel_vector : JsMap nat := [("pump"%string, 4); ("line"%string, 2)].
Definition pump_vector : JsMap nat := [("fuel"%string, 4); ("line"%string, 1)].

(** Two vectors over the same keys, in different orders; the count of [a]
    in the first is 2^53, from which on the doubles are more than 1 apart. *)
Definition heavy_vector : JsMap nat :=
  [("a"%string, Z.to_nat (2 ^ 53)); ("b"%string, 1); ("c"%string, 1)].
Definition light_vector : JsMap nat :=
  [("c"%string, 1); ("b"%string, 1); ("a"%string, 1)].

(** An index in which the cosine of fuel and pump is 3/10 in exact
    arithmetic and rounds to a double below 0.3. *)
Definition rounding_index : CoOccurrenceIndex :=
  {| matrix :=
       [ ("fuel"%string, [("x"%string, 3); ("y"%string, 1)]);
         ("pump"%string, [("x"%string, 1); ("z"%string, 3)]) ];
     termFrequencies := [];
     totalTerms := 0 |}.

Definition tie_text : string := "fuel pump clean fuel line clean pump line".

(** The terms similar to fuel in the index of [tie_text], on doubles. *)
Definition tie_result : list (Similar float) :=
  findSimilarTerms CONFIG "fuel"
    (buildCoOccurrenceMatrix (CONFIG (num:=float)) tie_text) 5.

Definition repeat_text : string := "fuel pump fuel pump".

(** The configuration with a vocabulary cap of two terms. *)
Definition CONFIG_cap2 : Config float := {|
  windowSize := 7;
  minFrequency := 2;
  maxTerms := 2;
  minSimilarity := Num.dec 3 10;
  maxExpansions := 5;
  stopwords := default_stopwords
|}.

(** An index with no terms, as stored for an empty document. *)
Definition empty_index : CoOccurrenceIndex :=
  {| matrix := []; termFrequencies := []; totalTerms := 0 |}.

(** The chunk and concept of scenario S2. *)
Definition s2_chunk : Chunk :=
  {| id := 1; documentId := 1; chunkNumber := 0; content := "configure GPS now" |}.

Definition s2_concept : Concept float :=
  {| terms := ["configure"; "gps"]%string;
     originalTerms := ["configure"; "gps"]%string;
     termMetadata :=
       [ ("configure"%string, {| similarity := Num.one; isOriginal := true |});
         ("gps"%string, {| similarity := Num.one; isOriginal := true |}) ] |}.

Definition fuel_concept {num} `{Num.Number num} : Concept num :=
  {| terms := ["fuel"%string];
     originalTerms := ["fuel"%string];
     termMetadata := [("fuel"%string, {| similarity := Num.one; isOriginal := true |})] |}.

Definition fuel_block {num} `{Num.Number num} : Block num :=
  {| topicId := 1;
     topicQuestion := "fuel";
     spatialCategory := "auto";
     inclusionConcepts := [fuel_concept] |}.

(** Two chunks of equal score, the one of document 2 first, as a query with
    [documentIds = [2, 1]] retrieves them. *)
Definition tied_chunks : list Chunk :=
  [ {| id := 7; documentId := 2; chunkNumber := 0; content := "fuel line" |};
    {| id := 3; documentId := 1; chunkNumber := 0; content := "fuel pump" |} ].

(** A chunk in which pump and seal stand 110 characters apart, and a concept
    with both as expansions of similarity 0.25: the score is 30 in exact
    arithmetic and rounds to a double below 30. *)
Definition far_chunk : Chunk :=
  {| id := 1; documentId := 1; chunkNumber := 0;
     content :=
       String.append "pump"
         (fold_right (fun _ s => String " "%char s) "seal"%string (seq 0 106)) |}.

Definition far_concept : Concept float :=
  {| terms := ["pump"%string; "seal"%string];
     originalTerms := [];
     termMetadata :=
       [ ("pump"%string, {| similarity := Num.dec 1 4; isOriginal := false |});
         ("seal"%string, {| similarity := Num.dec 1 4; isOriginal := false |}) ] |}.

Definition far_block : Block float :=
  {| topicId := 1;
     topicQuestion := "pump seal";
     spatialCategory := "auto";
     inclusionConcepts := [far_concept] |}.

(** [length] letters. *)
Definition letters (length : nat) : string :=
  fold_right (fun _ s => String "a"%char s) EmptyString (seq 0 length).

Definition fuel_score : Score float :=
  {| totalScore := Num.ofZ 100; originalTermScore := Num.ofZ 100;
     semanticScore := Num.zero; proximityScore := Num.zero;
     matchedTerms := ["fuel"%string]; matchedOriginalTerms := ["fuel"%string];
     matchCount := 1 |}.

(** A chunk of document 1, scored 100, with [length] letters of content. *)
Definition chunkOf (number : Z) (length : nat) : ScoredChunk float :=
  {| chunk := {| id := number; documentId := 1; chunkNumber := number;
                 content := letters length |};
     relevanceScore := Num.ofZ 100;
     scoreDetails := fuel_score |}.

(** One topic with fifteen chunks: fourteen of 2000 characters, in ranking
    order (not chronological), and a last one of 1250. *)
Definition fuel_topic : TopicResult float :=
  {| tr_topicId := 1;
     tr_topicQuestion := "fuel system";
     tr_chunks :=
       map (fun number => chunkOf number 2000)
           [13; 12; 11; 10; 9; 8; 7; 6; 5; 4; 3; 2; 1; 0]%Z
       ++ [chunkOf 14 1250] |}.

Definition manual (documentId : Z) : option Document :=
  Some {| doc_id := documentId; name := "manual.txt" |}.

(** Three short chunks of two documents, in ranking order. *)
Definition small_topic : TopicResult float :=
  {| tr_topicId := 1;
     tr_topicQuestion := "fuel system";
     tr_chunks :=
       [ {| chunk := {| id := 9; documentId := 2; chunkNumber := 0; content := "fuel line" |};
            relevanceScore := Num.ofZ 100; scoreDetails := fuel_score |};
         {| chunk := {| id := 5; documentId := 1; chunkNumber := 4; content := "fuel pump" |};
            relevanceScore := Num.ofZ 100; scoreDetails := fuel_score |};
         {| chunk := {| id := 2; documentId := 1; chunkNumber := 1; content := "fuel tank" |};
            relevanceScore := Num.ofZ 100; scoreDetails := fuel_score |} ] |}.

End Samples.


(* ===================================================================== *)
(** * The vocabulary of the further properties                            *)
(* ===================================================================== *)

(** ** Tokens *)

Module TokenSpec.
Import Js Vectorizer.

(** Every character of [s] is in the class [p]. *)
Fixpoint all_chars (p : ascii -> bool) (s : string) : bool :=
  match s with
  | EmptyString => true
  | String c r => p c && all_chars p r
  end.

(** The shape [[a-z][a-z0-9\-]*] of a token. *)
Definition wordShaped (s : string) : Prop :=
  exists c r, s = String c r /\ is_lower c = true /\ all_chars is_tail r = true.

(** [t] is a token found in the lowercased text [full]: a word of at least
    two characters that is no stop word and stands at its position. *)
Definition tokenAt {num} (cfg : Config num) (full : string) (t : TermOcc) : Prop :=
  2 <= String.length (term t)
  /\ array_includes (stopwords cfg) (term t) = false
  /\ wordShaped (term t)
  /\ String.substring (position t) (String.length (term t)) full = term t
  /\ type t = None.

(** [t] is a token of [text]. *)
Definition isToken {num} (cfg : Config num) (text : string) (t : TermOcc) : Prop :=
  tokenAt cfg (toLowerCase text) t.

(** [a] ends before [b] starts. *)
Definition apart (a b : TermOcc) : Prop :=
  position a + String.length (term a) <= position b.

(** A term as the tokenizer and the phrase builder make them: not empty and
    in lower case. *)
Definition plainTerm (s : string) : Prop :=
  s <> EmptyString /\ toLowerCase s = s.

End TokenSpec.

(** ** Counting co-occurrences *)

Module PairSpec.
Import Js Vectorizer.

(** The positions [i] and [j] are different and at most [w] apart. *)
Definition near (w i j : nat) : bool :=
  negb (i =? j) && (i - w <=? j) && (j <=? i + w).

(** [a] stands at [i] and [b] at [j], [i] and [j] near each other. *)
Definition meets (w : nat) (ts : list string) (a b : string) (i j : nat) : nat :=
  if String.eqb (nth i ts EmptyString) a
     && String.eqb (nth j ts EmptyString) b
     && near w i j
  then 1 else 0.

(** The number of ordered pairs of positions of the sequence [ts] at which
    [a] and [b] meet. *)
Definition pairs (w : nat) (ts : list string) (a b : string) : nat :=
  list_sum
    (map (fun i => list_sum (map (meets w ts a b i) (seq 0 (List.length ts))))
         (seq 0 (List.length ts))).

(** The number of times [t] occurs in [ts]. *)
Definition occurrences (ts : list string) (t : string) : nat :=
  count_occ string_dec ts t.

(** A map of counts every entry of which is at least 1. *)
Definition positive (v : JsMap nat) : Prop := Forall (fun e => 1 <= snd e) v.

(** The maps of a matrix are in order: no key twice, in the matrix and in
    its vectors, and no count below 1. *)
Definition goodMatrix (m : JsMap (JsMap nat)) : Prop :=
  map_wf m /\ Forall (fun e => map_wf (snd e) /\ positive (snd e)) m.

(** The sum of the frequencies of the terms [keys]. *)
Definition frequencySum (termFreq : JsMap nat) (keys : list string) : nat :=
  list_sum (map (count_of termFreq) keys).

End PairSpec.

(** ** Expansions *)

Module ExpansionSpec.
Import Js Vectorizer TokenSpec.

Section Spec.
Context {num : Type} {N : Num.Number num}.
Variable cfg : Config num.

(** The shape of an entry [expandQuery] returns: the original term, which is
    a plain term, comes first with similarity 1, at most [maxExpansions]
    terms follow, and every term has its similarity. *)
Definition wellShaped (e : Expansion num) : Prop :=
  (exists more, expandedTerms e = originalTerm e :: more)
  /\ (exists more, similarities e = Num.one :: more)
  /\ List.length (similarities e) = List.length (expandedTerms e)
  /\ List.length (expandedTerms e) <= 1 + maxExpansions cfg
  /\ plainTerm (originalTerm e).

(** The concepts the documents [documentIds] contribute to a question, in
    the order in which [expandQueryMultiDoc] merges them. *)
Definition contributions (getVectors : Z -> option CoOccurrenceIndex)
    (queryText : string) (documentIds : list Z) : list (Expansion num) :=
  flat_map (fun docId => expandQuery cfg queryText (getVectors docId)) documentIds.

(** Among the concepts [cs], one for the original term [T] gives the
    expanded term [U] the similarity [s]. *)
Definition observed (cs : list (Expansion num)) (T U : string) (s : num) : Prop :=
  exists c j, In c cs /\ originalTerm c = T
    /\ nth_error (expandedTerms c) j = Some U
    /\ nth_error (similarities c) j = Some s.

(** Among the concepts [cs], one for the original term [T] has the expanded
    term [U]. *)
Definition brings (cs : list (Expansion num)) (T U : string) : Prop :=
  exists c, In c cs /\ originalTerm c = T /\ In U (expandedTerms c).

(** ** The entries of the merge *)

Context {T : Num.Truth num}.

(** The entry a term starts with. *)
Definition freshEntry (term : string) : Merged num :=
  {| m_originalTerm := term;
     m_expandedTerms := [term];
     m_similarities := [(term, Num.one)] |}.

(** The entry [merged] after the concept [concept] is merged into it. *)
Definition mergeInto (merged : Merged num) (concept : Expansion num) : Merged num :=
  fold_left (mergeTerm (similarities concept)) (entries (expandedTerms concept)) merged.

(** The entry of the term [term] after the concept is merged into the map,
    [entry] being the one before. *)
Definition mergeEntry (term : string) (entry : option (Merged num))
    (concept : Expansion num) : option (Merged num) :=
  if String.eqb (originalTerm concept) term
  then Some (mergeInto (match entry with Some m => m | None => freshEntry term end)
                       concept)
  else entry.

(** [merged.similarities.get(U) || 0] *)
Definition valueOf (merged : Merged num) (U : string) : num :=
  Num.orDefault (map_get (m_similarities merged) U) Num.zero.

(** The similarities a concept gives to the term [U]. *)
Definition simsOf (concept : Expansion num) (U : string) : list num :=
  flat_map
    (fun entry =>
       if String.eqb (snd entry) U
       then match nth_error (similarities concept) (fst entry) with
            | Some s => [s]
            | None => []
            end
       else [])
    (entries (expandedTerms concept)).

(** The similarities the concepts for the term [term] give to [U]. *)
Definition simsFor (term : string) (cs : list (Expansion num)) (U : string) : list num :=
  flat_map (fun c => if String.eqb (originalTerm c) term then simsOf c U else []) cs.

(** An entry of the merge is in order: it carries its key, its expanded
    terms start with it and hold no term twice. *)
Definition entryInOrder (term : string) (merged : Merged num) : Prop :=
  m_originalTerm merged = term
  /\ (exists more, m_expandedTerms merged = term :: more)
  /\ NoDup (m_expandedTerms merged).

End Spec.

End ExpansionSpec.

(** ** Packing and formatting *)

Module PackingSpec.
Import Js Search.

(** [l1] is [l2] with some elements left out. *)
Inductive subsequence {A : Type} : list A -> list A -> Prop :=
| sub_nil : subsequence [] []
| sub_keep x l1 l2 : subsequence l1 l2 -> subsequence (x :: l1) (x :: l2)
| sub_drop x l1 l2 : subsequence l1 l2 -> subsequence l1 (x :: l2).

Section Spec.
Context {num : Type}.

(** The chunks of a super chunk, section after section. *)
Definition chunksOf (superChunk : SuperChunk num) : list (ScoredChunk num) :=
  flat_map (fun t => chunks t) (topics superChunk).

(** The chunks packed so far: those of the closed super chunks, of the
    sections of the super chunk being filled, and of the open section. *)
Definition packed (p : Packer num) (s : TopicSection num) : list (ScoredChunk num) :=
  flat_map chunksOf (superChunks p)
  ++ flat_map (fun t => chunks t) (currentTopics p)
  ++ chunks s.

(** The [isFirst] flags of [n] super chunks. *)
Definition firstFlags (n : nat) : list bool :=
  match n with
  | O => []
  | S k => true :: repeat false k
  end.

(** The sections of a super chunk carry their continuation marks in order:
    the first section continues a topic exactly when the super chunk is not
    the first, and no other section is a continuation. *)
Definition marked (first : bool) (sections : list (TopicSection num)) : Prop :=
  match sections with
  | [] => True
  | t :: rest =>
      isContinuation t = negb first
      /\ Forall (fun t' => isContinuation t' = false) rest
  end.

(** The marks of the packer's state are in order, [s] being the open
    section: the closed super chunks carry their [isFirst] flags and their
    continuation marks, and so does the super chunk being filled. *)
Definition marksInOrder (p : Packer num) (s : TopicSection num) : Prop :=
  map (fun sc => isFirst sc) (superChunks p) = firstFlags (List.length (superChunks p))
  /\ isFirstSuperChunk p = (List.length (superChunks p) =? 0)
  /\ Forall (fun sc => marked (isFirst sc) (topics sc)) (superChunks p)
  /\ marked (isFirstSuperChunk p) (currentTopics p ++ [s])
  /\ (isFirstSuperChunk p = false -> currentTopics p <> [] \/ chunks s <> []).

(** The same between two topics, when no section is open. *)
Definition marksBetween (p : Packer num) : Prop :=
  map (fun sc => isFirst sc) (superChunks p) = firstFlags (List.length (superChunks p))
  /\ isFirstSuperChunk p = (List.length (superChunks p) =? 0)
  /\ Forall (fun sc => marked (isFirst sc) (topics sc)) (superChunks p)
  /\ marked (isFirstSuperChunk p) (currentTopics p)
  /\ (isFirstSuperChunk p = false -> currentTopics p <> []).

(** The formatter cannot render the section: it has no chunk, or the
    document of its first chunk is not stored. *)
Definition defective (getDocument : Z -> option Document)
    (topicSection : TopicSection num) : Prop :=
  match chunks topicSection with
  | [] => True
  | firstChunk :: _ => getDocument (documentId (chunk firstChunk)) = None
  end.

(** The topic a super chunk is counted for. *)
Definition primaryTopic (superChunk : SuperChunk num) : option Z :=
  match topics superChunk with
  | [] => None
  | t :: _ => Some (sec_topicId t)
  end.

(** The super chunks of [l] counted for the topic [k]. *)
Definition countedFor (k : Z) (l : list (SuperChunk num)) : list (SuperChunk num) :=
  filter (fun sc => match primaryTopic sc with
                    | Some k' => (k' =? k)%Z
                    | None => false
                    end) l.

End Spec.

End PackingSpec.

(** ** The query as a whole *)

Module QuerySpec.
Import Js Search QueryBuilder TokenSpec.

(** A character of a word of a question that is not expanded: no white
    space, none of [?.,!], no capital letter. *)
Definition wordChar (c : ascii) : bool :=
  negb (is_space c) && negb (is_punctuation c) && negb (is_upper c).

Section Spec.
Context {num : Type} {N : Num.Number num}.

(** The concept the engine reads of a block, if it has one, has no empty
    term. *)
Definition scorable (block : Block num) : Prop :=
  match inclusionConcepts block with
  | [] => True
  | concept :: _ => Forall (fun t => t <> EmptyString) (terms concept)
  end.

(** Scoring the chunk for the block does not end. *)
Definition hangs (cfg : ScoringConfig num) (block : Block num) (chunk : Chunk) : Prop :=
  exists concept rest,
    inclusionConcepts block = concept :: rest
    /\ scoreChunk cfg chunk concept = None.

End Spec.

End QuerySpec.

(** ** Sample inputs of the query as a whole *)

Module QuerySamples.
Import Js Vectorizer Search QueryBuilder Samples.

(** Three chunks of document 1. *)
Definition pump_chunks : list Chunk :=
  [ {| id := 1; documentId := 1; chunkNumber := 0;
       content := "The fuel pump feeds the fuel line." |};
    {| id := 2; documentId := 1; chunkNumber := 1;
       content := "Clean the pump line every season." |};
    {| id := 3; documentId := 1; chunkNumber := 2;
       content := "Store the manual in a dry place." |} ].

(** A store with document 1 and its chunks. *)
Definition pump_store : Store :=
  {| getChunksByDocument :=
       fun documentId => if (documentId =? 1)%Z then pump_chunks else [];
     getChunksByCollection := fun _ => [];
     getDocument := manual |}.

(** The chunks of document 1 without the document. *)
Definition bare_store : Store :=
  {| getChunksByDocument :=
       fun documentId => if (documentId =? 1)%Z then pump_chunks else [];
     getChunksByCollection := fun _ => [];
     getDocument := fun _ => None |}.

(** The index of document 1 is stored, that of no other document is. *)
Definition pump_vectors (documentId : Z) : option CoOccurrenceIndex :=
  if (documentId =? 1)%Z
  then Some (buildCoOccurrenceMatrix (CONFIG (num:=float)) tie_text)
  else None.

(** A query with one topic over the documents 1 and 2. *)
Definition pump_query : Query float :=
  {| q_maxCharsPerSuperChunk := 30000;
     q_sourceType := "documents";
     q_documentIds := [1; 2]%Z;
     q_collectionId := None;
     q_limitSuperChunks := true;
     q_maxSuperChunksPerTopic := 3;
     q_topics :=
       [ {| t_topicId := 1;
            question := "How does the fuel pump work?";
            t_spatialCategory := "auto";
            expandedConcepts := None |} ];
     q_vectorizationApplied := false |}.

(** The query the engine receives when the vectorization is enabled. *)
Definition pump_search : SearchQuery float :=
  convertToSearchFormat
    (expandQueryTopics CONFIG pump_vectors (fun _ => []) true pump_query).

(** The query of [pump_query] with document 1 named twice. *)
Definition twice_query : Query float :=
  {| q_maxCharsPerSuperChunk := 30000;
     q_sourceType := "documents";
     q_documentIds := [1; 1]%Z;
     q_collectionId := None;
     q_limitSuperChunks := true;
     q_maxSuperChunksPerTopic := 3;
     q_topics :=
       [ {| t_topicId := 1;
            question := "How does the fuel pump work?";
            t_spatialCategory := "auto";
            expandedConcepts := None |} ];
     q_vectorizationApplied := false |}.

Definition twice_search : SearchQuery float :=
  convertToSearchFormat
    (expandQueryTopics CONFIG pump_vectors (fun _ => []) true twice_query).

End QuerySamples.

(** ** The store of the vectors *)

Module StorageSpec.
Import Js Vectorizer InvantiaDB.

(** The first character of [s] is a small letter. *)
Definition startsLower (s : string) : Prop :=
  exists c r, s = String c r /\ is_lower c = true.

(** A map no key of which stands twice or is an array index. *)
Definition plainKeys {V} (m : JsMap V) : Prop :=
  map_wf m /\ Forall (fun k => array_index k = None) (map_keys m).

(** An index all maps of which have such keys. *)
Definition storable (vectorData : CoOccurrenceIndex) : Prop :=
  plainKeys (matrix vectorData)
  /\ Forall (fun entry => plainKeys (snd entry)) (matrix vectorData)
  /\ plainKeys (termFrequencies vectorData).

(** A small index. *)
Definition small_index : CoOccurrenceIndex :=
  {| matrix := [ ("pump"%string, [("fuel"%string, 2)]);
                 ("fuel"%string, [("pump"%string, 2)]) ];
     termFrequencies := [("pump"%string, 2); ("fuel"%string, 2); ("valve"%string, 1)];
     totalTerms := 4 |}.

End StorageSpec.


(* ===================================================================== *)
(** * Facts about the JavaScript values                                   *)
(* ===================================================================== *)

Module JsFacts.
Import Js Order.

(** ** Order of appearance in a list *)

Lemma precedes_cons {A} (l : list A) x a b :
  precedes l a b -> precedes (x :: l) a b.
Proof.
  intros (l1 & l2 & l3 & ->). now exists (x :: l1), l2, l3.
Qed.

Lemma precedes_head {A} (l : list A) a b :
  In b l -> precedes (a :: l) a b.
Proof.
  intros Hb. apply in_split in Hb as (l2 & l3 & ->). now exists [], l2, l3.
Qed.

Lemma precedes_inv {A} (l : list A) x a b :
  precedes (x :: l) a b -> (x = a /\ In b l) \/ precedes l a b.
Proof.
  intros (l1 & l2 & l3 & E). destruct l1 as [|y l1]; simpl in E.
  - injection E as -> ->. left. split; [reflexivity|].
    apply in_or_app. right. now left.
  - injection E as -> ->. right. now exists l1, l2, l3.
Qed.

Lemma precedes_in {A} (l : list A) a b :
  precedes l a b -> In a l /\ In b l.
Proof.
  intros (l1 & l2 & l3 & ->). split.
  - apply in_or_app. right. now left.
  - apply in_or_app. right. right. apply in_or_app. right. now left.
Qed.

Lemma precedes_app_l {A} (l l' : list A) a b :
  precedes l a b -> precedes (l ++ l') a b.
Proof.
  intros (l1 & l2 & l3 & ->). exists l1, l2, (l3 ++ l').
  now rewrite <- !app_assoc, <- !app_comm_cons, <- app_assoc.
Qed.

Lemma precedes_firstn {A} n (l : list A) a b :
  precedes (firstn n l) a b -> precedes l a b.
Proof.
  intros H. rewrite <- (firstn_skipn n l). now apply precedes_app_l.
Qed.

Lemma precedes_filter {A} (p : A -> bool) (l : list A) a b :
  precedes (filter p l) a b -> precedes l a b.
Proof.
  induction l as [|x l IH]; simpl.
  - intros (l1 & l2 & l3 & E). now destruct l1.
  - destruct (p x) eqn:Px.
    + intros H. apply precedes_inv in H as [[-> Hb] | H].
      * apply precedes_head. apply filter_In in Hb. tauto.
      * apply precedes_cons. auto.
    + intros H. apply precedes_cons. auto.
Qed.

Lemma filter_precedes {A} (p : A -> bool) (l : list A) a b :
  precedes l a b -> p a = true -> p b = true -> precedes (filter p l) a b.
Proof.
  intros (l1 & l2 & l3 & ->) Pa Pb.
  rewrite filter_app. simpl. rewrite Pa, filter_app. simpl. rewrite Pb.
  now exists (filter p l1), (filter p l2), (filter p l3).
Qed.

Lemma precedes_map {A B} (f : A -> B) (l : list A) a b :
  precedes l a b -> precedes (map f l) (f a) (f b).
Proof.
  intros (l1 & l2 & l3 & ->).
  exists (map f l1), (map f l2), (map f l3).
  now rewrite map_app, map_cons, map_app, map_cons.
Qed.

Lemma in_firstn {A} n (l : list A) x : In x (firstn n l) -> In x l.
Proof.
  intros H. rewrite <- (firstn_skipn n l). apply in_or_app. now left.
Qed.

Lemma StronglySorted_impl {A} (R R' : A -> A -> Prop) (l : list A) :
  (forall a b, R a b -> R' a b) -> StronglySorted R l -> StronglySorted R' l.
Proof.
  intros HR. induction 1 as [|x l _ IH Hx]; constructor; [exact IH|].
  eapply Forall_impl; [|exact Hx]. intros y. apply HR.
Qed.

Lemma StronglySorted_impl_on {A} (ok : A -> Prop) (R R' : A -> A -> Prop) (l : list A) :
  (forall a b, ok a -> ok b -> R a b -> R' a b) ->
  Forall ok l -> StronglySorted R l -> StronglySorted R' l.
Proof.
  intros HR Hok. induction 1 as [|x l _ IH Hx]; constructor.
  - apply IH. now inversion Hok.
  - inversion Hok as [|? ? Ox Ol]; subst. rewrite Forall_forall in *.
    intros y Hy. apply HR; auto.
Qed.

(** ** The stable sort *)

Section SortFacts.
Variable A : Type.
Variable after : A -> A -> bool.

Lemma insert_perm (x : A) (l : list A) : Permutation (insert after x l) (x :: l).
Proof.
  induction l as [|y l IH]; simpl; [reflexivity|].
  destruct (after x y); [|reflexivity].
  rewrite IH. apply perm_swap.
Qed.

Lemma sort_perm (l : list A) : Permutation (sort after l) l.
Proof.
  induction l as [|x l IH]; simpl; [reflexivity|].
  rewrite insert_perm. now constructor.
Qed.

Lemma sort_in (l : list A) (x : A) : In x (sort after l) <-> In x l.
Proof.
  split; apply Permutation_in; [|symmetry]; apply sort_perm.
Qed.

Lemma sort_length (l : list A) : List.length (sort after l) = List.length l.
Proof. apply Permutation_length, sort_perm. Qed.

Hypothesis after_asym : forall a b, after a b = true -> after b a = false.
Hypothesis inorder_trans :
  forall a b c, after a b = false -> after b c = false -> after a c = false.

Lemma insert_sorted (x : A) (l : list A) :
  StronglySorted (inorder after) l -> StronglySorted (inorder after) (insert after x l).
Proof.
  induction 1 as [|y l Hl IH Hy]; simpl.
  - repeat constructor.
  - destruct (after x y) eqn:E.
    + constructor; [exact IH|].
      apply Forall_forall. intros z Hz.
      apply (Permutation_in _ (insert_perm x l)) in Hz as [<- | Hz].
      * now apply after_asym.
      * rewrite Forall_forall in Hy. now apply Hy.
    + constructor; [now constructor|].
      constructor; [exact E|].
      eapply Forall_impl; [|exact Hy].
      intros z Hz. now apply inorder_trans with y.
Qed.

Lemma sort_sorted (l : list A) : StronglySorted (inorder after) (sort after l).
Proof.
  induction l as [|x l IH]; simpl; [constructor|].
  now apply insert_sorted.
Qed.

End SortFacts.

(** The same for a comparator that is an order on the elements [ok] only,
    such as the numbers among the doubles. *)
Section SortOn.
Variable A : Type.
Variable after : A -> A -> bool.
Variable ok : A -> Prop.

Hypothesis after_asym_on :
  forall a b, ok a -> ok b -> after a b = true -> after b a = false.
Hypothesis inorder_trans_on :
  forall a b c, ok a -> ok b -> ok c ->
    after a b = false -> after b c = false -> after a c = false.

Lemma insert_sorted_on (x : A) (l : list A) :
  ok x -> Forall ok l ->
  StronglySorted (inorder after) l -> StronglySorted (inorder after) (insert after x l).
Proof.
  intros Hx Hl. induction 1 as [|y l Hs IH Hy]; simpl.
  - repeat constructor.
  - inversion Hl as [|? ? Oy Ol]; subst.
    destruct (after x y) eqn:E.
    + constructor; [now apply IH|].
      apply Forall_forall. intros z Hz.
      apply (Permutation_in _ (insert_perm after x l)) in Hz as [<- | Hz].
      * now apply after_asym_on.
      * rewrite Forall_forall in Hy. now apply Hy.
    + constructor; [now constructor|].
      constructor; [exact E|].
      apply Forall_forall. intros z Hz.
      rewrite Forall_forall in Hy, Ol.
      apply inorder_trans_on with y; auto. now apply Hy.
Qed.

Lemma sort_sorted_on (l : list A) :
  Forall ok l -> StronglySorted (inorder after) (sort after l).
Proof.
  induction 1 as [|x l Hx Hl IH]; simpl; [constructor|].
  apply insert_sorted_on; [exact Hx| |exact IH].
  apply Forall_forall. intros z Hz. apply sort_in in Hz.
  rewrite Forall_forall in Hl. auto.
Qed.

End SortOn.

Section Stability.
Variable A : Type.
Variable after : A -> A -> bool.
Variable p : A -> bool.

Lemma insert_filter (x : A) (l : list A) :
  (forall y, In y l -> p x = true -> p y = true -> after x y = false) ->
  filter p (insert after x l) = filter p (x :: l).
Proof.
  induction l as [|y l IH]; intros H; [reflexivity|].
  simpl. destruct (after x y) eqn:E; [|reflexivity].
  simpl. rewrite IH by (intros; apply H; simpl; auto).
  simpl. destruct (p x) eqn:Px, (p y) eqn:Py; try reflexivity.
  rewrite H in E; simpl; auto. discriminate.
Qed.

(** Stability: elements the comparator ties keep the order they had. *)
Lemma sort_filter (l : list A) :
  (forall x y, In x l -> In y l -> p x = true -> p y = true -> after x y = false) ->
  filter p (sort after l) = filter p l.
Proof.
  induction l as [|x l IH]; intros H; [reflexivity|].
  simpl. rewrite insert_filter.
  - simpl. rewrite IH by (intros; apply H; simpl; auto). reflexivity.
  - intros y Hy. apply sort_in in Hy. apply H; simpl; auto.
Qed.

End Stability.

(** ** Maps *)

Lemma map_get_set_same {V} (m : JsMap V) k v : map_get (map_set m k v) k = Some v.
Proof.
  induction m as [|[k' v'] m IH]; simpl.
  - now rewrite String.eqb_refl.
  - destruct (String.eqb k' k) eqn:E; simpl; rewrite E; auto.
Qed.

Lemma map_get_set_other {V} (m : JsMap V) k k' v :
  k <> k' -> map_get (map_set m k v) k' = map_get m k'.
Proof.
  intros Hk. induction m as [|[k0 v0] m IH]; simpl.
  - destruct (String.eqb k k') eqn:E; [|reflexivity].
    apply String.eqb_eq in E. contradiction.
  - destruct (String.eqb k0 k) eqn:E; simpl.
    + apply String.eqb_eq in E. subst k0.
      destruct (String.eqb k k') eqn:E'; [|reflexivity].
      apply String.eqb_eq in E'. contradiction.
    + now rewrite IH.
Qed.

Lemma map_has_set_same {V} (m : JsMap V) k v : map_has (map_set m k v) k = true.
Proof. unfold map_has. now rewrite map_get_set_same. Qed.

Lemma map_has_set_other {V} (m : JsMap V) k k' v :
  k <> k' -> map_has (map_set m k v) k' = map_has m k'.
Proof. intros. unfold map_has. now rewrite map_get_set_other. Qed.

Lemma map_get_in {V} (m : JsMap V) k v : map_get m k = Some v -> In (k, v) m.
Proof.
  induction m as [|[k' v'] m IH]; simpl; [discriminate|].
  destruct (String.eqb k' k) eqn:E.
  - apply String.eqb_eq in E. intros [= ->]. left. now subst.
  - auto.
Qed.

Lemma map_has_keys {V} (m : JsMap V) k : map_has m k = true <-> In k (map_keys m).
Proof.
  unfold map_has. induction m as [|[k' v'] m IH]; simpl.
  - split; [discriminate|tauto].
  - destruct (String.eqb k' k) eqn:E.
    + apply String.eqb_eq in E. split; auto.
    + apply String.eqb_neq in E. rewrite IH. split; [auto|]. intros [?|?]; [contradiction|auto].
Qed.

Lemma map_get_none {V} (m : JsMap V) k : ~ In k (map_keys m) -> map_get m k = None.
Proof.
  intros H. destruct (map_get m k) eqn:E; [|reflexivity].
  exfalso. apply H, map_has_keys. unfold map_has. now rewrite E.
Qed.

Lemma map_keys_set {V} (m : JsMap V) k v :
  map_keys (map_set m k v) = if map_has m k then map_keys m else map_keys m ++ [k].
Proof.
  unfold map_has. induction m as [|[k' v'] m IH]; simpl; [reflexivity|].
  destruct (String.eqb k' k) eqn:E; simpl; [reflexivity|].
  rewrite IH. now destruct (map_get m k).
Qed.

Lemma map_set_wf {V} (m : JsMap V) k v : map_wf m -> map_wf (map_set m k v).
Proof.
  unfold map_wf. rewrite map_keys_set. destruct (map_has m k) eqn:E; [auto|].
  intros H. apply NoDup_app; [exact H|repeat constructor; simpl; tauto|].
  intros x Hx [<-|[]]. apply map_has_keys in Hx. congruence.
Qed.

End JsFacts.


(* ===================================================================== *)
(** * The similarity engine in exact arithmetic                           *)
(* ===================================================================== *)

Module CosineFacts.
Import Js Order Counts JsFacts Vectorizer.

(** ** The sums as integers *)

Lemma count_of_cons (k : string) (c : nat) (vec : JsMap nat) (t : string) :
  ~ In k (map_keys vec) ->
  count_of ((k, c) :: vec) t = pick k t c + count_of vec t.
Proof.
  intros Hk. unfold count_of, pick. simpl.
  destruct (String.eqb k t) eqn:E; [|reflexivity].
  apply String.eqb_eq in E. subst t. now rewrite map_get_none.
Qed.

Lemma dotN_nil_r (vec : JsMap nat) : dotN vec [] = 0.
Proof. induction vec as [|[k c] vec IH]; simpl; [reflexivity|]. rewrite IH. unfold count_of. simpl. lia. Qed.

Lemma dotN_pick (vec : JsMap nat) (k : string) (c : nat) :
  map_wf vec ->
  fold_right (fun entry acc => snd entry * pick k (fst entry) c + acc) 0 vec
  = c * count_of vec k.
Proof.
  unfold map_wf. induction vec as [|[k' c'] vec IH]; simpl; intros Hwf.
  - unfold count_of. simpl. lia.
  - inversion Hwf as [|? ? Hk' Hwf']; subst.
    rewrite IH by assumption. unfold count_of, pick. simpl.
    rewrite String.eqb_sym.
    destruct (String.eqb k' k) eqn:E; [|lia].
    apply String.eqb_eq in E. subst k'.
    rewrite map_get_none by assumption. lia.
Qed.

Lemma dotN_cons_r (vec1 vec2 : JsMap nat) (k : string) (c : nat) :
  ~ In k (map_keys vec2) ->
  dotN vec1 ((k, c) :: vec2)
  = fold_right (fun entry acc => snd entry * pick k (fst entry) c + acc) 0 vec1
    + dotN vec1 vec2.
Proof.
  intros Hk. induction vec1 as [|[k1 c1] vec1 IH]; simpl; [reflexivity|].
  rewrite IH, count_of_cons by assumption. lia.
Qed.

(** The integer dot product does not depend on the side it is summed from. *)
Lemma dotN_comm (vec1 vec2 : JsMap nat) :
  map_wf vec1 -> map_wf vec2 -> dotN vec1 vec2 = dotN vec2 vec1.
Proof.
  intros H1 H2. revert H2. unfold map_wf in *.
  induction vec2 as [|[k c] vec2 IH]; intros H2.
  - now rewrite dotN_nil_r.
  - inversion H2 as [|? ? Hk H2']; subst.
    rewrite dotN_cons_r by assumption. simpl.
    rewrite dotN_pick by assumption. rewrite IH by assumption. reflexivity.
Qed.

(** Cauchy-Schwarz, one step: a pair [(c, y)] is added to sums that
    already satisfy the inequality. *)
Lemma cauchy_step (c y s a b : Z) :
  (0 <= c -> 0 <= y -> 0 <= s -> 0 <= a -> 0 <= b ->
   s * s <= a * b ->
   (c * y + s) * (c * y + s) <= (c * c + a) * (y * y + b))%Z.
Proof.
  intros Hc Hy Hs Ha Hb H.
  assert (Hk : (2 * (c * y) * s <= c * c * b + a * (y * y))%Z).
  { destruct (Z_le_gt_dec (2 * (c * y) * s) (c * c * b + a * (y * y))) as [|Hgt];
      [assumption|exfalso].
    set (u := (c * y)%Z) in *. set (p := (c * c * b)%Z) in *.
    set (q := (a * (y * y))%Z) in *.
    assert (Hu : (0 <= u)%Z) by (unfold u; nia).
    assert (Hp : (0 <= p)%Z) by (unfold p; nia).
    assert (Hq : (0 <= q)%Z) by (unfold q; nia).
    assert (Hpq : (p * q = u * u * (a * b))%Z) by (unfold p, q, u; ring).
    assert (Hus : (u * u * (s * s) <= p * q)%Z).
    { rewrite Hpq. apply Z.mul_le_mono_nonneg_l; nia. }
    assert (Hsq : ((p + q) * (p + q) < (2 * u * s) * (2 * u * s))%Z)
      by (apply Z.square_lt_mono_nonneg; lia).
    assert (Hamgm : (4 * (p * q) <= (p + q) * (p + q))%Z)
      by (pose proof (Z.square_nonneg (p - q)); nia).
    assert (Hexp : ((2 * u * s) * (2 * u * s) = 4 * (u * u * (s * s)))%Z) by ring.
    lia. }
  nia.
Qed.

Lemma squares_of_counts (keys : list string) (vec : JsMap nat) :
  NoDup keys ->
  fold_right (fun k acc => count_of vec k * count_of vec k + acc) 0 keys
  <= squaresN vec.
Proof.
  revert keys. induction vec as [|[k c] vec IH]; intros keys Hnd.
  - unfold count_of. simpl. clear Hnd. induction keys; simpl; lia.
  - simpl.
    assert (H : forall ks, NoDup ks ->
              fold_right (fun t acc => count_of ((k, c) :: vec) t * count_of ((k, c) :: vec) t + acc) 0 ks
              <= (if existsb (String.eqb k) ks then c * c else 0)
                 + fold_right (fun t acc => count_of vec t * count_of vec t + acc) 0 ks).
    { induction ks as [|t ks IHks]; intros Hks; simpl; [lia|].
      inversion Hks as [|? ? Ht Hks']; subst.
      specialize (IHks Hks'). unfold count_of at 1 2. simpl.
      destruct (String.eqb k t) eqn:E; simpl.
      - apply String.eqb_eq in E. subst t.
        assert (Hno : existsb (String.eqb k) ks = false).
        { destruct (existsb (String.eqb k) ks) eqn:Ex; [|reflexivity].
          apply existsb_exists in Ex as (x & Hx & Ex).
          apply String.eqb_eq in Ex. subst x. contradiction. }
        rewrite Hno in IHks. fold (count_of vec k). lia.
      - fold (count_of vec t). lia. }
    specialize (H keys Hnd). specialize (IH keys Hnd).
    destruct (existsb (String.eqb k) keys); lia.
Qed.

Lemma cauchy_schwarz_lists (vec1 : JsMap nat) (f : string -> nat) :
  let d := fold_right (fun entry acc => snd entry * f (fst entry) + acc) 0 vec1 in
  let y := fold_right (fun k acc => f k * f k + acc) 0 (map_keys vec1) in
  d * d <= squaresN vec1 * y.
Proof.
  induction vec1 as [|[k c] vec1 IH]; simpl in *; [lia|].
  set (s := fold_right (fun entry acc => snd entry * f (fst entry) + acc) 0 vec1) in *.
  set (b := fold_right (fun k0 acc => f k0 * f k0 + acc) 0 (map_keys vec1)) in *.
  set (a := squaresN vec1) in *.
  pose proof (@cauchy_step (Z.of_nat c) (Z.of_nat (f k)) (Z.of_nat s)
                (Z.of_nat a) (Z.of_nat b)) as H.
  lia.
Qed.

(** Cauchy-Schwarz for two count vectors. *)
Lemma cauchy_schwarz (vec1 vec2 : JsMap nat) :
  map_wf vec1 -> dotN vec1 vec2 * dotN vec1 vec2 <= squaresN vec1 * squaresN vec2.
Proof.
  intros H1.
  pose proof (cauchy_schwarz_lists vec1 (count_of vec2)) as H. simpl in H.
  pose proof (squares_of_counts vec2 H1) as H'.
  unfold dotN. nia.
Qed.

End CosineFacts.


(* ===================================================================== *)
(** * The order of the doubles                                            *)
(* ===================================================================== *)

Module FloatFacts.
Import FloatSpec.
Local Open Scope Z_scope.

(** ** Comparison *)

Lemma compare_cont_Eq (p q : positive) : Pos.compare_cont Eq p q = (Zpos p ?= Zpos q).
Proof. reflexivity. Qed.

(** The comparison of two numbers is the comparison of their ranks. *)
Lemma SFcompare_rank (x y : spec_float) :
  x <> S754_nan -> y <> S754_nan ->
  exists c, SFcompare x y = Some c
    /\ (c = Lt <-> lt3 (rank x) (rank y))
    /\ (c = Gt <-> lt3 (rank y) (rank x))
    /\ (c = Eq <-> rank x = rank y).
Proof.
  intros Hx Hy. unfold lt3.
  destruct x as [sx|sx| |sx mx ex], y as [sy|sy| |sy my ey]; try congruence;
    try (destruct sx); try (destruct sy); cbn [SFcompare rank fst snd];
    try (eexists; split; [reflexivity|]; repeat split; intros H;
         first [discriminate H | lia | reflexivity | (injection H; intros; lia)]).
  - rewrite compare_cont_Eq.
    destruct (Z.compare_spec ex ey) as [E | E | E];
      [destruct (Z.compare_spec (Zpos mx) (Zpos my)) as [E' | E' | E']|..];
      cbn [CompOpp];
      (eexists; split; [reflexivity|]; repeat split; intros H;
       first [discriminate H | lia | reflexivity | (injection H; intros; lia)
             | (f_equal; [f_equal|]; lia) ]).
  - rewrite compare_cont_Eq.
    destruct (Z.compare_spec ex ey) as [E | E | E];
      [destruct (Z.compare_spec (Zpos mx) (Zpos my)) as [E' | E' | E']|..];
      (eexists; split; [reflexivity|]; repeat split; intros H;
       first [discriminate H | lia | reflexivity | (injection H; intros; lia)
             | (f_equal; [f_equal|]; lia) ]).
Qed.

(** ** The number of binary digits *)

Lemma digits_succ (p : positive) : Zpos (Pos.succ p) = Zpos p + 1.
Proof. lia. Qed.

Lemma digits_bounds (p : positive) :
  2 ^ (Zpos (digits2_pos p) - 1) <= Zpos p < 2 ^ Zpos (digits2_pos p).
Proof.
  induction p as [p IH | p IH |]; cbn [digits2_pos].
  - rewrite digits_succ.
    replace (Zpos (digits2_pos p) + 1 - 1) with (Z.succ (Zpos (digits2_pos p) - 1)) by lia.
    replace (Zpos (digits2_pos p) + 1) with (Z.succ (Zpos (digits2_pos p))) by lia.
    rewrite !Z.pow_succ_r by lia. lia.
  - rewrite digits_succ.
    replace (Zpos (digits2_pos p) + 1 - 1) with (Z.succ (Zpos (digits2_pos p) - 1)) by lia.
    replace (Zpos (digits2_pos p) + 1) with (Z.succ (Zpos (digits2_pos p))) by lia.
    rewrite !Z.pow_succ_r by lia. lia.
  - cbn. lia.
Qed.

(** ** Valid doubles *)

Lemma bounded_inv (m : positive) (e : Z) :
  SpecFloat.bounded prec emax m e = true ->
  emin <= e
  /\ Zpos (digits2_pos m) <= prec
  /\ (emin < e -> Zpos (digits2_pos m) = prec).
Proof.
  unfold SpecFloat.bounded, canonical_mantissa, fexp, SpecFloat.emin, prec, emax.
  intros H. apply andb_true_iff in H as [H _]. apply Z.eqb_eq in H. lia.
Qed.

Lemma shl_align_fst (mx : positive) (ex ez : Z) :
  ez <= ex -> Zpos (fst (shl_align mx ex ez)) = Zpos mx * 2 ^ (ex - ez).
Proof.
  intros H. unfold shl_align.
  destruct (ez - ex) as [|d|d] eqn:E; cbn [fst]; try lia.
  - replace (ex - ez) with 0 by lia. lia.
  - replace (ex - ez) with (Zpos d) by lia.
    change (Pos.iter xO mx d) with (shift_pos d mx).
    rewrite shift_pos_correct, Z.pow_pos_fold. lia.
Qed.

(** Of two valid doubles of the same sign the one with the larger exponent
    is the larger in absolute value. *)
Lemma aligned_order (mx my : positive) (ex ey : Z) :
  SpecFloat.bounded prec emax mx ex = true ->
  SpecFloat.bounded prec emax my ey = true ->
  ex < ey ->
  Zpos mx * 2 ^ (ex - Z.min ex ey) < Zpos my * 2 ^ (ey - Z.min ex ey).
Proof.
  intros Hx Hy Hlt. apply bounded_inv in Hx, Hy.
  destruct Hx as (Hx1 & Hx2 & _), Hy as (Hy1 & _ & Hy3).
  rewrite Z.min_l by lia. replace (ex - ex) with 0 by lia.
  rewrite Z.pow_0_r, Z.mul_1_r.
  pose proof (digits_bounds mx) as [_ Bx]. pose proof (digits_bounds my) as [By _].
  rewrite Hy3 in By by lia.
  assert (Hp : 2 ^ Zpos (digits2_pos mx) <= 2 ^ prec) by (apply Z.pow_le_mono_r; lia).
  assert (Hq : 2 ^ 1 <= 2 ^ (ey - ex)) by (apply Z.pow_le_mono_r; lia).
  assert (Hm : 2 ^ (prec - 1) * 2 ^ 1 <= Zpos my * 2 ^ (ey - ex))
    by (apply Z.mul_le_mono_nonneg; lia).
  unfold prec in *. change (2 ^ (53 - 1) * 2 ^ 1) with (2 ^ 53) in Hm. lia.
Qed.

(** ** Rounding keeps the sign *)

Lemma iter_pos_nat {A} (f : A -> A) (n : positive) (x : A) :
  iter_pos f n x = Nat.iter (Pos.to_nat n) f x.
Proof.
  revert x. induction n as [n IH | n IH |]; intros x; cbn [iter_pos].
  - rewrite !IH, Pos2Nat.inj_xI, <- Nat.iter_add, <- Nat.iter_succ_r.
    f_equal. lia.
  - rewrite !IH, Pos2Nat.inj_xO, <- Nat.iter_add. f_equal. lia.
  - reflexivity.
Qed.

Lemma shr_iter_positive (k : nat) (m : positive) (r s : bool) :
  Z.of_nat k < Zpos (digits2_pos m) ->
  exists m', shr_m (Nat.iter k shr_1 {| shr_m := Zpos m; shr_r := r; shr_s := s |})
             = Zpos m'.
Proof.
  revert m r s. induction k as [|k IH]; intros m r s Hk; [simpl; eauto|].
  rewrite Nat.iter_succ_r.
  destruct m as [p | p |]; cbn [shr_1 digits2_pos] in *.
  - apply IH. lia.
  - apply IH. lia.
  - lia.
Qed.

Lemma shr_fexp_positive (m : positive) (e : Z) (l : location) :
  emin <= e ->
  exists mrs e' p,
    shr_fexp prec emax (Zpos m) e l = (mrs, e')
    /\ shr_m mrs = Zpos p
    /\ emin <= e'.
Proof.
  intros He. unfold shr_fexp, shr. cbn [Zdigits2].
  assert (Hn : fexp prec emax (Zpos (digits2_pos m) + e) - e
               = Z.max (Zpos (digits2_pos m) - prec) (emin - e))
    by (unfold fexp; lia).
  assert (Hrec : exists r s, shr_record_of_loc (Zpos m) l
                             = {| shr_m := Zpos m; shr_r := r; shr_s := s |})
    by (destruct l as [|[]]; cbn; eauto).
  destruct Hrec as (r & s & ->).
  destruct (fexp prec emax (Zpos (digits2_pos m) + e) - e) as [|q|q] eqn:E.
  - do 3 eexists. split; [reflexivity|]. split; [reflexivity|exact He].
  - rewrite iter_pos_nat.
    destruct (@shr_iter_positive (Pos.to_nat q) m r s) as (m' & Hm').
    { rewrite positive_nat_Z. unfold prec in *. lia. }
    do 3 eexists. split; [reflexivity|]. split; [exact Hm'|lia].
  - do 3 eexists. split; [reflexivity|]. split; [reflexivity|exact He].
Qed.

Lemma round_positive (m : positive) (l : location) :
  exists p, round_nearest_even (Zpos m) l = Zpos p.
Proof.
  destruct l as [|[]]; cbn [round_nearest_even]; [eauto|destruct (Z.even _)|eauto|];
    eexists; reflexivity.
Qed.

Lemma binary_round_aux_sign (sx : bool) (m : positive) (e : Z) (l : location) :
  emin <= e ->
  (exists m' e', binary_round_aux prec emax sx (Zpos m) e l = S754_finite sx m' e')
  \/ binary_round_aux prec emax sx (Zpos m) e l = S754_infinity sx.
Proof.
  intros He. unfold binary_round_aux.
  destruct (shr_fexp_positive m l He) as (mrs & e' & p & E & Hp & He').
  rewrite E, Hp.
  destruct (round_positive p (loc_of_shr_record mrs)) as (p' & Hr). rewrite Hr.
  destruct (shr_fexp_positive p' loc_Exact He') as (mrs2 & e2 & p2 & E2 & Hp2 & _).
  rewrite E2, Hp2. destruct (e2 <=? emax - prec); eauto.
Qed.

Lemma binary_round_sign (sx : bool) (m : positive) (e : Z) :
  emin <= e ->
  (exists m' e', binary_round prec emax sx m e = S754_finite sx m' e')
  \/ binary_round prec emax sx m e = S754_infinity sx.
Proof.
  intros He. unfold binary_round.
  destruct (shl_align m e (fexp prec emax (Zpos (digits2_pos m) + e))) as [mz ez] eqn:E.
  apply binary_round_aux_sign.
  unfold shl_align in E.
  destruct (fexp prec emax (Zpos (digits2_pos m) + e) - e) eqn:D;
    injection E as <- <-; unfold fexp in *; lia.
Qed.

(** The difference of two numbers is above zero exactly when the first is
    the larger; rounding cannot turn a difference into zero or change its
    sign. *)
Lemma SFsub_sign (x y : spec_float) :
  valid_binary x = true -> valid_binary y = true ->
  x <> S754_nan -> y <> S754_nan ->
  SFltb (S754_zero false) (SF64sub x y) = SFltb y x.
Proof.
  intros Vx Vy Hx Hy.
  destruct x as [sx|sx| |sx mx ex], y as [sy|sy| |sy my ey]; try congruence;
    try (destruct sx; destruct sy; reflexivity);
    try (destruct sx; reflexivity); try (destruct sy; reflexivity).
  cbn [valid_binary SpecFloat.valid_binary] in Vx, Vy.
  unfold SF64sub, SFsub.
  set (ez := Z.min ex ey).
  pose proof (bounded_inv _ _ Vx) as (Hex & _ & _).
  pose proof (bounded_inv _ _ Vy) as (Hey & _ & _).
  assert (Hez : emin <= ez) by (unfold ez; lia).
  assert (Hres : forall d,
            SFltb (S754_zero false) (binary_normalize prec emax d ez false) = (0 <? d)).
  { intros [|p|p]; cbn [binary_normalize]; [reflexivity| |].
    - destruct (binary_round_sign false p Hez) as [(m' & e' & ->) | ->]; reflexivity.
    - destruct (binary_round_sign true p Hez) as [(m' & e' & ->) | ->]; reflexivity. }
  rewrite Hres.
  rewrite !shl_align_fst by (unfold ez; lia).
  pose proof (@aligned_order mx my ex ey Vx Vy) as Hlt.
  pose proof (@aligned_order my mx ey ex Vy Vx) as Hgt.
  rewrite (Z.min_comm ey ex) in Hgt. fold ez in Hlt, Hgt.
  assert (Heq : ex = ey -> Zpos mx * 2 ^ (ex - ez) = Zpos mx
                           /\ Zpos my * 2 ^ (ey - ez) = Zpos my).
  { intros <-. unfold ez. rewrite Z.min_id. replace (ex - ex) with 0 by lia.
    rewrite Z.pow_0_r. lia. }
  set (X := Zpos mx * 2 ^ (ex - ez)) in *.
  set (Y := Zpos my * 2 ^ (ey - ez)) in *.
  assert (HX : 0 < X) by (unfold X; apply Z.mul_pos_pos; [lia|apply Z.pow_pos_nonneg; unfold ez; lia]).
  assert (HY : 0 < Y) by (unfold Y; apply Z.mul_pos_pos; [lia|apply Z.pow_pos_nonneg; unfold ez; lia]).
  unfold SFltb. cbn [SFcompare]. rewrite compare_cont_Eq.
  destruct sx, sy; cbn [cond_Zopp];
    try (destruct (Z.compare_spec ey ex) as [E | E | E];
         [destruct (Z.compare_spec (Zpos my) (Zpos mx)) as [E' | E' | E']|..]);
    cbn [CompOpp];
    first [apply Z.ltb_lt | apply Z.ltb_ge]; lia.
Qed.

(** ** The comparisons of the engine's numbers *)

Local Open Scope float_scope.

Lemma number_spec (x : float) : number x <-> Prim2SF x <> S754_nan.
Proof.
  unfold number. rewrite eqb_spec. unfold SFeqb. split.
  - intros H E. rewrite E in H. discriminate.
  - intros H. destruct (SFcompare_rank H H) as (c & -> & _ & _ & Hc).
    destruct c; [reflexivity| |]; discriminate (proj2 Hc eq_refl).
Qed.

Lemma compare_of (x y : float) :
  number x -> number y ->
  exists c, SFcompare (Prim2SF x) (Prim2SF y) = Some c
    /\ (c = Lt <-> lt3 (rank (Prim2SF x)) (rank (Prim2SF y)))
    /\ (c = Gt <-> lt3 (rank (Prim2SF y)) (rank (Prim2SF x)))
    /\ (c = Eq <-> rank (Prim2SF x) = rank (Prim2SF y)).
Proof. intros Hx Hy. apply SFcompare_rank; now apply number_spec. Qed.

Lemma ltb_rank (x y : float) :
  number x -> number y ->
  ((x <? y) = true <-> lt3 (rank (Prim2SF x)) (rank (Prim2SF y))).
Proof.
  intros Hx Hy. rewrite ltb_spec. unfold SFltb.
  destruct (compare_of Hx Hy) as (c & -> & H1 & _ & _).
  destruct c; split; intros H;
    first [discriminate H | reflexivity | (apply H1; reflexivity)
          | (apply H1 in H; discriminate H)].
Qed.

Lemma leb_rank (x y : float) :
  number x -> number y ->
  ((x <=? y) = true <-> ~ lt3 (rank (Prim2SF y)) (rank (Prim2SF x))).
Proof.
  intros Hx Hy. rewrite leb_spec. unfold SFleb.
  destruct (compare_of Hx Hy) as (c & -> & H1 & H2 & H3).
  destruct c; split; intros H; try discriminate H; try reflexivity.
  - intros L. apply H2 in L. discriminate L.
  - intros L. apply H2 in L. discriminate L.
  - exfalso. apply H. now apply H2.
Qed.

Lemma eqb_rank (x y : float) :
  number x -> number y ->
  ((x =? y) = true <-> rank (Prim2SF x) = rank (Prim2SF y)).
Proof.
  intros Hx Hy. rewrite eqb_spec. unfold SFeqb.
  destruct (compare_of Hx Hy) as (c & -> & _ & _ & H3).
  destruct c; split; intros H;
    first [discriminate H | reflexivity | (apply H3; reflexivity)
          | (apply H3 in H; discriminate H)].
Qed.

(** A comparison that holds compares numbers. *)
Lemma leb_number (x y : float) : (x <=? y) = true -> number x /\ number y.
Proof.
  rewrite leb_spec. unfold SFleb. intros H.
  split; apply number_spec; intros E; rewrite E in H;
    [|destruct (Prim2SF x)]; discriminate.
Qed.

Lemma eqb_number (x y : float) : (x =? y) = true -> number x /\ number y.
Proof.
  rewrite eqb_spec. unfold SFeqb. intros H.
  split; apply number_spec; intros E; rewrite E in H;
    [|destruct (Prim2SF x)]; discriminate.
Qed.

Lemma lt3_cases (a b : Z * Z * Z) : lt3 a b \/ a = b \/ lt3 b a.
Proof.
  destruct a as [[a1 a2] a3], b as [[b1 b2] b3]. unfold lt3. cbn [fst snd].
  destruct (Z.lt_trichotomy a1 b1) as [H | [H | H]]; [lia| |lia].
  destruct (Z.lt_trichotomy a2 b2) as [H2 | [H2 | H2]]; [lia| |lia].
  destruct (Z.lt_trichotomy a3 b3) as [H3 | [H3 | H3]]; [lia| |lia].
  right. left. congruence.
Qed.

Lemma lt3_irrefl (a : Z * Z * Z) : ~ lt3 a a.
Proof. unfold lt3. lia. Qed.

Lemma lt3_trans (a b c : Z * Z * Z) : lt3 a b -> lt3 b c -> lt3 a c.
Proof. unfold lt3. lia. Qed.

(** The comparator [b - a > 0] of a descending sort says [a < b]. *)
Lemma descending_float (a b : float) :
  number a -> number b ->
  Num.ltb Num.zero (Num.sub b a) = (a <? b).
Proof.
  intros Ha Hb. change (Num.ltb Num.zero (Num.sub b a)) with (0 <? b - a).
  rewrite (ltb_spec 0), sub_spec, (ltb_spec a).
  change (Prim2SF 0) with (S754_zero false).
  apply SFsub_sign; try apply Prim2SF_valid; now apply number_spec.
Qed.

Lemma ltb_asym (a b : float) :
  number a -> number b -> (a <? b) = true -> (b <? a) = false.
Proof.
  intros Ha Hb H. apply (ltb_rank Ha Hb) in H.
  destruct (b <? a) eqn:E; [|reflexivity].
  apply (ltb_rank Hb Ha) in E. exfalso.
  exact (lt3_irrefl (lt3_trans H E)).
Qed.

Lemma ltb_false_trans (a b c : float) :
  number a -> number b -> number c ->
  (a <? b) = false -> (b <? c) = false -> (a <? c) = false.
Proof.
  intros Ha Hb Hc H1 H2.
  destruct (a <? c) eqn:E; [|reflexivity].
  apply (ltb_rank Ha Hc) in E. exfalso.
  destruct (lt3_cases (rank (Prim2SF a)) (rank (Prim2SF b))) as [L | [L | L]].
  - apply (ltb_rank Ha Hb) in L. congruence.
  - rewrite L in E. apply (ltb_rank Hb Hc) in E. congruence.
  - assert (Hbc : (b <? c) = true)
      by (apply (ltb_rank Hb Hc); exact (lt3_trans L E)).
    congruence.
Qed.

Lemma ltb_false_leb (a b : float) :
  number a -> number b -> (a <? b) = false -> (b <=? a) = true.
Proof.
  intros Ha Hb H. apply (leb_rank Hb Ha). intros L.
  apply (ltb_rank Ha Hb) in L. congruence.
Qed.

(** Numbers equal to the same number are not below one another. *)
Lemma eqb_ltb_false (a x y : float) :
  (x =? a) = true -> (y =? a) = true -> (x <? y) = false.
Proof.
  intros Hx Hy.
  destruct (eqb_number Hx) as [Nx Na], (eqb_number Hy) as [Ny _].
  apply (eqb_rank Nx Na) in Hx. apply (eqb_rank Ny Na) in Hy.
  destruct (x <? y) eqn:E; [|reflexivity].
  apply (ltb_rank Nx Ny) in E. rewrite Hx, Hy in E.
  now destruct (lt3_irrefl E).
Qed.

Lemma eqb_sym_float (a b : float) : (a =? b) = true -> (b =? a) = true.
Proof.
  intros H. destruct (eqb_number H) as [Na Nb].
  apply (eqb_rank Nb Na). symmetry. now apply (eqb_rank Na Nb).
Qed.

End FloatFacts.


Module ExactFacts.
Import Js Order Counts JsFacts Vectorizer CosineFacts.
Local Open Scope R_scope.

(** ** Comparisons of real numbers *)

Lemma Rleb_true (x y : R) : Num.Rleb x y = true <-> x <= y.
Proof. unfold Num.Rleb. destruct (Rle_dec x y); split; auto; discriminate. Qed.

Lemma Rltb_true (x y : R) : Num.Rltb x y = true <-> x < y.
Proof. unfold Num.Rltb. destruct (Rlt_dec x y); split; auto; discriminate. Qed.

Lemma Rltb_false (x y : R) : Num.Rltb x y = false <-> y <= x.
Proof.
  unfold Num.Rltb. destruct (Rlt_dec x y); split; auto; try discriminate; lra.
Qed.

Lemma Reqb_true (x y : R) : Num.Reqb x y = true <-> x = y.
Proof. unfold Num.Reqb. destruct (Req_dec_T x y); split; auto; discriminate. Qed.

Lemma Reqb_false (x y : R) : Num.Reqb x y = false <-> x <> y.
Proof. unfold Num.Reqb. destruct (Req_dec_T x y); split; auto; try discriminate; tauto. Qed.

(** The comparator [b - a > 0] of a descending sort. *)
Lemma descending_true (a b : R) : Num.ltb Num.zero (Num.sub b a) = true <-> a < b.
Proof. unfold Num.zero. cbn. rewrite Rltb_true. lra. Qed.

Lemma descending_false (a b : R) : Num.ltb Num.zero (Num.sub b a) = false <-> b <= a.
Proof. unfold Num.zero. cbn. rewrite Rltb_false. lra. Qed.

(** ** The sums of the code are the integer sums *)

Lemma natR_add (a b : nat) : natR (a + b) = natR a + natR b.
Proof. unfold natR. now rewrite Nat2Z.inj_add, plus_IZR. Qed.

Lemma natR_mul (a b : nat) : natR (a * b) = natR a * natR b.
Proof. unfold natR. now rewrite Nat2Z.inj_mul, mult_IZR. Qed.

Lemma natR_nonneg (a : nat) : 0 <= natR a.
Proof. unfold natR. apply IZR_le. lia. Qed.

Lemma natR_le (a b : nat) : (a <= b)%nat -> natR a <= natR b.
Proof. intros. unfold natR. apply IZR_le. lia. Qed.

Lemma dotProduct_exact (vec1 vec2 : JsMap nat) :
  dotProduct (N:=Num.Exact) vec1 vec2 = natR (dotN vec1 vec2).
Proof.
  unfold dotProduct.
  assert (H : forall acc,
    fold_left
      (fun acc entry =>
         let '(term, count1) := entry in
         if map_has vec2 term
         then Num.add acc (Num.mul (Num.ofNat count1) (Num.ofNat (count_of vec2 term)))
         else acc) vec1 acc
    = acc + natR (dotN vec1 vec2)).
  { induction vec1 as [|[k c] vec1 IH]; intros acc; simpl.
    - unfold natR. simpl. lra.
    - rewrite IH, natR_add, natR_mul. unfold Num.ofNat. cbn. fold (natR c).
      destruct (map_has vec2 k) eqn:E.
      + fold (natR (count_of vec2 k)). lra.
      + unfold map_has in E. unfold count_of.
        destruct (map_get vec2 k); [discriminate|]. unfold natR. simpl. lra. }
  rewrite H. unfold Num.zero. cbn. lra.
Qed.

Lemma sumSquares_exact (vec : JsMap nat) :
  sumSquares (N:=Num.Exact) vec = natR (squaresN vec).
Proof.
  unfold sumSquares.
  assert (H : forall acc,
    fold_left
      (fun acc entry =>
         Num.add acc (Num.mul (Num.ofNat (snd entry)) (Num.ofNat (snd entry))))
      vec acc
    = acc + natR (squaresN vec)).
  { induction vec as [|[k c] vec IH]; intros acc; simpl.
    - unfold natR. simpl. lra.
    - rewrite IH, natR_add, natR_mul. unfold Num.ofNat. cbn. fold (natR c). lra. }
  rewrite H. unfold Num.zero. cbn. lra.
Qed.

(** The value of the cosine in exact arithmetic. *)
Lemma cosine_exact (vec1 vec2 : JsMap nat) :
  cosineSimilarity (N:=Num.Exact) (Some vec1) (Some vec2)
  = if (List.length vec1 =? 0)%nat || (List.length vec2 =? 0)%nat then 0
    else if Num.Reqb (R_sqrt.sqrt (natR (squaresN vec1))) 0
            || Num.Reqb (R_sqrt.sqrt (natR (squaresN vec2))) 0 then 0
    else natR (dotN vec1 vec2)
         / (R_sqrt.sqrt (natR (squaresN vec1)) * R_sqrt.sqrt (natR (squaresN vec2))).
Proof.
  unfold cosineSimilarity.
  rewrite dotProduct_exact, !sumSquares_exact. reflexivity.
Qed.

Lemma dot_le_magnitudes (vec1 vec2 : JsMap nat) :
  map_wf vec1 ->
  natR (dotN vec1 vec2)
  <= R_sqrt.sqrt (natR (squaresN vec1)) * R_sqrt.sqrt (natR (squaresN vec2)).
Proof.
  intros H1. rewrite <- sqrt_mult by apply natR_nonneg.
  rewrite <- (sqrt_square (natR (dotN vec1 vec2))) by apply natR_nonneg.
  apply sqrt_le_1_alt. rewrite <- !natR_mul. apply natR_le.
  now apply cauchy_schwarz.
Qed.

End ExactFacts.

Module VectorizerTheorems.
Import Js Order Counts IndexSpec FloatSpec Samples JsFacts Vectorizer CosineFacts ExactFacts.
Import FloatFacts.
Local Open Scope R_scope.

(** C9, as stated, fails on the doubles the engine computes with: the cosine
    of the vector [{a: 1, b: 1, c: 1}] with itself is
    [3 / (sqrt 3 * sqrt 3) = 1.0000000000000002], above 1. *)
Lemma cosine_double_exceeds_one :
  cosineSimilarity (N:=Num.Float64) (Some three_ones) (Some three_ones)
    = 0x1.0000000000001p+0%float
  /\ Num.ltb (Num.one : float)
       (cosineSimilarity (N:=Num.Float64) (Some three_ones) (Some three_ones))
     = true.
Proof. split; vm_compute; reflexivity. Qed.

(** On any arithmetic, doubles included: the cosine is 0 as soon as a
    vector is empty or the test [mag === 0] succeeds for it. *)
Lemma cosine_zero_when_degenerate {num} {N : Num.Number num} (vec1 vec2 : JsMap nat) :
  vec1 = [] \/ vec2 = []
  \/ Num.eqb (Num.sqrt (sumSquares vec1)) Num.zero = true
  \/ Num.eqb (Num.sqrt (sumSquares vec2)) Num.zero = true ->
  cosineSimilarity (Some vec1) (Some vec2) = Num.zero.
Proof.
  intros H. unfold cosineSimilarity.
  destruct H as [-> | [-> | [H | H]]].
  - reflexivity.
  - simpl. now rewrite orb_true_r.
  - destruct ((List.length vec1 =? 0)%nat || (List.length vec2 =? 0)%nat); [reflexivity|].
    now rewrite H.
  - destruct ((List.length vec1 =? 0)%nat || (List.length vec2 =? 0)%nat); [reflexivity|].
    rewrite H. now rewrite orb_true_r.
Qed.

(** C9, amended: computed in exact arithmetic, the cosine of two count
    vectors lies in [0, 1], and it is 0 whenever one of the vectors is empty
    or has magnitude zero. *)
Theorem cosine_exact_bounds (vec1 vec2 : JsMap nat) :
  map_wf vec1 -> map_wf vec2 ->
  0 <= cosineSimilarity (N:=Num.Exact) (Some vec1) (Some vec2) <= 1
  /\ (vec1 = [] \/ vec2 = []
      \/ Num.sqrt (sumSquares (N:=Num.Exact) vec1) = 0
      \/ Num.sqrt (sumSquares (N:=Num.Exact) vec2) = 0 ->
      cosineSimilarity (N:=Num.Exact) (Some vec1) (Some vec2) = 0).
Proof.
  intros H1 _. split.
  - rewrite cosine_exact.
    destruct ((List.length vec1 =? 0)%nat || (List.length vec2 =? 0)%nat); [lra|].
    destruct (Num.Reqb (R_sqrt.sqrt (natR (squaresN vec1))) 0) eqn:E1; [simpl; lra|].
    destruct (Num.Reqb (R_sqrt.sqrt (natR (squaresN vec2))) 0) eqn:E2; [simpl; lra|].
    simpl. apply Reqb_false in E1, E2.
    pose proof (sqrt_pos (natR (squaresN vec1))) as P1.
    pose proof (sqrt_pos (natR (squaresN vec2))) as P2.
    assert (Hm : 0 < R_sqrt.sqrt (natR (squaresN vec1)) * R_sqrt.sqrt (natR (squaresN vec2)))
      by (apply Rmult_lt_0_compat; lra).
    pose proof (dot_le_magnitudes vec2 H1) as Hd.
    pose proof (natR_nonneg (dotN vec1 vec2)) as Hn.
    split.
    + apply Rmult_le_pos; [exact Hn|]. left. now apply Rinv_0_lt_compat.
    + apply Rmult_le_reg_r with (R_sqrt.sqrt (natR (squaresN vec1)) * R_sqrt.sqrt (natR (squaresN vec2)));
        [exact Hm|].
      unfold Rdiv. rewrite Rmult_assoc, Rinv_l by lra. lra.
  - intros H. unfold cosineSimilarity.
    destruct H as [-> | [-> | [H | H]]].
    + reflexivity.
    + simpl. now rewrite orb_true_r.
    + destruct ((List.length vec1 =? 0)%nat || (List.length vec2 =? 0)%nat); [reflexivity|].
      rewrite H. unfold Num.zero. cbn.
      replace (Num.Reqb 0 0) with true by (symmetry; now apply Reqb_true).
      reflexivity.
    + destruct ((List.length vec1 =? 0)%nat || (List.length vec2 =? 0)%nat); [reflexivity|].
      rewrite H. unfold Num.zero. cbn.
      replace (Num.Reqb 0 0) with true by (symmetry; now apply Reqb_true).
      now rewrite orb_true_r.
Qed.

Lemma fuel_vector_wf : map_wf fuel_vector.
Proof. unfold map_wf. simpl. repeat constructor; simpl; intuition discriminate. Qed.

Lemma pump_vector_wf : map_wf pump_vector.
Proof. unfold map_wf. simpl. repeat constructor; simpl; intuition discriminate. Qed.

Lemma cosine_exact_bounds_witness :
  0 <= cosineSimilarity (N:=Num.Exact) (Some fuel_vector) (Some pump_vector) <= 1
  /\ (fuel_vector = [] \/ pump_vector = []
      \/ Num.sqrt (sumSquares (N:=Num.Exact) fuel_vector) = 0
      \/ Num.sqrt (sumSquares (N:=Num.Exact) pump_vector) = 0 ->
      cosineSimilarity (N:=Num.Exact) (Some fuel_vector) (Some pump_vector) = 0).
Proof. exact (cosine_exact_bounds fuel_vector_wf pump_vector_wf). Defined.

(** C10, amended: in exact arithmetic the cosine of two count vectors with
    one entry per key is commutative. *)
Theorem cosine_commutative (vec1 vec2 : JsMap nat) :
  map_wf vec1 -> map_wf vec2 ->
  cosineSimilarity (N:=Num.Exact) (Some vec1) (Some vec2)
  = cosineSimilarity (N:=Num.Exact) (Some vec2) (Some vec1).
Proof.
  intros H1 H2. rewrite !cosine_exact.
  rewrite (orb_comm (List.length vec2 =? 0)%nat).
  rewrite (orb_comm (Num.Reqb (R_sqrt.sqrt (natR (squaresN vec2))) 0)).
  rewrite (dotN_comm H1 H2).
  now rewrite (Rmult_comm (R_sqrt.sqrt (natR (squaresN vec2)))).
Qed.

Lemma cosine_commutative_witness :
  cosineSimilarity (N:=Num.Exact) (Some fuel_vector) (Some pump_vector)
  = cosineSimilarity (N:=Num.Exact) (Some pump_vector) (Some fuel_vector).
Proof. exact (cosine_commutative fuel_vector_wf pump_vector_wf). Defined.

(** C10, as stated, fails on doubles: the dot product is summed in the order
    of the first vector, [2^53 + 1 + 1] one way, which stays [2^53], and
    [1 + 1 + 2^53] the other way, which is [2^53 + 2], so that the two
    cosines differ. *)
Lemma cosine_double_not_commutative :
  cosineSimilarity (N:=Num.Float64) (Some heavy_vector) (Some light_vector)
    = 0x1.279a74590331dp-1%float
  /\ cosineSimilarity (N:=Num.Float64) (Some light_vector) (Some heavy_vector)
    = 0x1.279a74590331ep-1%float
  /\ Num.eqb
       (cosineSimilarity (N:=Num.Float64) (Some heavy_vector) (Some light_vector))
       (cosineSimilarity (N:=Num.Float64) (Some light_vector) (Some heavy_vector))
     = false.
Proof.
  unfold heavy_vector.
  generalize (Z2Nat.id (2 ^ 53) ltac:(lia)).
  generalize (Z.to_nat (2 ^ 53)). intros n Hn.
  assert (Hf : Num.ofNat (num:=float) n = 0x1p+53%float)
    by (unfold Num.ofNat; rewrite Hn; vm_compute; reflexivity).
  assert (H1 : cosineSimilarity (N:=Num.Float64)
                 (Some [("a"%string, n); ("b"%string, 1%nat); ("c"%string, 1%nat)])
                 (Some light_vector)
               = 0x1.279a74590331dp-1%float).
  { unfold cosineSimilarity, dotProduct, sumSquares, light_vector.
    cbn [List.length Nat.eqb orb fold_left snd]. cbv beta iota zeta.
    change (map_has _ "a") with true. change (map_has _ "b") with true.
    change (map_has _ "c") with true.
    change (count_of _ "a") with 1%nat. change (count_of _ "b") with 1%nat.
    change (count_of _ "c") with 1%nat.
    cbv beta iota. rewrite !Hf. vm_compute. reflexivity. }
  assert (H2 : cosineSimilarity (N:=Num.Float64) (Some light_vector)
                 (Some [("a"%string, n); ("b"%string, 1%nat); ("c"%string, 1%nat)])
               = 0x1.279a74590331ep-1%float).
  { unfold cosineSimilarity, dotProduct, sumSquares, light_vector.
    cbn [List.length Nat.eqb orb fold_left snd]. cbv beta iota zeta.
    change (map_has _ "a") with true. change (map_has _ "b") with true.
    change (map_has _ "c") with true.
    change (count_of _ "a") with n. change (count_of _ "b") with 1%nat.
    change (count_of _ "c") with 1%nat.
    cbv beta iota. rewrite !Hf. vm_compute. reflexivity. }
  split; [exact H1|]. split; [exact H2|].
  refine (eq_trans (f_equal2 Num.eqb H1 H2) _). vm_compute. reflexivity.
Qed.

(** ** Top-K similar terms *)

Section TopK.
Context {num : Type} {N : Num.Number num}.
Variable cfg : Config num.

Lemma candidates_flat_map queryTerm queryVector (m : JsMap (JsMap nat)) :
  candidates cfg queryTerm queryVector m
  = flat_map (candidate cfg queryTerm queryVector) m.
Proof.
  unfold candidates.
  assert (H : forall acc,
    fold_left
      (fun similarities entry =>
         let '(term, termVector) := entry in
         if String.eqb term queryTerm then similarities
         else
           let similarity := cosineSimilarity (Some queryVector) (Some termVector) in
           if Num.leb (minSimilarity cfg) similarity
           then similarities ++ [ {| sim_term := term; similarity := similarity |} ]
           else similarities) m acc
    = acc ++ flat_map (candidate cfg queryTerm queryVector) m).
  { induction m as [|[k v] m IH]; intros acc; simpl.
    - now rewrite app_nil_r.
    - rewrite IH. unfold candidate at 2. simpl.
      destruct (String.eqb k queryTerm); [reflexivity|]. cbv zeta.
      destruct (Num.leb _ _); [|reflexivity].
      now rewrite <- app_assoc. }
  now rewrite H.
Qed.

Lemma candidate_inv queryTerm queryVector entry u :
  In u (candidate cfg queryTerm queryVector entry) ->
  sim_term u = fst entry
  /\ fst entry <> queryTerm
  /\ similarity u = cosineSimilarity (Some queryVector) (Some (snd entry))
  /\ Num.leb (minSimilarity cfg) (similarity u) = true.
Proof.
  unfold candidate. destruct (String.eqb (fst entry) queryTerm) eqn:E; [intros []|].
  apply String.eqb_neq in E. cbv zeta.
  destruct (Num.leb _ _) eqn:L; [|intros []].
  intros [<- | []]. simpl. repeat split; auto.
Qed.

Lemma precedes_candidates queryTerm queryVector (m : JsMap (JsMap nat)) a b :
  precedes (flat_map (candidate cfg queryTerm queryVector) m) a b ->
  precedes (map_keys m) (sim_term a) (sim_term b).
Proof.
  induction m as [|entry m IH]; simpl.
  - intros (l1 & l2 & l3 & E). now destruct l1.
  - intros H.
    assert (Hsingle : candidate cfg queryTerm queryVector entry = []
                      \/ exists u, candidate cfg queryTerm queryVector entry = [u]).
    { unfold candidate. destruct (String.eqb _ _); [now left|]. cbv zeta.
      destruct (Num.leb _ _); [right; eauto|now left]. }
    destruct Hsingle as [E | (u & E)]; rewrite E in H; simpl in H.
    + apply precedes_cons. auto.
    + apply precedes_inv in H as [[-> Hb] | H].
      * assert (Hu : In a (candidate cfg queryTerm queryVector entry))
          by (rewrite E; now left).
        apply candidate_inv in Hu as (-> & _).
        apply precedes_head.
        apply in_flat_map in Hb as (entry' & Hin & Hb).
        apply candidate_inv in Hb as (-> & _).
        now apply in_map.
      * apply precedes_cons. auto.
Qed.

End TopK.

Lemma StronglySorted_firstn {A} (R : A -> A -> Prop) n (l : list A) :
  StronglySorted R l -> StronglySorted R (firstn n l).
Proof.
  revert n. induction l as [|x l IH]; intros [|n] H; simpl; try constructor.
  - apply IH. now inversion H.
  - inversion H as [|? ? _ Hx]; subst.
    rewrite Forall_forall in *. intros y Hy. apply Hx.
    rewrite <- (firstn_skipn n l). apply in_or_app. now left.
Qed.

(** The comparator of [findSimilarTerms] on doubles that are numbers. *)
Lemma bySimilarityDesc_float (a b : Similar float) :
  number (similarity a) -> number (similarity b) ->
  bySimilarityDesc a b = PrimFloat.ltb (similarity a) (similarity b).
Proof. intros Ha Hb. unfold bySimilarityDesc. now apply descending_float. Qed.

(** C4, amended: on the doubles the code computes with,
    [findSimilarTerms(T, index, K)] returns at most [K] terms; every
    returned term differs from [T] (compared in lower case, as the code
    does), is a term of the matrix and carries the cosine similarity to [T]
    that the code computes, which passes the test [>= minSimilarity]; the
    list is in descending order of similarity; and two returned terms of
    equal similarity stand in the iteration (insertion) order of the matrix,
    not in lexicographic order. *)
Theorem findSimilarTerms_order (cfg : Config float) (queryTerm : string)
    (data : CoOccurrenceIndex) (maxResults : nat) :
  let result := findSimilarTerms cfg queryTerm data maxResults in
  (List.length result <= maxResults)%nat
  /\ (forall u, In u result ->
        sim_term u <> toLowerCase queryTerm
        /\ Num.leb (minSimilarity cfg) (similarity u) = true
        /\ exists queryVector termVector,
             map_get (matrix data) (toLowerCase queryTerm) = Some queryVector
             /\ In (sim_term u, termVector) (matrix data)
             /\ similarity u
                = cosineSimilarity (Some queryVector) (Some termVector))
  /\ StronglySorted (fun a b => Num.leb (similarity b) (similarity a) = true) result
  /\ (forall a b, precedes result a b ->
        Num.eqb (similarity a) (similarity b) = true ->
        precedes (map_keys (matrix data)) (sim_term a) (sim_term b)).
Proof.
  intros result. subst result. unfold findSimilarTerms.
  destruct (map_get (matrix data) (toLowerCase queryTerm)) as [queryVector|] eqn:Q.
  2:{ simpl. split; [|split; [|split]].
      - lia.
      - intros u [].
      - constructor.
      - intros a b (l1 & l2 & l3 & E). now destruct l1. }
  rewrite candidates_flat_map.
  set (cands := flat_map (candidate cfg (toLowerCase queryTerm) queryVector) (matrix data)).
  assert (Hnum : Forall (fun u : Similar float => number (similarity u)) cands).
  { apply Forall_forall. intros u Hu. apply in_flat_map in Hu as (entry & _ & Hu).
    apply candidate_inv in Hu as (_ & _ & _ & Hmin).
    now apply leb_number in Hmin. }
  assert (Hsorted : Forall (fun u : Similar float => number (similarity u))
                           (sort (@bySimilarityDesc float _) cands)).
  { apply Forall_forall. intros u Hu. apply sort_in in Hu.
    rewrite Forall_forall in Hnum. auto. }
  split; [|split; [|split]].
  - apply firstn_le_length.
  - intros u Hu. apply in_firstn, sort_in in Hu.
    apply in_flat_map in Hu as (entry & Hin & Hu).
    apply candidate_inv in Hu as (Ht & Hne & Hs & Hmin).
    split; [congruence|]. split; [exact Hmin|].
    exists queryVector, (snd entry). repeat split; auto.
    rewrite Ht. now destruct entry.
  - apply StronglySorted_firstn.
    apply StronglySorted_impl_on
      with (ok := fun u : Similar float => number (similarity u))
           (R := inorder (@bySimilarityDesc float _)).
    + intros x y Hx Hy H. unfold inorder in H.
      rewrite bySimilarityDesc_float in H by assumption.
      now apply ltb_false_leb.
    + exact Hsorted.
    + apply sort_sorted_on with (ok := fun u : Similar float => number (similarity u)).
      * intros a b Ha Hb. rewrite !bySimilarityDesc_float by assumption.
        now apply ltb_asym.
      * intros a b c Ha Hb Hc. rewrite !bySimilarityDesc_float by assumption.
        now apply ltb_false_trans.
      * exact Hnum.
  - intros a b Hab Heq.
    apply precedes_firstn in Hab.
    set (p := fun u : Similar float => Num.eqb (similarity u) (similarity a)).
    assert (Pb : p b = true) by (now apply eqb_sym_float).
    assert (Pa : p a = true) by (apply (eqb_number Heq)).
    pose proof (filter_precedes p Hab Pa Pb) as H.
    rewrite sort_filter in H.
    + apply precedes_filter in H. now apply precedes_candidates in H.
    + intros x y _ _ Px Py.
      rewrite bySimilarityDesc_float
        by (apply (eqb_number Px) || apply (eqb_number Py)).
      exact (eqb_ltb_false Px Py).
Qed.

(** C4, as stated, fails on its tie-break: in the index of [tie_text] the
    terms pump, clean and line are equally similar to fuel, and they are
    returned in the order of the matrix, pump first, although clean comes
    first in lexicographic order. *)
Lemma findSimilarTerms_ties_not_lexicographic :
  map (fun s => sim_term s) tie_result = ["pump"; "clean"; "line"]%string
  /\ (exists s, map (fun s => similarity s) tie_result = [s; s; s])
  /\ String.ltb "clean" "pump" = true.
Proof.
  split; [vm_compute; reflexivity|]. split; [|vm_compute; reflexivity].
  eexists. vm_compute. reflexivity.
Qed.

(** The test [>= minSimilarity] is made on the double the code computes:
    in [rounding_index] the cosine of fuel and pump is 3/10 in exact
    arithmetic, the double is below 0.3, and pump is not returned. *)
Lemma findSimilarTerms_rounded_similarity :
  Num.ltb (cosineSimilarity (N:=Num.Float64)
             (Some [("x"%string, 3%nat); ("y"%string, 1%nat)])
             (Some [("x"%string, 1%nat); ("z"%string, 3%nat)]))
          (minSimilarity CONFIG) = true
  /\ findSimilarTerms (CONFIG (num:=float)) "fuel" rounding_index 5 = [].
Proof. split; vm_compute; reflexivity. Qed.

End VectorizerTheorems.


(* ===================================================================== *)
(** * The co-occurrence indexer                                           *)
(* ===================================================================== *)

Module IndexerFacts.
Import Js Order IndexSpec JsFacts Vectorizer.

Lemma map_has_increment (v : JsMap nat) (k U : string) :
  map_has (increment v k) U = true <-> map_has v U = true \/ k = U.
Proof.
  unfold increment. destruct (String.eqb k U) eqn:E.
  - apply String.eqb_eq in E. subst U. rewrite map_has_set_same. tauto.
  - apply String.eqb_neq in E. rewrite map_has_set_other by assumption. tauto.
Qed.

Section Steps.
Variable windowSize : nat.
Variable validTerms : list TermOcc.

Local Abbreviation termAt j := (term (at_index validTerms j)).

(** The inner loop adds the terms of the positions it visits, the centre
    position [i] apart. *)
Lemma window_loop_has (i : nat) (js : list nat) (v : JsMap nat) (U : string) :
  map_has (fold_left (window_step validTerms i) js v) U = true
  <-> map_has v U = true \/ exists j, In j js /\ i <> j /\ termAt j = U.
Proof.
  revert v. induction js as [|j js IH]; intros v; simpl.
  - split; [auto|]. intros [H | (j & [] & _)]. exact H.
  - rewrite IH. unfold window_step. destruct (i =? j) eqn:E.
    + apply Nat.eqb_eq in E. subst j. split.
      * intros [H | (j & Hj & Hne & Ht)]; [auto|]. right. exists j. auto.
      * intros [H | (j & [<- | Hj] & Hne & Ht)]; [auto|contradiction|].
        right. exists j. auto.
    + apply Nat.eqb_neq in E. rewrite map_has_increment. split.
      * intros [[H | H] | (j' & Hj & Hne & Ht)]; [auto| |].
        -- right. exists j. auto.
        -- right. exists j'. auto.
      * intros [H | (j' & [<- | Hj] & Hne & Ht)]; [auto|auto|].
        right. exists j'. auto.
Qed.

Lemma matrix_step_vector (m : JsMap (JsMap nat)) (i : nat) (T : string) :
  vectorOf (matrix_step windowSize validTerms m i) T
  = if String.eqb (termAt i) T
    then fold_left (window_step validTerms i)
           (window windowSize (List.length validTerms) i) (vectorOf m T)
    else vectorOf m T.
Proof.
  unfold matrix_step, vectorOf.
  destruct (String.eqb (termAt i) T) eqn:E.
  - apply String.eqb_eq in E. subst T. rewrite map_get_set_same.
    unfold map_has. destruct (map_get m (termAt i)) eqn:G.
    + now rewrite G.
    + now rewrite map_get_set_same.
  - apply String.eqb_neq in E. rewrite map_get_set_other by assumption.
    unfold map_has. destruct (map_get m (termAt i)); [reflexivity|].
    now rewrite map_get_set_other.
Qed.

(** The entries of the vector of [T] after the outer loop has visited the
    positions [centres]. *)
Lemma matrix_loop_has (centres : list nat) (m : JsMap (JsMap nat)) (T U : string) :
  map_has (vectorOf (fold_left (matrix_step windowSize validTerms) centres m) T) U = true
  <-> map_has (vectorOf m T) U = true
      \/ exists i j, In i centres
           /\ In j (window windowSize (List.length validTerms) i)
           /\ i <> j /\ termAt i = T /\ termAt j = U.
Proof.
  revert m. induction centres as [|i centres IH]; intros m; simpl.
  - split; [auto|]. intros [H | (i & j & [] & _)]. exact H.
  - rewrite IH, matrix_step_vector.
    destruct (String.eqb (termAt i) T) eqn:E.
    + apply String.eqb_eq in E. rewrite window_loop_has. split.
      * intros [[H | (j & Hj & Hne & Ht)] | (i' & j & Hi & Hj & Hne & Hti & Htj)];
          [auto| |].
        -- right. exists i, j. auto.
        -- right. exists i', j. auto 6.
      * intros [H | (i' & j & [<- | Hi] & Hj & Hne & Hti & Htj)]; [auto| |].
        -- left. right. exists j. auto.
        -- right. exists i', j. auto 6.
    + apply String.eqb_neq in E. split.
      * intros [H | (i' & j & Hi & Hj & Hne & Hti & Htj)]; [auto|].
        right. exists i', j. auto 6.
      * intros [H | (i' & j & [<- | Hi] & Hj & Hne & Hti & Htj)];
          [auto|contradiction|].
        right. exists i', j. auto 6.
Qed.

(** The keys after the outer loop: a centre term that is no key yet is
    added at the end. *)
Lemma matrix_step_keys (m : JsMap (JsMap nat)) (i : nat) :
  map_keys (matrix_step windowSize validTerms m i)
  = if map_has m (termAt i) then map_keys m else map_keys m ++ [termAt i].
Proof.
  unfold matrix_step. rewrite map_keys_set.
  destruct (map_has m (termAt i)) eqn:E.
  - now rewrite E.
  - now rewrite map_has_set_same, map_keys_set, E.
Qed.

Lemma matrix_loop_keys (centres : list nat) (m : JsMap (JsMap nat)) (k : string) :
  In k (map_keys (fold_left (matrix_step windowSize validTerms) centres m))
  <-> In k (map_keys m) \/ exists i, In i centres /\ termAt i = k.
Proof.
  revert m. induction centres as [|i centres IH]; intros m; simpl.
  - split; [auto|]. intros [H | (i & [] & _)]. exact H.
  - rewrite IH, matrix_step_keys. destruct (map_has m (termAt i)) eqn:E.
    + apply map_has_keys in E. split.
      * intros [H | (i' & Hi & Ht)]; [auto|]. right. exists i'. auto.
      * intros [H | (i' & [<- | Hi] & Ht)]; [auto| |].
        -- left. now rewrite <- Ht.
        -- right. exists i'. auto.
    + rewrite in_app_iff. simpl. split.
      * intros [[H | [H | []]] | (i' & Hi & Ht)]; [auto| |].
        -- right. exists i. auto.
        -- right. exists i'. auto.
      * intros [H | (i' & [<- | Hi] & Ht)]; [auto| |].
        -- left. right. left. exact Ht.
        -- right. exists i'. auto.
Qed.

End Steps.

(** The positions of the window of [i]. *)
Lemma in_window (w len i j : nat) :
  i < len ->
  (In j (window w len i) <-> j < len /\ i - w <= j /\ j <= i + w).
Proof.
  intros Hi. unfold window. rewrite in_seq. lia.
Qed.

End IndexerFacts.

Module IndexerTheorems.
Import Js Order IndexSpec Samples JsFacts Vectorizer IndexerFacts.

Section Index.
Context {num : Type} (cfg : Config num).

Lemma sequence_nth (text : string) (i : nat) (T : string) :
  nth_error (sequenceOf cfg text) i = Some T
  <-> i < List.length (validTermsOf cfg text)
      /\ term (at_index (validTermsOf cfg text) i) = T.
Proof.
  unfold sequenceOf, at_index. rewrite nth_error_map.
  split.
  - intros H. destruct (nth_error (validTermsOf cfg text) i) eqn:E; [|discriminate].
    simpl in H. injection H as <-. split.
    + apply nth_error_Some. congruence.
    + now rewrite (nth_error_nth _ _ _ E).
  - intros [Hi <-].
    destruct (nth_error (validTermsOf cfg text) i) eqn:E.
    + simpl. now rewrite (nth_error_nth _ _ _ E).
    + apply nth_error_None in E. lia.
Qed.

(** C5, amended: the vector of a key [T] has an entry for [T] itself exactly
    when [T] stands at two different positions of the filtered term sequence
    that are at most [windowSize] apart; only the centre position itself is
    left out of the count. *)
Theorem self_count_iff_repeated_in_window (text : string) (T : string)
    (vector : JsMap nat) :
  map_get (matrix (buildCoOccurrenceMatrix cfg text)) T = Some vector ->
  (map_has vector T = true
   <-> exists i j, i <> j
         /\ nth_error (sequenceOf cfg text) i = Some T
         /\ nth_error (sequenceOf cfg text) j = Some T
         /\ i - j <= windowSize cfg /\ j - i <= windowSize cfg).
Proof.
  intros Hv.
  assert (Hvec : vectorOf (matrix (buildCoOccurrenceMatrix cfg text)) T = vector)
    by (unfold vectorOf; now rewrite Hv).
  rewrite <- Hvec. simpl. rewrite matrix_loop_has. simpl. split.
  - intros [H | (i & j & Hi & Hj & Hne & Hti & Htj)]; [discriminate|].
    apply in_seq in Hi. apply in_window in Hj; [|lia].
    exists i, j. rewrite !sequence_nth. repeat split; auto; lia.
  - intros (i & j & Hne & Hi & Hj & Hd1 & Hd2).
    apply sequence_nth in Hi as (Hi & Hti), Hj as (Hj & Htj).
    right. exists i, j. repeat split; auto.
    + apply in_seq. lia.
    + apply in_window; lia.
Qed.

(** The keys of the matrix are the terms of the filtered sequence, whatever
    [maxTerms] is. *)
Lemma matrix_keys_are_valid_terms (text : string) (k : string) :
  In k (map_keys (matrix (buildCoOccurrenceMatrix cfg text)))
  <-> In k (sequenceOf cfg text).
Proof.
  simpl. rewrite matrix_loop_keys. simpl. unfold sequenceOf. split.
  - intros [[] | (i & Hi & Ht)]. apply in_seq in Hi. subst k.
    apply in_map. unfold at_index. apply nth_In. lia.
  - intros H. right. apply in_map_iff in H as (x & <- & Hx).
    apply (In_nth _ _ no_term) in Hx as (i & Hi & <-).
    exists i. split; [apply in_seq; lia|reflexivity].
Qed.

(** Every key of the matrix passes the frequency filter: its frequency is
    at least [minFrequency]. *)
Theorem matrix_keys_are_frequent (text : string) :
  Forall (fun k =>
            minFrequency cfg
            <= count_of (termFrequencies (buildCoOccurrenceMatrix cfg text)) k)
         (map_keys (matrix (buildCoOccurrenceMatrix cfg text))).
Proof.
  apply Forall_forall. intros k Hk.
  apply matrix_keys_are_valid_terms in Hk.
  unfold sequenceOf, validTermsOf in Hk.
  apply in_map_iff in Hk as (item & <- & Hitem).
  apply filter_In in Hitem as [_ Hf]. apply Nat.leb_le in Hf. exact Hf.
Qed.

(** The index of a text is the same under every vocabulary cap:
    [buildCoOccurrenceMatrix] does not read [maxTerms]. *)
Theorem index_ignores_maxTerms (cap : Z) (text : string) :
  buildCoOccurrenceMatrix (withMaxTerms cfg cap) text
  = buildCoOccurrenceMatrix cfg text.
Proof. reflexivity. Qed.

End Index.

Lemma self_count_iff_repeated_in_window_witness :
  map_has [("pump"%string, 4); ("fuel"%string, 2); ("fuel pump"%string, 4)] "fuel" = true
  <-> exists i j, i <> j
        /\ nth_error (sequenceOf (CONFIG (num:=float)) repeat_text) i = Some "fuel"%string
        /\ nth_error (sequenceOf (CONFIG (num:=float)) repeat_text) j = Some "fuel"%string
        /\ i - j <= windowSize (CONFIG (num:=float))
        /\ j - i <= windowSize (CONFIG (num:=float)).
Proof.
  apply (@self_count_iff_repeated_in_window float CONFIG repeat_text "fuel").
  vm_compute. reflexivity.
Defined.

(** C5, as stated, fails: in the index of "fuel pump fuel pump" the vector
    of fuel counts fuel itself twice (positions 0 and 2 see each other). *)
Lemma self_count_is_stored :
  exists vector,
    map_get (matrix (buildCoOccurrenceMatrix (CONFIG (num:=float)) repeat_text)) "fuel"
      = Some vector
    /\ map_get vector "fuel" = Some 2.
Proof. eexists. split; vm_compute; reflexivity. Qed.

(** C6 at a failing input: with [maxTerms = 2] the index of
    "fuel pump fuel pump" keeps three terms; [buildCoOccurrenceMatrix]
    never reads [maxTerms]. *)
Lemma vocabulary_exceeds_maxTerms :
  map_keys (matrix (buildCoOccurrenceMatrix CONFIG_cap2 repeat_text))
    = ["fuel"; "pump"; "fuel pump"]%string
  /\ (maxTerms CONFIG_cap2
      < Z.of_nat (List.length (matrix (buildCoOccurrenceMatrix CONFIG_cap2 repeat_text))))%Z.
Proof. split; vm_compute; reflexivity. Qed.

(** C8 at a failing input: for the question "fuel pump" a document without
    stored index contributes the two tokens only; the phrase "fuel pump",
    an original term that every document with an index (even an empty one)
    contributes, is missing. *)
Lemma missing_index_drops_phrases :
  map (fun e => originalTerm e)
      (expandQuery (N:=Num.Float64) CONFIG "fuel pump" None)
    = ["fuel"; "pump"]%string
  /\ map (fun e => originalTerm e)
       (expandQuery (N:=Num.Float64) CONFIG "fuel pump" (Some empty_index))
     = ["fuel"; "pump"; "fuel pump"]%string.
Proof. split; vm_compute; reflexivity. Qed.

End IndexerTheorems.


(* ===================================================================== *)
(** * The hybrid score                                                    *)
(* ===================================================================== *)

Module ScoreFacts.
Import Js Order ScoreSpec JsFacts Search.

(** ** [indexOf] and the occurrence loop *)

Lemma offs_bounds (t s : string) (pos k : nat) :
  In k (offs t s pos) -> pos <= k < pos + String.length s.
Proof.
  revert pos. induction s as [|a r IH]; intros pos; cbn [offs]; [intros []|].
  rewrite in_app_iff. intros [H | H].
  - destruct (String.prefix t (String a r)); [|destruct H].
    destruct H as [<- | []]. simpl. lia.
  - apply IH in H. simpl. lia.
Qed.

Lemma offs_sorted (t s : string) (pos : nat) : StronglySorted lt (offs t s pos).
Proof.
  revert pos. induction s as [|a r IH]; intros pos; cbn [offs]; [constructor|].
  destruct (String.prefix t (String a r)); cbn [app]; [|apply IH].
  constructor; [apply IH|].
  apply Forall_forall. intros k Hk. apply offs_bounds in Hk. lia.
Qed.

Lemma offs_length (t s : string) (pos : nat) :
  List.length (offs t s pos) <= String.length s.
Proof.
  revert pos. induction s as [|a r IH]; intros pos; cbn [offs]; [simpl; lia|].
  rewrite length_app. specialize (IH (S pos)).
  destruct (String.prefix t (String a r)); simpl; lia.
Qed.

Lemma prefix_empty_r (t : string) : t <> EmptyString -> String.prefix t EmptyString = false.
Proof. destruct t; [congruence|reflexivity]. Qed.

Lemma find_from_offs (t s : string) (pos from : nat) :
  t <> EmptyString ->
  find_from t s pos from = hd_error (filter (fun k => from <=? k) (offs t s pos)).
Proof.
  intros Ht. revert pos. induction s as [|a r IH]; intros pos.
  - cbn [find_from offs]. rewrite prefix_empty_r by assumption.
    now rewrite andb_false_r.
  - cbn [find_from offs]. rewrite filter_app.
    destruct (String.prefix t (String a r)) eqn:P.
    + cbn [filter]. destruct (from <=? pos) eqn:L; simpl; [reflexivity|].
      apply IH.
    + rewrite andb_false_r. simpl. apply IH.
Qed.

Lemma indexOf_offs (c t : string) (from : nat) :
  t <> EmptyString ->
  indexOf c t from = hd_error (filter (fun k => from <=? k) (offs t c 0)).
Proof.
  intros Ht. unfold indexOf. destruct t; [congruence|].
  now apply find_from_offs.
Qed.

(** Past the first offset at or after [from], the remaining ones. *)
Lemma filter_from_next (l : list nat) (from k : nat) (rest : list nat) :
  StronglySorted lt l ->
  filter (fun j => from <=? j) l = k :: rest ->
  filter (fun j => k + 1 <=? j) l = rest.
Proof.
  induction 1 as [|x l Hl IH Hx]; simpl; [discriminate|].
  destruct (from <=? x) eqn:L.
  - intros [= -> <-].
    replace (k + 1 <=? k) with false by (symmetry; apply Nat.leb_gt; lia).
    apply Nat.leb_le in L.
    rewrite Forall_forall in Hx.
    apply filter_ext_in. intros j Hj. specialize (Hx j Hj).
    transitivity true; [|symmetry]; apply Nat.leb_le; lia.
  - intros E. specialize (IH E).
    assert (Hk : In k l).
    { assert (In k (filter (fun j => from <=? j) l)) by (rewrite E; now left).
      apply filter_In in H. tauto. }
    rewrite Forall_forall in Hx. specialize (Hx k Hk).
    replace (k + 1 <=? x) with false by (symmetry; apply Nat.leb_gt; lia).
    exact IH.
Qed.

Lemma filter_from_zero (l : list nat) : filter (fun k => 0 <=? k) l = l.
Proof.
  induction l as [|x l IH]; [reflexivity|].
  cbn [filter]. change (0 <=? x) with true. now rewrite IH.
Qed.

(** With enough turns the loop returns the offsets from [from] on. *)
Lemma occurrences_loop_from (c t : string) (fuel from : nat) (ps : list nat) :
  t <> EmptyString ->
  List.length (filter (fun k => from <=? k) (offs t c 0)) <= fuel ->
  occurrences_loop fuel c t (indexOf c t from) ps
  = Some (ps ++ filter (fun k => from <=? k) (offs t c 0)).
Proof.
  intros Ht. revert from ps. induction fuel as [|fuel IH]; intros from ps Hlen.
  - rewrite indexOf_offs by assumption.
    destruct (filter (fun k => from <=? k) (offs t c 0)); simpl in *; [|lia].
    now rewrite app_nil_r.
  - rewrite indexOf_offs by assumption.
    destruct (filter (fun k => from <=? k) (offs t c 0)) as [|k rest] eqn:E; simpl.
    + now rewrite app_nil_r.
    + pose proof (filter_from_next from (offs_sorted t c 0) E) as Hnext.
      rewrite IH; rewrite Hnext.
      * now rewrite <- app_assoc.
      * simpl in Hlen. lia.
Qed.

(** A term that is not empty: [length content + 1] turns are enough. *)
Lemma occurrences_loop_enough (c t : string) (ps : list nat) :
  t <> EmptyString ->
  occurrences_loop (String.length c + 1) c t (indexOf c t 0) ps
  = Some (ps ++ offs t c 0).
Proof.
  intros Ht.
  rewrite <- (filter_from_zero (offs t c 0)).
  apply occurrences_loop_from; [assumption|].
  rewrite filter_from_zero. pose proof (offs_length t c 0). lia.
Qed.

(** The empty term: [indexOf] never answers [-1], the loop of the code does
    not end, and no number of turns gives a result. *)
Lemma occurrences_loop_empty_term (c : string) (fuel : nat) (i : nat) (ps : list nat) :
  occurrences_loop fuel c EmptyString (Some i) ps = None.
Proof.
  revert i ps. induction fuel as [|fuel IH]; intros i ps; simpl; [reflexivity|].
  apply IH.
Qed.

(** [offs] lists the offsets at which [t] occurs as a substring. *)
Lemma filter_map_S (f : nat -> bool) (l : list nat) :
  filter f (map S l) = map S (filter (fun k => f (S k)) l).
Proof.
  induction l as [|x l IH]; simpl; [reflexivity|].
  rewrite IH. now destruct (f (S x)).
Qed.

Lemma prefix_substring (t s : string) :
  String.prefix t s = String.eqb (String.substring 0 (String.length t) s) t.
Proof.
  destruct (String.prefix t s) eqn:P.
  - apply prefix_correct in P. rewrite P. symmetry. apply String.eqb_refl.
  - symmetry. apply String.eqb_neq. intros E.
    apply prefix_correct in E. congruence.
Qed.

Lemma offs_substring (t s : string) (pos : nat) :
  offs t s pos
  = map (Nat.add pos)
      (filter (fun k => String.eqb (String.substring k (String.length t) s) t)
              (seq 0 (String.length s))).
Proof.
  revert pos. induction s as [|a r IH]; intros pos; [reflexivity|].
  cbn [offs String.length seq filter].
  rewrite <- seq_shift, filter_map_S, IH, <- prefix_substring.
  destruct (String.prefix t (String a r)); cbn [map app].
  - rewrite Nat.add_0_r. f_equal. rewrite map_map. apply map_ext_in.
    intros k _. lia.
  - rewrite map_map. apply map_ext_in. intros k _. lia.
Qed.

Lemma toLowerCase_empty (T : string) : T <> EmptyString -> toLowerCase T <> EmptyString.
Proof. destruct T; [congruence|discriminate]. Qed.

Section Chunk.
Context {num : Type} {N : Num.Number num}.
Variable cfg : ScoringConfig num.
Variable C : string.
Variable concept : Concept num.

Lemma offsetsOf_offs (T : string) :
  ScoreSpec.offsetsOf C T = offs (toLowerCase T) (toLowerCase C) 0.
Proof.
  rewrite offs_substring. unfold ScoreSpec.offsetsOf, ScoreSpec.occursAt.
  symmetry. erewrite map_ext; [apply map_id|]. reflexivity.
Qed.


(** A term that matches occurs at some offset. *)
Lemma matches_offsets (T : string) :
  T <> EmptyString -> ScoreSpec.matches C T = true -> ScoreSpec.offsetsOf C T <> [].
Proof.
  intros HT. unfold ScoreSpec.matches, includes.
  rewrite indexOf_offs by now apply toLowerCase_empty.
  rewrite offsetsOf_offs.
  destruct (offs (toLowerCase T) (toLowerCase C) 0); [discriminate|congruence].
Qed.

Lemma substring_beyond (s : string) (k n : nat) :
  String.length s <= k -> String.substring k n s = EmptyString.
Proof.
  revert k. induction s as [|a s IH]; intros k Hk.
  - destruct k, n; reflexivity.
  - destruct k as [|k]; [simpl in Hk; lia|]. simpl. apply IH. simpl in Hk. lia.
Qed.

(** A term matches exactly when it occurs at some offset of the content:
    [includes] is the substring test. *)
Lemma matches_iff_occurs (T : string) :
  T <> EmptyString ->
  ScoreSpec.matches C T = true <-> exists k, ScoreSpec.occursAt C T k = true.
Proof.
  intros HT. split.
  - intros Hm. pose proof (matches_offsets HT Hm) as Hne.
    destruct (ScoreSpec.offsetsOf C T) as [|k l] eqn:E; [congruence|].
    exists k. assert (Hk : In k (ScoreSpec.offsetsOf C T)) by (rewrite E; now left).
    apply filter_In in Hk. tauto.
  - intros (k & Hk). unfold ScoreSpec.matches, includes.
    rewrite indexOf_offs by now apply toLowerCase_empty.
    rewrite <- offsetsOf_offs.
    assert (Hin : In k (ScoreSpec.offsetsOf C T)).
    { apply filter_In. split; [|exact Hk]. apply in_seq.
      destruct (le_lt_dec (String.length (toLowerCase C)) k) as [Hle|Hlt]; [|lia].
      exfalso. unfold ScoreSpec.occursAt in Hk.
      rewrite substring_beyond in Hk by assumption.
      apply String.eqb_eq in Hk. symmetry in Hk.
      now apply toLowerCase_empty in Hk. }
    rewrite filter_from_zero. destruct (ScoreSpec.offsetsOf C T); [destruct Hin|reflexivity].
Qed.


(** ** The minimum distance *)






(** ** The loop over the terms *)


End Chunk.

End ScoreFacts.

Module ScoreTheorems.
Import Js Order Samples JsFacts Search ScoreFacts.


Section Claim.
Context {num : Type} {N : Num.Number num}.
Variable cfg : ScoringConfig num.


End Claim.


(** Scenario S2 on doubles: two original terms ten characters apart. *)
Example scoreChunk_s2 :
  option_map (fun s => (originalTermScore s, proximityScore s, totalScore s))
             (scoreChunk SCORING_CONFIG s2_chunk s2_concept)
  = Some (200, 47.5, 247.5)%float.
Proof. vm_compute. reflexivity. Qed.

End ScoreTheorems.


(* ===================================================================== *)
(** * Ranking the chunks of a topic                                       *)
(* ===================================================================== *)

Module RankFacts.
Import Js Order ScoreSpec JsFacts Search ScoreFacts.

Section Total.
Context {num : Type} {N : Num.Number num}.
Variable cfg : ScoringConfig num.

Lemma scoreTerm_matched (content : string) (concept : Concept num)
    (P : string -> Prop) (ts : list string) (a : Acc num) :
  Forall P ts -> Forall P (acc_matched a) ->
  Forall P (acc_matched (fold_left (scoreTerm cfg content concept) ts a)).
Proof.
  intros Hts. revert a. induction Hts as [|T ts HT _ IH]; intros a Ha; [exact Ha|].
  simpl. apply IH. unfold scoreTerm.
  assert (Hpush : Forall P (acc_matched a ++ [T]))
    by (apply Forall_app; split; [exact Ha|now constructor]).
  destruct (includes content (toLowerCase T)); [|exact Ha].
  destruct (isOriginal (metadataOf concept T) || array_includes (originalTerms concept) T);
    [exact Hpush|].
  destruct (Num.leb (highSimilarityThreshold cfg) (similarity (metadataOf concept T)));
    exact Hpush.
Qed.

Lemma calculateProximityScore_total (content : string) (ts : list string) :
  Forall (fun T => T <> EmptyString) ts ->
  exists p, calculateProximityScore cfg content ts = Some p.
Proof.
  intros Hne. unfold calculateProximityScore.
  assert (H : forall ps, exists ps',
             fold_left (pushOccurrences content) ts (Some ps) = Some ps').
  { induction Hne as [|T ts HT _ IH]; intros ps; simpl; [eauto|].
    rewrite occurrences_loop_enough by now apply toLowerCase_empty.
    apply IH. }
  destruct (H []) as (ps & ->).
  destruct (List.length ps <? 2); [eauto|].
  destruct (minDistanceLoop (sort ascending ps) None); [|eauto].
  destruct (Num.leb _ _); eauto.
Qed.

(** Scoring a chunk ends when no term of the concept is empty. *)
Lemma scoreChunk_total (chunk : Chunk) (concept : Concept num) :
  Forall (fun T => T <> EmptyString) (terms concept) ->
  exists score, scoreChunk cfg chunk concept = Some score.
Proof.
  intros Hne. unfold scoreChunk.
  set (a := fold_left _ _ _).
  assert (Ha : Forall (fun T => T <> EmptyString) (acc_matched a))
    by (apply scoreTerm_matched; [exact Hne|constructor]).
  destruct (2 <=? List.length (acc_matched a)); [|eauto].
  destruct (calculateProximityScore_total (toLowerCase (content chunk)) Ha) as (p & ->).
  eauto.
Qed.

Lemma scoreAll_scored (concept : Concept num) (chunks : list Chunk) :
  Forall (fun T => T <> EmptyString) (terms concept) ->
  exists scored,
    scoreAll cfg concept chunks = Some scored
    /\ map (fun c => chunk c) scored = chunks
    /\ (forall c, In c scored ->
          scoreChunk cfg (chunk c) concept = Some (scoreDetails c)
          /\ relevanceScore c = totalScore (scoreDetails c)).
Proof.
  intros Hne. induction chunks as [|ch chunks (scored & E & Hmap & Hall)]; simpl.
  - exists []. split; [reflexivity|]. split; [reflexivity|]. intros c [].
  - destruct (scoreChunk_total ch concept Hne) as (score & Es). rewrite Es, E.
    eexists. split; [reflexivity|]. split; [simpl; now rewrite Hmap|].
    intros c [<- | Hc]; [simpl; auto|auto].
Qed.

End Total.

End RankFacts.

Module RankTheorems.
Import Js Order PackSpec Samples JsFacts Search ScoreFacts RankFacts.
Import FloatSpec FloatFacts.

Lemma StronglySorted_precedes {A} (R : A -> A -> Prop) (l : list A) a b :
  StronglySorted R l -> precedes l a b -> R a b.
Proof.
  intros Hs (l1 & l2 & l3 & ->).
  induction l1 as [|x l1 IH]; simpl in Hs.
  - inversion Hs as [|? ? _ Ha]; subst. rewrite Forall_forall in Ha.
    apply Ha. apply in_or_app. right. now left.
  - apply IH. now inversion Hs.
Qed.

(** The comparator of the ranking on doubles that are numbers. *)
Lemma byScoreDesc_float (a b : ScoredChunk float) :
  number (relevanceScore a) -> number (relevanceScore b) ->
  byScoreDesc a b = PrimFloat.ltb (relevanceScore a) (relevanceScore b).
Proof. intros Ha Hb. unfold byScoreDesc. now apply descending_float. Qed.

(** A chunk that passes the threshold test has a score that is a number:
    the test [>=] is false on [NaN]. *)
Lemma qualifies_number (cfg : ScoringConfig float) (l : list (ScoredChunk float)) :
  Forall (fun c : ScoredChunk float => number (relevanceScore c))
         (filter (qualifies cfg) l).
Proof.
  apply Forall_forall. intros c Hc. apply filter_In in Hc as (_ & Hq).
  unfold qualifies in Hq. now apply leb_number in Hq.
Qed.

(** C3, amended: on the doubles the code computes with, for a topic whose
    first concept has no empty term and whose spatial category is "auto",
    every chunk given is scored, and the ranked list holds exactly the
    scored chunks whose total score, as the code computes it, passes the
    test [>= minimumScoreThreshold]; the list is in descending order of
    score; chunks of equal score keep the order they have in the chunk list
    given.  They are in ascending (documentId, chunkNumber) order when the
    chunk list is. *)
Theorem executeBlockWithScoring_ranking (cfg : ScoringConfig float)
    (block : Block float) (concept : Concept float)
    (others : list (Concept float)) (searchableChunks : list Chunk) :
  inclusionConcepts block = concept :: others ->
  spatialCategory block = "auto"%string ->
  Forall (fun T => T <> EmptyString) (terms concept) ->
  exists scored ranked,
    scoreAll cfg concept searchableChunks = Some scored
    /\ map (fun c => chunk c) scored = searchableChunks
    /\ (forall c, In c scored ->
          scoreChunk cfg (chunk c) concept = Some (scoreDetails c)
          /\ relevanceScore c = totalScore (scoreDetails c))
    /\ executeBlockWithScoring cfg block searchableChunks = Some ranked
    /\ Permutation ranked
         (filter (fun c => Num.leb (minimumScoreThreshold cfg) (relevanceScore c))
                 scored)
    /\ StronglySorted
         (fun a b => Num.leb (relevanceScore b) (relevanceScore a) = true) ranked
    /\ (forall a b, precedes ranked a b ->
          Num.eqb (relevanceScore a) (relevanceScore b) = true ->
          precedes scored a b)
    /\ (StronglySorted keyLe scored ->
        forall a b, precedes ranked a b ->
          Num.eqb (relevanceScore a) (relevanceScore b) = true ->
          keyLe a b).
Proof.
  intros Hc Hauto Hne.
  destruct (scoreAll_scored cfg concept searchableChunks Hne) as (scored & E & Hmap & Hall).
  exists scored, (sort (@byScoreDesc float _) (filter (qualifies cfg) scored)).
  pose proof (qualifies_number cfg scored) as Hnum.
  assert (Hties : forall a b,
            precedes (sort (@byScoreDesc float _) (filter (qualifies cfg) scored)) a b ->
            Num.eqb (relevanceScore a) (relevanceScore b) = true ->
            precedes scored a b).
  { intros a b Hab Heq.
    set (p := fun c : ScoredChunk float => Num.eqb (relevanceScore c) (relevanceScore a)).
    assert (Pb : p b = true) by (now apply eqb_sym_float).
    assert (Pa : p a = true) by (apply (eqb_number Heq)).
    pose proof (filter_precedes p Hab Pa Pb) as H.
    rewrite sort_filter in H.
    - now apply precedes_filter, precedes_filter in H.
    - intros x y _ _ Px Py.
      rewrite byScoreDesc_float
        by (apply (eqb_number Px) || apply (eqb_number Py)).
      exact (eqb_ltb_false Px Py). }
  split; [exact E|]. split; [exact Hmap|]. split; [exact Hall|].
  split; [|split; [|split; [|split]]].
  - unfold executeBlockWithScoring. rewrite Hc, E, Hauto. reflexivity.
  - apply sort_perm.
  - apply StronglySorted_impl_on
      with (ok := fun c : ScoredChunk float => number (relevanceScore c))
           (R := inorder (@byScoreDesc float _)).
    + intros x y Hx Hy H. unfold inorder in H.
      rewrite byScoreDesc_float in H by assumption.
      now apply ltb_false_leb.
    + apply Forall_forall. intros c Hin. apply sort_in in Hin.
      rewrite Forall_forall in Hnum. auto.
    + apply sort_sorted_on
        with (ok := fun c : ScoredChunk float => number (relevanceScore c)).
      * intros a b Ha Hb. rewrite !byScoreDesc_float by assumption.
        now apply ltb_asym.
      * intros a b c Ha Hb Hc'. rewrite !byScoreDesc_float by assumption.
        now apply ltb_false_trans.
      * exact Hnum.
  - exact Hties.
  - intros Hsorted a b Hab Heq.
    eapply StronglySorted_precedes; [exact Hsorted|]. now apply Hties.
Qed.

Lemma executeBlockWithScoring_ranking_witness :
  exists scored ranked,
    scoreAll SCORING_CONFIG fuel_concept tied_chunks = Some scored
    /\ map (fun c => chunk c) scored = tied_chunks
    /\ (forall c, In c scored ->
          scoreChunk SCORING_CONFIG (chunk c) fuel_concept = Some (scoreDetails c)
          /\ relevanceScore c = totalScore (scoreDetails c))
    /\ executeBlockWithScoring (N:=Num.Float64) SCORING_CONFIG fuel_block tied_chunks
       = Some ranked
    /\ Permutation ranked
         (filter (fun c => Num.leb (minimumScoreThreshold SCORING_CONFIG) (relevanceScore c))
                 scored)
    /\ StronglySorted
         (fun a b => Num.leb (relevanceScore b) (relevanceScore a) = true) ranked
    /\ (forall a b, precedes ranked a b ->
          Num.eqb (relevanceScore a) (relevanceScore b) = true ->
          precedes scored a b)
    /\ (StronglySorted keyLe scored ->
        forall a b, precedes ranked a b ->
          Num.eqb (relevanceScore a) (relevanceScore b) = true ->
          keyLe a b).
Proof.
  apply (@executeBlockWithScoring_ranking SCORING_CONFIG fuel_block fuel_concept []).
  - reflexivity.
  - reflexivity.
  - repeat constructor. discriminate.
Defined.

(** C3, as stated, fails on its tie-break: both chunks score 100, and the
    chunk of document 2 stays before the chunk of document 1. *)
Lemma ranking_ties_keep_input_order :
  option_map
    (map (fun c => (documentId (chunk c), chunkNumber (chunk c), relevanceScore c)))
    (executeBlockWithScoring (N:=Num.Float64) SCORING_CONFIG fuel_block tied_chunks)
  = Some [ (2%Z, 0%Z, 100%float); (1%Z, 0%Z, 100%float) ].
Proof. vm_compute. reflexivity. Qed.

(** The threshold test is made on the double the code computes: the score of
    [far_chunk] is 7.5 + 22.5 in exact arithmetic, the double is below 30,
    and the chunk is dropped. *)
Lemma rounded_score_is_dropped :
  option_map (fun score => Num.ltb (totalScore score)
                             (minimumScoreThreshold SCORING_CONFIG))
             (scoreChunk SCORING_CONFIG far_chunk far_concept) = Some true
  /\ executeBlockWithScoring SCORING_CONFIG far_block [far_chunk] = Some [].
Proof. split; vm_compute; reflexivity. Qed.

End RankTheorems.


(* ===================================================================== *)
(** * Packing                                                             *)
(* ===================================================================== *)

Module PackFacts.
Import Js Order PackSpec JsFacts Search RankTheorems.

Lemma chronological_inorder {num} (a b : ScoredChunk num) :
  inorder chronological a b <-> keyLe a b.
Proof.
  unfold inorder, chronological, keyLe.
  destruct (documentId (chunk a) =? documentId (chunk b))%Z eqn:E; simpl.
  - apply Z.eqb_eq in E. rewrite Z.ltb_ge. lia.
  - apply Z.eqb_neq in E. rewrite Z.ltb_ge. lia.
Qed.

Lemma sortChunksChronologically_sorted {num} (l : list (ScoredChunk num)) :
  StronglySorted keyLe (sortChunksChronologically l).
Proof.
  apply StronglySorted_impl with (R := inorder (@chronological num)).
  - intros a b. apply chronological_inorder.
  - apply sort_sorted.
    + intros a b Hab. apply chronological_inorder.
      assert (Hn : ~ inorder chronological a b)
        by (unfold inorder; congruence).
      rewrite chronological_inorder in Hn. unfold keyLe in *. lia.
    + intros a b c Hab Hbc.
      apply chronological_inorder in Hab, Hbc.
      apply chronological_inorder. unfold keyLe in *. lia.
Qed.

Lemma keyLe_strict {num} (l : list (ScoredChunk num)) :
  NoDup (map keyOf l) -> StronglySorted keyLe l -> StronglySorted keyLt l.
Proof.
  intros Hnd Hs. induction Hs as [|x l Hs IH Hx]; constructor.
  - apply IH. now inversion Hnd.
  - simpl in Hnd. inversion Hnd as [|? ? Hnotin _]; subst.
    rewrite Forall_forall in *. intros y Hy. specialize (Hx y Hy).
    assert (Hk : keyOf x <> keyOf y).
    { intros E. apply Hnotin. rewrite E. now apply in_map. }
    unfold keyLe, keyLt, keyOf in *.
    destruct (Z.eq_dec (chunkNumber (chunk x)) (chunkNumber (chunk y))) as [E|E];
      [|lia].
    destruct Hx as [Hx | [Hd _]]; [lia|]. exfalso. apply Hk. congruence.
Qed.

Lemma sortChunksChronologically_strict {num} (l : list (ScoredChunk num)) :
  NoDup (map keyOf l) -> StronglySorted keyLt (sortChunksChronologically l).
Proof.
  intros Hnd. apply keyLe_strict; [|apply sortChunksChronologically_sorted].
  eapply Permutation_NoDup; [|exact Hnd].
  apply Permutation_map. symmetry. apply sort_perm.
Qed.

Lemma StronglySorted_app_l {A} (R : A -> A -> Prop) (l1 l2 : list A) :
  StronglySorted R (l1 ++ l2) -> StronglySorted R l1.
Proof.
  induction l1 as [|x l1 IH]; simpl; intros H; [constructor|].
  inversion H as [|? ? Hs Hx]; subst. constructor; [auto|].
  rewrite Forall_forall in *. intros y Hy. apply Hx. apply in_or_app. now left.
Qed.

Lemma StronglySorted_app_r {A} (R : A -> A -> Prop) (l1 l2 : list A) :
  StronglySorted R (l1 ++ l2) -> StronglySorted R l2.
Proof.
  induction l1 as [|x l1 IH]; simpl; intros H; [exact H|].
  apply IH. now inversion H.
Qed.

Lemma StronglySorted_adjacent {A} (R : A -> A -> Prop) (l1 l2 : list A) a b :
  StronglySorted R (l1 ++ a :: b :: l2) -> R a b.
Proof.
  intros H. apply StronglySorted_app_r in H.
  inversion H as [|? ? _ Ha]; subst. now inversion Ha.
Qed.

Section Packer.
Context {num : Type} {F : Num.Format num}.

(** The order the sections are to respect. *)
Variable R : ScoredChunk num -> ScoredChunk num -> Prop.

Lemma packChunk_ordered maxChars headerChars topicResult topicHeaderChars
    (p p' : Packer num) (s s' : TopicSection num) (c : ScoredChunk num)
    (rest : list (ScoredChunk num)) :
  packChunk maxChars headerChars topicResult topicHeaderChars (p, s) c = (p', s') ->
  closedOrdered R p ->
  StronglySorted R (chunks s ++ c :: rest) ->
  closedOrdered R p' /\ StronglySorted R (chunks s' ++ rest).
Proof.
  intros E [Hsc Hct] Hs. unfold packChunk in E.
  assert (Hsec : ordered R s) by (now apply StronglySorted_app_l in Hs).
  destruct ((maxChars <? _)%Z && _); injection E as <- <-.
  - split.
    + split; cbn [superChunks currentTopics]; [|constructor].
      apply Forall_app. split; [exact Hsc|]. constructor; [|constructor].
      cbn [topics]. destruct (0 <? List.length (chunks s)); [|exact Hct].
      apply Forall_app. split; [exact Hct|]. now constructor.
    + cbn [chunks]. now apply StronglySorted_app_r in Hs.
  - split.
    + split; cbn [superChunks currentTopics]; assumption.
    + unfold pushChunk. cbn [chunks]. now rewrite <- app_assoc.
Qed.

Lemma packChunks_ordered maxChars headerChars topicResult topicHeaderChars
    (sorted : list (ScoredChunk num)) (p p' : Packer num) (s s' : TopicSection num) :
  fold_left (packChunk maxChars headerChars topicResult topicHeaderChars)
            sorted (p, s) = (p', s') ->
  closedOrdered R p ->
  StronglySorted R (chunks s ++ sorted) ->
  closedOrdered R p' /\ ordered R s'.
Proof.
  revert p s. induction sorted as [|c rest IH]; intros p s E Hp Hs; cbn [fold_left] in E.
  - injection E as <- <-. split; [exact Hp|]. unfold ordered. now rewrite app_nil_r in Hs.
  - destruct (packChunk maxChars headerChars topicResult topicHeaderChars (p, s) c)
      as [p1 s1] eqn:E1.
    edestruct packChunk_ordered as [Hp1 Hs1]; [exact E1|exact Hp|exact Hs|].
    now apply (IH p1 s1).
Qed.

(** The topic results whose sorted chunks respect the order. *)
Variable ok : TopicResult num -> Prop.

Hypothesis sorted_in_order :
  forall topicResult, ok topicResult ->
    StronglySorted R (sortChunksChronologically (tr_chunks topicResult)).

Lemma packTopic_ordered maxChars headerChars (p : Packer num)
    (it : nat * TopicResult num) :
  ok (snd it) ->
  closedOrdered R p -> closedOrdered R (packTopic maxChars headerChars p it).
Proof.
  intros Hok Hp. unfold packTopic. destruct it as [topicIndex topicResult].
  destruct (List.length (tr_chunks topicResult) =? 0); [exact Hp|].
  match goal with
  | |- context [fold_left ?f ?l (p, ?s)] =>
      destruct (fold_left f l (p, s)) as [p' s'] eqn:E;
      edestruct packChunks_ordered as [[Hsc Hct] Hs];
        [exact E|exact Hp|now apply sorted_in_order|]
  end.
  destruct (0 <? List.length (chunks s')); [|split; assumption].
  split; cbn [superChunks currentTopics]; [exact Hsc|].
  apply Forall_app. split; [exact Hct|]. now constructor.
Qed.

Lemma createSuperChunksWithTopics_ordered topicResults maxChars allTopics :
  Forall ok topicResults ->
  Forall (fun sc => Forall (ordered R) (topics sc))
         (createSuperChunksWithTopics topicResults maxChars allTopics).
Proof.
  intros Hok. unfold createSuperChunksWithTopics.
  set (headerChars := strlen (formatChatPackageHeader allTopics)).
  assert (H : forall its p,
            Forall (fun it => ok (snd it)) its -> closedOrdered R p ->
            closedOrdered R (fold_left (packTopic maxChars headerChars) its p)).
  { induction its as [|it its IH]; intros p Hits Hp; simpl; [exact Hp|].
    inversion Hits; subst. apply IH; [assumption|]. now apply packTopic_ordered. }
  assert (Hits : Forall (fun it : nat * TopicResult num => ok (snd it))
                        (indexed topicResults)).
  { apply Forall_forall. intros [i tr] Hin. apply in_combine_r in Hin.
    rewrite Forall_forall in Hok. now apply Hok. }
  match goal with
  | |- context [fold_left _ _ ?p0] =>
      assert (H0 : closedOrdered R p0) by (split; constructor)
  end.
  specialize (H (indexed topicResults) _ Hits H0).
  destruct H as [Hsc Hct].
  match goal with
  | |- context [if ?b then _ else _] => destruct b
  end; [|exact Hsc].
  apply Forall_app. split; [exact Hsc|]. now constructor.
Qed.

End Packer.

End PackFacts.

Module PackTheorems.
Import Js Order PackSpec Samples QuerySamples JsFacts Search RankTheorems PackFacts.

Section Claim.
Context {num : Type} {F : Num.Format num}.

(** C7, amended: the chunks of every topic section of every emitted super
    chunk are in ascending order of (documentId, chunkNumber): for every
    adjacent pair [(c1, c2)] the key of [c1] is at most that of [c2] in
    lexicographic order.  The order is strict, as the claim has it, when no
    two chunks of a topic result share their (documentId, chunkNumber). *)
Theorem sections_in_chronological_order (topicResults : list (TopicResult num))
    (maxCharsPerSuperChunk : Z) (allTopics : list string) :
  Forall (fun superChunk =>
            Forall (fun topicSection => Sorted keyLe (chunks topicSection))
                   (topics superChunk))
         (createSuperChunksWithTopics topicResults maxCharsPerSuperChunk allTopics)
  /\ (Forall (fun topicResult => NoDup (map keyOf (tr_chunks topicResult)))
             topicResults ->
      Forall (fun superChunk =>
                Forall (fun topicSection => Sorted keyLt (chunks topicSection))
                       (topics superChunk))
             (createSuperChunksWithTopics topicResults maxCharsPerSuperChunk allTopics)).
Proof.
  split.
  - eapply Forall_impl;
      [|apply createSuperChunksWithTopics_ordered
          with (R := @keyLe num) (ok := fun _ => True)].
    + intros superChunk Hsc. eapply Forall_impl; [|exact Hsc].
      intros topicSection. apply StronglySorted_Sorted.
    + intros topicResult _. apply sortChunksChronologically_sorted.
    + apply Forall_forall. auto.
  - intros Hkeys.
    eapply Forall_impl;
      [|apply createSuperChunksWithTopics_ordered
          with (R := @keyLt num)
               (ok := fun topicResult => NoDup (map keyOf (tr_chunks topicResult)))].
    + intros superChunk Hsc. eapply Forall_impl; [|exact Hsc].
      intros topicSection. apply StronglySorted_Sorted.
    + intros topicResult. apply sortChunksChronologically_strict.
    + exact Hkeys.
Qed.

(** Without the premise the order is still chronological, though not
    strictly: chunks that share their key stand side by side. *)
Lemma sections_in_weak_chronological_order (topicResults : list (TopicResult num))
    (maxCharsPerSuperChunk : Z) (allTopics : list string) :
  Forall (fun superChunk =>
            Forall (fun topicSection => Sorted keyLe (chunks topicSection))
                   (topics superChunk))
         (createSuperChunksWithTopics topicResults maxCharsPerSuperChunk allTopics).
Proof.
  eapply Forall_impl;
    [|apply createSuperChunksWithTopics_ordered
        with (R := @keyLe num) (ok := fun _ => True)].
  - intros superChunk Hsc. eapply Forall_impl; [|exact Hsc].
    intros topicSection. apply StronglySorted_Sorted.
  - intros topicResult _. apply sortChunksChronologically_sorted.
  - apply Forall_forall. auto.
Qed.

End Claim.

Lemma sections_in_chronological_order_witness :
  Forall (fun superChunk =>
            Forall (fun topicSection => Sorted keyLt (chunks topicSection))
                   (topics superChunk))
         (createSuperChunksWithTopics [small_topic] 30000 ["fuel system"%string]).
Proof.
  apply (proj2 (sections_in_chronological_order [small_topic] 30000
                  ["fuel system"%string])).
  repeat constructor; simpl; intuition discriminate.
Defined.

(** C7, as stated, fails when a chunk is met twice: for the query that
    names document 1 twice the engine reads its chunks twice, every chunk
    is ranked twice, and the one topic section of the one super chunk holds
    the keys (1,0), (1,0), (1,1), (1,1): adjacent chunks with equal keys. *)
Lemma repeated_chunk_not_in_strict_order :
  exists topicResults,
    executeBlocks SCORING_CONFIG (blocks twice_search)
      (fetchChunksForQuery pump_store twice_search) = Some topicResults
    /\ map (fun superChunk =>
              map (fun topicSection => map keyOf (chunks topicSection))
                  (topics superChunk))
         (createSuperChunksWithTopics topicResults
            (maxCharsPerSuperChunk twice_search) (allTopics twice_search))
       = [ [ [ (1, 0); (1, 0); (1, 1); (1, 1) ] ] ]%Z
    /\ ~ Forall (fun superChunk =>
                   Forall (fun topicSection => Sorted keyLt (chunks topicSection))
                          (topics superChunk))
           (createSuperChunksWithTopics topicResults
              (maxCharsPerSuperChunk twice_search) (allTopics twice_search)).
Proof.
  eexists. split; [vm_compute; reflexivity|].
  split; [vm_compute; reflexivity|].
  intros H.
  assert (Hk : forall l : list (ScoredChunk float),
            Sorted keyLt l -> Sorted (fun a b : Z * Z =>
              (fst a < fst b \/ (fst a = fst b /\ snd a < snd b))%Z) (map keyOf l)).
  { induction 1 as [|a l _ IH Ha]; simpl; constructor; [exact IH|].
    destruct Ha; simpl; constructor. assumption. }
  match type of H with
  | Forall _ ?l =>
      assert (Hs : Forall (Forall (fun ks => Sorted (fun a b : Z * Z =>
                  (fst a < fst b \/ (fst a = fst b /\ snd a < snd b))%Z) ks))
                (map (fun superChunk =>
                        map (fun topicSection => map keyOf (chunks topicSection))
                            (topics superChunk)) l))
  end.
  { apply Forall_map. eapply Forall_impl; [|exact H].
    intros superChunk Hsc. apply Forall_map. eapply Forall_impl; [|exact Hsc].
    intros topicSection. apply Hk. }
  match type of Hs with Forall _ ?l => set (keys := l) in Hs end.
  vm_compute in keys. subst keys.
  inversion Hs as [|? ? Hsuper _]. inversion Hsuper as [|? ? Hsection _].
  inversion Hsection as [|? ? _ Hhead]. inversion Hhead as [|? ? Hlt].
  simpl in Hlt. lia.
Qed.

(** C1 at a failing input, the standard tier of 30000 characters: the
    fifteen chunks are packed into one super chunk that the packer counts as
    29976 characters; the text the formatter emits for it has 30060. *)
Lemma rendered_text_exceeds_limit :
  map (fun s => (totalChars s, map (fun t => List.length (chunks t)) (topics s)))
      (createSuperChunksWithTopics [fuel_topic] 30000 ["fuel system"%string])
    = [ (29976%Z, [15]) ]
  /\ option_map (map (fun f => charCount f))
       (formatSuperChunks manual
          (createSuperChunksWithTopics [fuel_topic] 30000 ["fuel system"%string])
          ["fuel system"%string])
     = Some [ 30060%Z ].
Proof. split; vm_compute; reflexivity. Qed.

End PackTheorems.


(* ===================================================================== *)
(** * What the packer does keep within the limit                          *)
(* ===================================================================== *)

Module AccountingTheorems.
Import Js Order PackSpec Samples JsFacts Search.

Lemma chunksIn_app {num} (l1 l2 : list (TopicSection num)) :
  chunksIn (l1 ++ l2) = chunksIn l1 + chunksIn l2.
Proof. unfold chunksIn. now rewrite map_app, list_sum_app. Qed.

Section Packer.
Context {num : Type} {F : Num.Format num}.
Variable maxChars : Z.
Variable headerChars : Z.

Lemma chunksIn_nonempty (sections : list (TopicSection num)) :
  Forall nonempty sections -> 0 < List.length sections -> 0 < chunksIn sections.
Proof.
  intros H Hl. destruct H as [|t sections Ht _]; [simpl in Hl; lia|].
  unfold chunksIn. simpl. unfold nonempty in Ht.
  destruct (chunks t); [congruence|simpl; lia].
Qed.

Lemma packChunk_invariant topicResult topicHeaderChars
    (p p' : Packer num) (s s' : TopicSection num) (c : ScoredChunk num) :
  packChunk maxChars headerChars topicResult topicHeaderChars (p, s) c = (p', s') ->
  invariant maxChars headerChars p s -> invariant maxChars headerChars p' s'.
Proof.
  intros E (Hsc & Hne & Hfill). unfold packChunk in E.
  unfold fillingWithinLimit in Hfill.
  destruct ((maxChars <? _)%Z && _) eqn:B; injection E as <- <-.
  - apply andb_true_iff in B as [_ B]. apply orb_true_iff in B.
    assert (Hne' : Forall nonempty
              (if 0 <? List.length (chunks s)
               then currentTopics p ++ [s] else currentTopics p)).
    { destruct (0 <? List.length (chunks s)) eqn:L; [|exact Hne].
      apply Forall_app. split; [exact Hne|]. constructor; [|constructor].
      unfold nonempty. apply Nat.ltb_lt in L. destruct (chunks s); [simpl in L; lia|congruence]. }
    split; [|split].
    + cbn [superChunks]. apply Forall_app. split; [exact Hsc|].
      constructor; [|constructor]. split; [|exact Hne'].
      unfold withinLimit. cbn [totalChars topics].
      destruct Hfill as [Hfill | Hfill]; [left; destruct (isFirstSuperChunk p); lia|right].
      destruct (0 <? List.length (chunks s)) eqn:L.
      * apply Nat.ltb_lt in L. rewrite chunksIn_app. unfold chunksIn at 2. simpl. lia.
      * apply Nat.ltb_ge in L. destruct B as [B | B]; [|congruence].
        apply Nat.ltb_lt in B. pose proof (chunksIn_nonempty Hne B). lia.
    + constructor.
    + right. unfold chunksIn. simpl. lia.
  - unfold invariant, fillingWithinLimit, pushChunk.
    cbn [superChunks currentChars currentTopics isFirstSuperChunk chunks].
    split; [exact Hsc|]. split; [exact Hne|].
    rewrite length_app. cbn [List.length].
    apply andb_false_iff in B as [B | B].
    + left. apply Z.ltb_ge in B.
      assert (Heq : (List.length (chunks s) + 1 =? 1) = (List.length (chunks s) =? 0)).
      { destruct (List.length (chunks s)); [reflexivity|].
        rewrite Nat.add_1_r. reflexivity. }
      rewrite Heq.
      destruct (List.length (chunks s) =? 0); destruct (isFirstSuperChunk p); lia.
    + right. apply orb_false_iff in B as [B1 B2].
      apply Nat.ltb_ge in B1, B2.
      assert (Hempty : currentTopics p = [])
        by (destruct (currentTopics p); [reflexivity|simpl in B1; lia]).
      rewrite Hempty. unfold chunksIn. simpl. lia.
Qed.

Lemma packChunks_invariant topicResult topicHeaderChars
    (cs : list (ScoredChunk num)) (p p' : Packer num) (s s' : TopicSection num) :
  fold_left (packChunk maxChars headerChars topicResult topicHeaderChars) cs (p, s)
    = (p', s') ->
  invariant maxChars headerChars p s -> invariant maxChars headerChars p' s'.
Proof.
  revert p s. induction cs as [|c cs IH]; intros p s E Hinv; cbn [fold_left] in E.
  - now injection E as <- <-.
  - destruct (packChunk maxChars headerChars topicResult topicHeaderChars (p, s) c)
      as [p1 s1] eqn:E1.
    apply (IH p1 s1); [exact E|]. eapply packChunk_invariant; eassumption.
Qed.

Lemma invariant_section (p : Packer num) (s s' : TopicSection num) :
  chunks s = chunks s' ->
  invariant maxChars headerChars p s -> invariant maxChars headerChars p s'.
Proof.
  unfold invariant, fillingWithinLimit. intros ->. auto.
Qed.

Lemma packTopic_invariant (p : Packer num) (it : nat * TopicResult num) :
  invariant maxChars headerChars p noSection ->
  invariant maxChars headerChars (packTopic maxChars headerChars p it) noSection.
Proof.
  intros Hinv. unfold packTopic. destruct it as [topicIndex topicResult].
  destruct (List.length (tr_chunks topicResult) =? 0); [exact Hinv|].
  match goal with
  | |- context [fold_left ?f ?l (p, ?s)] =>
      destruct (fold_left f l (p, s)) as [p' s'] eqn:E;
      apply packChunks_invariant in E;
        [|now apply invariant_section with noSection]
  end.
  destruct E as (Hsc & Hne & Hfill). unfold fillingWithinLimit in Hfill.
  destruct (0 <? List.length (chunks s')) eqn:L.
  - apply Nat.ltb_lt in L. unfold invariant, fillingWithinLimit.
    cbn [superChunks currentChars currentTopics isFirstSuperChunk].
    split; [exact Hsc|]. split.
    + apply Forall_app. split; [exact Hne|]. constructor; [|constructor].
      unfold nonempty. destruct (chunks s'); [simpl in L; lia|congruence].
    + rewrite chunksIn_app.
      replace (chunksIn [s']) with (List.length (chunks s'))
        by (unfold chunksIn; simpl; lia).
      simpl. destruct Hfill as [H | H]; [now left|right; lia].
  - apply Nat.ltb_ge in L. unfold invariant, fillingWithinLimit.
    split; [exact Hsc|]. split; [exact Hne|].
    simpl. destruct Hfill as [H | H]; [now left|right; lia].
Qed.

End Packer.

Section Claim.
Context {num : Type} {F : Num.Format num}.

(** By the packer's own count every super chunk is within the limit, unless
    it holds exactly one chunk: [totalChars], the package header on the first
    super chunk plus the topic headers and chunk envelopes the packer adds
    up, is at most [maxCharsPerSuperChunk].  No emitted section is empty. *)
Theorem totalChars_within_limit (topicResults : list (TopicResult num))
    (maxCharsPerSuperChunk : Z) (allTopics : list string) :
  Forall (fun superChunk =>
            ((totalChars superChunk <= maxCharsPerSuperChunk)%Z
             \/ chunksIn (topics superChunk) = 1)
            /\ Forall (fun topicSection => chunks topicSection <> [])
                      (topics superChunk))
         (createSuperChunksWithTopics topicResults maxCharsPerSuperChunk allTopics).
Proof.
  unfold createSuperChunksWithTopics.
  set (headerChars := strlen (formatChatPackageHeader allTopics)).
  assert (H : forall its p,
            invariant maxCharsPerSuperChunk headerChars p noSection ->
            invariant maxCharsPerSuperChunk headerChars
              (fold_left (packTopic maxCharsPerSuperChunk headerChars) its p) noSection).
  { induction its as [|it its IH]; intros p Hp; simpl; [exact Hp|].
    apply IH. now apply packTopic_invariant. }
  match goal with
  | |- context [fold_left _ _ ?p0] =>
      assert (H0 : invariant maxCharsPerSuperChunk headerChars p0 noSection)
  end.
  { split; [constructor|]. split; [constructor|]. right. cbn. lia. }
  specialize (H (indexed topicResults) _ H0).
  destruct H as (Hsc & Hne & Hfill). unfold fillingWithinLimit in Hfill.
  match goal with
  | |- context [if ?b then _ else _] => destruct b eqn:L
  end; [|exact Hsc].
  apply Forall_app. split; [exact Hsc|]. constructor; [|constructor].
  cbn [totalChars topics]. split; [|exact Hne].
  apply Nat.ltb_lt in L. pose proof (chunksIn_nonempty Hne L).
  simpl in Hfill. destruct Hfill as [Hf | Hf]; [left|right; lia].
  match goal with |- context [isFirstSuperChunk ?q] => destruct (isFirstSuperChunk q) end; lia.
Qed.

End Claim.

End AccountingTheorems.


(* ===================================================================== *)
(** * The tokenizer                                                       *)
(* ===================================================================== *)

Module TokenFacts.
Import Js Order TokenSpec JsFacts Vectorizer.

Lemma substring_0_cons (c : ascii) (r : string) (n : nat) :
  String.substring 0 (S n) (String c r) = String c (String.substring 0 n r).
Proof. reflexivity. Qed.

Lemma substring_0_length (s : string) (n : nat) :
  n <= String.length s -> String.length (String.substring 0 n s) = n.
Proof.
  revert n. induction s as [|c s IH]; intros [|n] H; simpl in *; try lia.
  rewrite IH; lia.
Qed.

Lemma substring_skip (pre s : string) (n : nat) :
  String.substring (String.length pre) n (pre ++ s) = String.substring 0 n s.
Proof. induction pre as [|c pre IH]; simpl; [reflexivity|exact IH]. Qed.

Lemma append_cons_assoc (pre : string) (c : ascii) (s : string) :
  (pre ++ String c s)%string = ((pre ++ String c EmptyString) ++ s)%string.
Proof. induction pre as [|d pre IH]; simpl; [reflexivity|now rewrite IH]. Qed.

Lemma length_append (a b : string) :
  String.length (a ++ b) = String.length a + String.length b.
Proof. induction a as [|c a IH]; simpl; [reflexivity|now rewrite IH]. Qed.

(** The end the pattern finds: the characters consumed past the first
    [len] are in the class of the tail. *)
Lemma match_end_spec (s : string) (prev : ascii) (len e : nat) :
  match_end prev s len = Some e ->
  len <= e /\ e - len <= String.length s
  /\ all_chars is_tail (String.substring 0 (e - len) s) = true.
Proof.
  revert prev len. induction s as [|c r IH]; intros prev len;
    cbn [match_end next_is_word String.length].
  - destruct (xorb _ _); [|discriminate]. intros [= <-].
    rewrite Nat.sub_diag. simpl. repeat split; lia.
  - assert (Hhere : (if xorb (is_word prev) (is_word c) then Some len else None) = Some e ->
              len <= e /\ e - len <= S (String.length r)
              /\ all_chars is_tail (String.substring 0 (e - len) (String c r)) = true).
    { destruct (xorb _ _); [|discriminate]. intros [= <-].
      rewrite Nat.sub_diag. simpl. repeat split; lia. }
    destruct (is_tail c) eqn:Ec; [|exact Hhere].
    destruct (match_end c r (S len)) as [e'|] eqn:Em; [|exact Hhere].
    intros [= <-]. apply IH in Em as (H1 & H2 & H3).
    replace (e' - len) with (S (e' - S len)) by lia.
    rewrite substring_0_cons. simpl. rewrite Ec, H3. repeat split; lia.
Qed.

Section Scan.
Context {num : Type} (cfg : Config num).

Lemma scan_tokens (s pre : string) (prev_word : bool) (skip pos : nat) :
  pos = String.length pre ->
  Forall (fun t => tokenAt cfg (pre ++ s) t /\ pos + skip <= position t)
         (scan cfg prev_word skip pos s)
  /\ StronglySorted apart (scan cfg prev_word skip pos s).
Proof.
  revert pre prev_word skip pos.
  induction s as [|c r IH]; intros pre prev_word skip pos Hpos.
  - simpl. split; constructor.
  - assert (Hnext : forall b k,
              Forall (fun t => tokenAt cfg (pre ++ String c r) t /\ S pos + k <= position t)
                     (scan cfg b k (S pos) r)
              /\ StronglySorted apart (scan cfg b k (S pos) r)).
    { intros b k. rewrite append_cons_assoc. apply IH.
      rewrite length_append. simpl. lia. }
    assert (Hplain : forall b,
              Forall (fun t => tokenAt cfg (pre ++ String c r) t /\ pos + 0 <= position t)
                     (scan cfg b 0 (S pos) r)
              /\ StronglySorted apart (scan cfg b 0 (S pos) r)).
    { intros b. destruct (Hnext b 0) as [H1 H2]. split; [|exact H2].
      eapply Forall_impl; [|exact H1]. intros t [Ht Hp]. split; [exact Ht|lia]. }
    cbn [scan]. destruct skip as [|k].
    + destruct (negb prev_word && is_lower c) eqn:Estart; [|apply Hplain].
      destruct (match_end c r 1) as [e|] eqn:Em; [|apply Hplain].
      apply andb_true_iff in Estart as [_ Hlow].
      apply match_end_spec in Em as (He1 & He2 & Htail).
      destruct (Hnext (is_word c) (e - 1)) as [H1 H2].
      assert (Hsub : String.substring 0 e (String c r)
                     = String c (String.substring 0 (e - 1) r)).
      { destruct e as [|e]; [lia|]. rewrite substring_0_cons.
        now replace (S e - 1) with e by lia. }
      assert (Hlen : String.length (String.substring 0 e (String c r)) = e).
      { apply substring_0_length. simpl. lia. }
      unfold keep_token.
      destruct (array_includes (stopwords cfg) (String.substring 0 e (String c r))) eqn:Estop.
      { simpl. split; [|exact H2].
        eapply Forall_impl; [|exact H1]. intros t [Ht Hp]. split; [exact Ht|lia]. }
      destruct (String.length (String.substring 0 e (String c r)) <? 2) eqn:Eshort.
      { simpl. split; [|exact H2].
        eapply Forall_impl; [|exact H1]. intros t [Ht Hp]. split; [exact Ht|lia]. }
      apply Nat.ltb_ge in Eshort. cbn [app]. split.
      * constructor.
        -- split; [|cbn [position]; lia]. unfold tokenAt. cbn [term position type].
           split; [exact Eshort|]. split; [exact Estop|]. split.
           ++ rewrite Hsub. exists c, (String.substring 0 (e - 1) r). auto.
           ++ split; [|reflexivity]. rewrite Hlen, Hpos. apply substring_skip.
        -- eapply Forall_impl; [|exact H1]. intros t [Ht Hp]. split; [exact Ht|lia].
      * constructor; [exact H2|].
        eapply Forall_impl; [|exact H1]. intros t [_ Hp].
        unfold apart. cbn [term position]. rewrite Hlen. lia.
    + destruct (Hnext (is_word c) k) as [H1 H2]. split; [|exact H2].
      eapply Forall_impl; [|exact H1]. intros t [Ht Hp]. split; [exact Ht|lia].
Qed.

End Scan.

(** Characters of a word are not changed by [toLowerCase]. *)
Lemma lower_char_tail (c : ascii) : is_tail c = true -> lower_char c = c.
Proof.
  destruct c as [[] [] [] [] [] [] [] []]; vm_compute; intros H;
    first [reflexivity | discriminate H].
Qed.

Lemma is_lower_tail (c : ascii) : is_lower c = true -> is_tail c = true.
Proof. unfold is_tail. intros ->. reflexivity. Qed.

Lemma toLowerCase_tail (s : string) :
  all_chars is_tail s = true -> toLowerCase s = s.
Proof.
  induction s as [|c s IH]; simpl; [reflexivity|].
  intros H. apply andb_true_iff in H as [Hc Hs].
  now rewrite lower_char_tail, IH.
Qed.

Lemma wordShaped_plain (s : string) : wordShaped s -> plainTerm s.
Proof.
  intros (c & r & -> & Hc & Hr). split; [discriminate|].
  simpl. rewrite lower_char_tail by now apply is_lower_tail.
  now rewrite toLowerCase_tail.
Qed.

Lemma toLowerCase_append (a b : string) :
  toLowerCase (a ++ b) = (toLowerCase a ++ toLowerCase b)%string.
Proof. induction a as [|c a IH]; simpl; [reflexivity|now rewrite IH]. Qed.

Lemma plainTerm_join (a b : string) :
  plainTerm a -> plainTerm b -> plainTerm (a ++ " " ++ b).
Proof.
  intros [Ha1 Ha2] [Hb1 Hb2]. split.
  - destruct a; [congruence|discriminate].
  - rewrite !toLowerCase_append, Ha2, Hb2. reflexivity.
Qed.

Lemma tokens_wellformed {num} (cfg : Config num) (text : string) :
  Forall (isToken cfg text) (tokenize cfg text)
  /\ StronglySorted apart (tokenize cfg text).
Proof.
  unfold tokenize.
  destruct (@scan_tokens num cfg (toLowerCase text) EmptyString false 0 0 eq_refl)
    as [H1 H2].
  split; [|exact H2].
  eapply Forall_impl; [|exact H1]. intros t [Ht _]. exact Ht.
Qed.

(** The terms of a list of phrases: two or three neighbouring tokens joined
    by single spaces. *)
Lemma extractPhrases_terms (tokens : list TermOcc) (p : TermOcc) :
  In p (extractPhrases tokens) ->
  exists a b, In a tokens /\ In b tokens
    /\ (term p = (term a ++ " " ++ term b)%string
        \/ exists c, In c tokens
             /\ term p = (term a ++ " " ++ term b ++ " " ++ term c)%string).
Proof.
  unfold extractPhrases. rewrite in_app_iff, !in_map_iff.
  intros [(i & <- & Hi) | (i & <- & Hi)]; apply in_seq in Hi; cbn [term].
  - exists (at_index tokens i), (at_index tokens (i + 1)).
    split; [apply nth_In; lia|]. split; [apply nth_In; lia|]. now left.
  - exists (at_index tokens i), (at_index tokens (i + 1)).
    split; [apply nth_In; lia|]. split; [apply nth_In; lia|]. right.
    exists (at_index tokens (i + 2)). split; [apply nth_In; lia|reflexivity].
Qed.

(** Tokens and phrases are plain terms. *)
Lemma allTerms_plain {num} (cfg : Config num) (text : string) :
  Forall (fun t => plainTerm (term t)) (allTermsOf cfg text).
Proof.
  assert (Htok : forall t, In t (tokenize cfg text) -> plainTerm (term t)).
  { destruct (tokens_wellformed cfg text) as [H _]. rewrite Forall_forall in H.
    intros t Ht. apply wordShaped_plain. apply (H t Ht). }
  unfold allTermsOf. apply Forall_app. split; apply Forall_forall; [exact Htok|].
  intros p Hp. apply extractPhrases_terms in Hp as (a & b & Ha & Hb & [-> | (c & Hc & ->)]).
  - apply plainTerm_join; auto.
  - apply plainTerm_join; [auto|]. apply plainTerm_join; auto.
Qed.

End TokenFacts.

Module TokenTheorems.
Import Js Order TokenSpec Samples JsFacts Vectorizer TokenFacts.

Section Tokens.
Context {num : Type} (cfg : Config num).

(** The tokens of a text: each is a word of the shape [[a-z][a-z0-9-]*] with
    at least two characters that is no stop word and stands at its position
    in the lowercased text; the tokens come in the order of the text and do
    not overlap. *)
Theorem tokenize_tokens (text : string) :
  Forall (isToken cfg text) (tokenize cfg text)
  /\ StronglySorted apart (tokenize cfg text).
Proof. apply tokens_wellformed. Qed.

End Tokens.

End TokenTheorems.


(* ===================================================================== *)
(** * The index as a whole                                                *)
(* ===================================================================== *)

Module IndexFacts.
Import Js Order IndexSpec TokenSpec PairSpec JsFacts Vectorizer IndexerFacts TokenFacts.

(** ** Sums *)

Lemma list_sum_map_add {A} (f g : A -> nat) (l : list A) :
  list_sum (map (fun x => f x + g x) l) = list_sum (map f l) + list_sum (map g l).
Proof. induction l as [|x l IH]; simpl; [reflexivity|]. rewrite IH. lia. Qed.

Lemma list_sum_map_zero {A} (f : A -> nat) (l : list A) :
  (forall x, In x l -> f x = 0) -> list_sum (map f l) = 0.
Proof.
  induction l as [|x l IH]; intros H; simpl; [reflexivity|].
  rewrite H by now left. rewrite IH; [reflexivity|]. intros y Hy. apply H. now right.
Qed.

Lemma list_sum_swap {A B} (f : A -> B -> nat) (l1 : list A) (l2 : list B) :
  list_sum (map (fun i => list_sum (map (f i) l2)) l1)
  = list_sum (map (fun j => list_sum (map (fun i => f i j) l1)) l2).
Proof.
  induction l1 as [|i l1 IH]; simpl.
  - symmetry. now apply list_sum_map_zero.
  - rewrite IH. now rewrite <- list_sum_map_add.
Qed.

(** A sum over a stretch of positions is the sum over all positions of the
    terms within the stretch. *)
Lemma list_sum_stretch (g : nat -> nat) (a len n : nat) :
  a + len <= n ->
  list_sum (map g (seq a len))
  = list_sum (map (fun j => if (a <=? j) && (j <? a + len) then g j else 0) (seq 0 n)).
Proof.
  intros H.
  replace n with (a + (len + (n - a - len))) by lia.
  rewrite !seq_app, !map_app, !list_sum_app. simpl.
  rewrite (list_sum_map_zero _ (seq 0 a)).
  2:{ intros j Hj. apply in_seq in Hj.
      destruct (a <=? j) eqn:E; [apply Nat.leb_le in E; lia|reflexivity]. }
  rewrite (list_sum_map_zero _ (seq (a + len) _)).
  2:{ intros j Hj. apply in_seq in Hj.
      destruct (j <? a + len) eqn:E; [apply Nat.ltb_lt in E; lia|].
      now rewrite andb_false_r. }
  rewrite Nat.add_0_r. cbn [Nat.add]. f_equal.
  apply map_ext_in. intros j Hj. apply in_seq in Hj.
  replace (a <=? j) with true by (symmetry; apply Nat.leb_le; lia).
  replace (j <? a + len) with true by (symmetry; apply Nat.ltb_lt; lia).
  reflexivity.
Qed.

(** ** Counts *)

Lemma count_of_set (v : JsMap nat) (k U : string) (c : nat) :
  count_of (map_set v k c) U = if String.eqb k U then c else count_of v U.
Proof.
  unfold count_of. destruct (String.eqb k U) eqn:E.
  - apply String.eqb_eq in E. subst U. now rewrite map_get_set_same.
  - apply String.eqb_neq in E. now rewrite map_get_set_other.
Qed.

Lemma count_of_increment (v : JsMap nat) (k U : string) :
  count_of (increment v k) U = count_of v U + (if String.eqb k U then 1 else 0).
Proof.
  unfold increment. rewrite count_of_set. destruct (String.eqb k U) eqn:E; [|lia].
  apply String.eqb_eq in E. now subst U.
Qed.

Lemma in_map_set {V} (m : JsMap V) (k : string) (v : V) (e : string * V) :
  In e (map_set m k v) -> e = (k, v) \/ In e m.
Proof.
  induction m as [|[k' v'] m IH]; simpl.
  - intros [<- | []]. now left.
  - destruct (String.eqb k' k) eqn:E.
    + apply String.eqb_eq in E. subst k'. intros [<- | H]; auto.
    + intros [<- | H]; [auto|]. apply IH in H as [H | H]; auto.
Qed.

Lemma increment_positive (v : JsMap nat) (k : string) :
  positive v -> positive (increment v k).
Proof.
  unfold positive, increment. rewrite !Forall_forall. intros H e He.
  apply in_map_set in He as [-> | He]; [simpl; lia|auto].
Qed.

Lemma increment_wf (v : JsMap nat) (k : string) : map_wf v -> map_wf (increment v k).
Proof. apply map_set_wf. Qed.

Lemma countFrequencies_loop (items : list TermOcc) (termFreq : JsMap nat) (t : string) :
  count_of (fold_left (fun termFreq item => increment termFreq (term item)) items termFreq) t
  = count_of termFreq t + occurrences (map term items) t.
Proof.
  revert termFreq. induction items as [|x items IH]; intros termFreq; simpl.
  - unfold occurrences. simpl. lia.
  - rewrite IH, count_of_increment. unfold occurrences. simpl.
    destruct (string_dec (term x) t) as [-> | Hne].
    + rewrite String.eqb_refl. lia.
    + apply String.eqb_neq in Hne. rewrite Hne. lia.
Qed.

Lemma countFrequencies_good (items : list TermOcc) (termFreq : JsMap nat) :
  map_wf termFreq -> positive termFreq ->
  map_wf (fold_left (fun termFreq item => increment termFreq (term item)) items termFreq)
  /\ positive (fold_left (fun termFreq item => increment termFreq (term item)) items termFreq).
Proof.
  revert termFreq. induction items as [|x items IH]; intros termFreq Hwf Hpos; simpl.
  - auto.
  - apply IH; [now apply increment_wf|now apply increment_positive].
Qed.

Section Steps.
Variable windowSize : nat.
Variable validTerms : list TermOcc.

Local Abbreviation termAt j := (term (at_index validTerms j)).

Lemma window_loop_count (i : nat) (js : list nat) (v : JsMap nat) (U : string) :
  count_of (fold_left (window_step validTerms i) js v) U
  = count_of v U
    + list_sum (map (fun j => if negb (i =? j) && String.eqb (termAt j) U then 1 else 0) js).
Proof.
  revert v. induction js as [|j js IH]; intros v; simpl; [lia|].
  rewrite IH. unfold window_step. destruct (i =? j); simpl; [lia|].
  rewrite count_of_increment. lia.
Qed.

Lemma window_loop_good (i : nat) (js : list nat) (v : JsMap nat) :
  map_wf v -> positive v ->
  map_wf (fold_left (window_step validTerms i) js v)
  /\ positive (fold_left (window_step validTerms i) js v).
Proof.
  revert v. induction js as [|j js IH]; intros v Hwf Hpos; simpl; [auto|].
  apply IH; unfold window_step; destruct (i =? j); auto.
  - now apply increment_wf.
  - now apply increment_positive.
Qed.

Lemma matrix_loop_count (centres : list nat) (m : JsMap (JsMap nat)) (T U : string) :
  count_of (vectorOf (fold_left (matrix_step windowSize validTerms) centres m) T) U
  = count_of (vectorOf m T) U
    + list_sum
        (map (fun i =>
                if String.eqb (termAt i) T
                then list_sum
                       (map (fun j => if negb (i =? j) && String.eqb (termAt j) U
                                      then 1 else 0)
                            (window windowSize (List.length validTerms) i))
                else 0)
             centres).
Proof.
  revert m. induction centres as [|i centres IH]; intros m; simpl; [lia|].
  rewrite IH, matrix_step_vector.
  destruct (String.eqb (termAt i) T); [|lia].
  rewrite window_loop_count. lia.
Qed.

Lemma matrix_step_good (m : JsMap (JsMap nat)) (i : nat) :
  goodMatrix m -> goodMatrix (matrix_step windowSize validTerms m i).
Proof.
  intros [Hwf Hall]. unfold matrix_step.
  set (m' := if map_has m (termAt i) then m else map_set m (termAt i) []).
  assert (Hm' : goodMatrix m').
  { unfold m'. destruct (map_has m (termAt i)); [now split|]. split.
    - now apply map_set_wf.
    - apply Forall_forall. intros e He. apply in_map_set in He as [-> | He].
      + simpl. split; constructor.
      + rewrite Forall_forall in Hall. auto. }
  destruct Hm' as [Hwf' Hall']. split; [now apply map_set_wf|].
  apply Forall_forall. intros e He. apply in_map_set in He as [-> | He].
  - cbn [snd]. apply window_loop_good.
    + destruct (map_get m' (termAt i)) as [v|] eqn:G; [|constructor].
      apply map_get_in in G. rewrite Forall_forall in Hall'. apply (Hall' _ G).
    + destruct (map_get m' (termAt i)) as [v|] eqn:G; [|constructor].
      apply map_get_in in G. rewrite Forall_forall in Hall'. apply (Hall' _ G).
  - rewrite Forall_forall in Hall'. auto.
Qed.

Lemma matrix_loop_good (centres : list nat) (m : JsMap (JsMap nat)) :
  goodMatrix m -> goodMatrix (fold_left (matrix_step windowSize validTerms) centres m).
Proof.
  revert m. induction centres as [|i centres IH]; intros m H; simpl; [exact H|].
  apply IH. now apply matrix_step_good.
Qed.

End Steps.

(** ** Pairs of positions *)

Lemma near_sym (w i j : nat) : near w i j = near w j i.
Proof.
  unfold near. rewrite (Nat.eqb_sym i j).
  destruct (j =? i); simpl; [reflexivity|].
  apply eq_true_iff_eq. rewrite !andb_true_iff, !Nat.leb_le. lia.
Qed.

Lemma meets_sym (w : nat) (ts : list string) (a b : string) (i j : nat) :
  meets w ts a b i j = meets w ts b a j i.
Proof.
  unfold meets. rewrite (near_sym w i j).
  now rewrite (andb_comm (String.eqb (nth i ts EmptyString) a)).
Qed.

Lemma pairs_sym (w : nat) (ts : list string) (a b : string) :
  pairs w ts a b = pairs w ts b a.
Proof.
  unfold pairs. rewrite list_sum_swap. f_equal. apply map_ext. intros j.
  f_equal. apply map_ext. intros i. apply meets_sym.
Qed.

Lemma term_at_index (validTerms : list TermOcc) (j : nat) :
  term (at_index validTerms j) = nth j (map term validTerms) EmptyString.
Proof. unfold at_index. now rewrite <- (map_nth term). Qed.

Section Index.
Context {num : Type} (cfg : Config num).

(** The count the matrix keeps for [b] in the vector of [a]. *)
Lemma matrix_count (text : string) (a b : string) :
  count_of (vectorOf (matrix (buildCoOccurrenceMatrix cfg text)) a) b
  = pairs (windowSize cfg) (sequenceOf cfg text) a b.
Proof.
  cbn [buildCoOccurrenceMatrix matrix]. rewrite matrix_loop_count.
  cbn [vectorOf map_get count_of]. unfold pairs, sequenceOf.
  rewrite length_map. set (vt := validTermsOf cfg text).
  cbn [Nat.add]. f_equal. apply map_ext_in. intros i Hi. apply in_seq in Hi.
  unfold meets. rewrite <- term_at_index.
  destruct (String.eqb (term (at_index vt i)) a).
  2:{ symmetry. now apply list_sum_map_zero. }
  unfold window.
  rewrite list_sum_stretch with (n := List.length vt) by lia.
  f_equal. apply map_ext_in. intros j Hj. apply in_seq in Hj.
  rewrite <- term_at_index. unfold near.
  assert (Hb : ((Nat.max 0 (i - windowSize cfg) <=? j)
                && (j <? Nat.max 0 (i - windowSize cfg)
                         + (S (Nat.min (List.length vt - 1) (i + windowSize cfg))
                            - Nat.max 0 (i - windowSize cfg))))
               = ((i - windowSize cfg <=? j) && (j <=? i + windowSize cfg))).
  { apply eq_true_iff_eq.
    rewrite !andb_true_iff, !Nat.leb_le, Nat.ltb_lt. lia. }
  rewrite Hb.
  destruct (i =? j), (String.eqb (term (at_index vt j)) b),
    (i - windowSize cfg <=? j), (j <=? i + windowSize cfg); reflexivity.
Qed.

Lemma matrix_good (text : string) :
  goodMatrix (matrix (buildCoOccurrenceMatrix cfg text)).
Proof.
  cbn [buildCoOccurrenceMatrix matrix]. apply matrix_loop_good.
  split; constructor.
Qed.

Lemma frequency_occurrences (text : string) (t : string) :
  count_of (termFrequencies (buildCoOccurrenceMatrix cfg text)) t
  = occurrences (map term (allTermsOf cfg text)) t.
Proof.
  cbn [buildCoOccurrenceMatrix termFrequencies]. unfold countFrequencies.
  rewrite countFrequencies_loop. reflexivity.
Qed.

Lemma index_maps_in_order_aux (text : string) :
  goodMatrix (matrix (buildCoOccurrenceMatrix cfg text))
  /\ map_wf (termFrequencies (buildCoOccurrenceMatrix cfg text))
  /\ positive (termFrequencies (buildCoOccurrenceMatrix cfg text)).
Proof.
  split; [apply matrix_good|].
  cbn [buildCoOccurrenceMatrix termFrequencies]. unfold countFrequencies.
  apply countFrequencies_good; constructor.
Qed.

End Index.

End IndexFacts.

Module IndexTheorems.
Import Js Order IndexSpec TokenSpec PairSpec Samples JsFacts Vectorizer.
Import IndexerFacts IndexerTheorems TokenFacts IndexFacts.

Lemma map_get_of_in {V} (m : JsMap V) (k : string) (v : V) :
  map_wf m -> In (k, v) m -> map_get m k = Some v.
Proof.
  unfold map_wf. induction m as [|[k' v'] m IH]; simpl; [tauto|].
  intros Hnd [[= -> ->] | Hin].
  - now rewrite String.eqb_refl.
  - inversion Hnd as [|? ? Hk Hnd']; subst.
    destruct (String.eqb k' k) eqn:E; [|auto].
    apply String.eqb_eq in E. subst k'. exfalso. apply Hk.
    apply in_map_iff. now exists (k, v).
Qed.

Lemma has_positive_count (m : JsMap nat) (k : string) :
  positive m -> map_has m k = true -> 1 <= count_of m k.
Proof.
  unfold positive, map_has, count_of. intros Hpos.
  destruct (map_get m k) as [c|] eqn:G; [|discriminate]. intros _.
  apply map_get_in in G. rewrite Forall_forall in Hpos. apply (Hpos _ G).
Qed.

Lemma occurrences_in (ts : list string) (t : string) :
  1 <= occurrences ts t <-> In t ts.
Proof. unfold occurrences. symmetry. apply (count_occ_In string_dec). Qed.

(** One key among keys without repetition. *)
Lemma list_sum_one (ks : list string) (x : string) :
  NoDup ks -> In x ks ->
  list_sum (map (fun k => if string_dec x k then 1 else 0) ks) = 1.
Proof.
  induction 1 as [|k ks Hk Hnd IH]; intros Hin; [destruct Hin|].
  simpl. destruct (string_dec x k) as [-> | Hne].
  - rewrite list_sum_map_zero; [reflexivity|].
    intros y Hy. destruct (string_dec k y) as [-> | _]; [contradiction|reflexivity].
  - destruct Hin as [-> | Hin]; [contradiction|]. now rewrite IH.
Qed.

Lemma length_by_keys (ks l : list string) :
  NoDup ks -> (forall x, In x l -> In x ks) ->
  List.length l = list_sum (map (occurrences l) ks).
Proof.
  intros Hnd. induction l as [|x l IH]; intros Hin.
  - simpl. symmetry. now apply list_sum_map_zero.
  - cbn [List.length]. rewrite IH by (intros y Hy; apply Hin; now right).
    pose proof (@list_sum_one ks x Hnd (Hin x (or_introl eq_refl))) as H1.
    transitivity
      (list_sum (map (fun k => (if string_dec x k then 1 else 0) + occurrences l k) ks)).
    + rewrite list_sum_map_add, H1. reflexivity.
    + f_equal. apply map_ext. intros k.
      unfold occurrences. simpl. destruct (string_dec x k); lia.
Qed.

Lemma occurrences_filter (p : string -> bool) (items : list TermOcc) (k : string) :
  occurrences (map term (filter (fun item => p (term item)) items)) k
  = if p k then occurrences (map term items) k else 0.
Proof.
  unfold occurrences. induction items as [|x items IH]; simpl.
  - now destruct (p k).
  - destruct (p (term x)) eqn:Px; simpl.
    + destruct (string_dec (term x) k) as [<- | Hne]; rewrite IH.
      * now rewrite Px.
      * reflexivity.
    + rewrite IH. destruct (string_dec (term x) k) as [<- | Hne]; [|reflexivity].
      now rewrite Px.
Qed.

Section Index.
Context {num : Type} (cfg : Config num).

(** The count the index keeps for [b] in the vector of [a] is the number of
    ordered pairs of different positions of the filtered term sequence, at
    most [windowSize] apart, with [a] at the first and [b] at the second;
    hence the matrix is symmetric: [matrix[a][b] = matrix[b][a]]. *)
Theorem cooccurrence_counts_pairs (text : string) (a b : string) :
  count_of (vectorOf (matrix (buildCoOccurrenceMatrix cfg text)) a) b
  = pairs (windowSize cfg) (sequenceOf cfg text) a b
  /\ count_of (vectorOf (matrix (buildCoOccurrenceMatrix cfg text)) a) b
     = count_of (vectorOf (matrix (buildCoOccurrenceMatrix cfg text)) b) a.
Proof.
  split; [apply matrix_count|].
  rewrite !matrix_count. apply pairs_sym.
Qed.

(** The maps of an index are proper [Map]s of positive counts: no key
    stands twice in the matrix, in any of its vectors or in the
    frequencies, and every count kept is at least 1. *)
Theorem index_maps_in_order (text : string) :
  goodMatrix (matrix (buildCoOccurrenceMatrix cfg text))
  /\ map_wf (termFrequencies (buildCoOccurrenceMatrix cfg text))
  /\ positive (termFrequencies (buildCoOccurrenceMatrix cfg text)).
Proof. apply index_maps_in_order_aux. Qed.

(** The frequency of a term is the number of its occurrences among the
    tokens and phrases of the text, and the keys of the matrix are exactly
    the terms that occur and whose frequency is at least [minFrequency]. *)
Theorem vocabulary_by_frequency (text : string) (t : string) :
  let index := buildCoOccurrenceMatrix cfg text in
  count_of (termFrequencies index) t = occurrences (map term (allTermsOf cfg text)) t
  /\ (In t (map_keys (matrix index))
      <-> 1 <= count_of (termFrequencies index) t
          /\ minFrequency cfg <= count_of (termFrequencies index) t).
Proof.
  intros index. subst index. split; [apply frequency_occurrences|].
  rewrite matrix_keys_are_valid_terms, frequency_occurrences, occurrences_in.
  unfold sequenceOf, validTermsOf. rewrite in_map_iff. split.
  - intros (item & <- & Hitem). apply filter_In in Hitem as [Hin Hf].
    apply Nat.leb_le in Hf. split; [now apply in_map|].
    fold (countFrequencies (allTermsOf cfg text)) in Hf.
    now rewrite <- frequency_occurrences.
  - intros [Hin Hf]. apply in_map_iff in Hin as (item & <- & Hitem).
    exists item. split; [reflexivity|]. apply filter_In. split; [exact Hitem|].
    apply Nat.leb_le. rewrite <- frequency_occurrences in Hf. exact Hf.
Qed.

(** [totalTerms] is the sum of the frequencies of the keys of the matrix. *)
Theorem totalTerms_is_frequency_sum (text : string) :
  let index := buildCoOccurrenceMatrix cfg text in
  totalTerms index = frequencySum (termFrequencies index) (map_keys (matrix index)).
Proof.
  intros index. subst index. unfold frequencySum.
  cbn [buildCoOccurrenceMatrix totalTerms].
  rewrite <- (length_map term).
  rewrite (@length_by_keys (map_keys (matrix (buildCoOccurrenceMatrix cfg text)))).
  - f_equal. apply map_ext_in. intros k Hk.
    apply matrix_keys_are_valid_terms in Hk.
    unfold sequenceOf, validTermsOf in *.
    rewrite (occurrences_filter
               (fun t => minFrequency cfg <=? count_of (countFrequencies (allTermsOf cfg text)) t)).
    apply in_map_iff in Hk as (item & <- & Hitem).
    apply filter_In in Hitem as [_ Hf]. rewrite Hf.
    symmetry. apply frequency_occurrences.
  - apply matrix_good.
  - intros x Hx. now apply matrix_keys_are_valid_terms.
Qed.

(** What holds of every token and phrase of the text holds of every key of
    the index. *)
Lemma index_terms_all (P : string -> Prop) (text : string) :
  (forall t, In t (map term (allTermsOf cfg text)) -> P t) ->
  Forall P (map_keys (termFrequencies (buildCoOccurrenceMatrix cfg text)))
  /\ Forall (fun entry => P (fst entry) /\ Forall P (map_keys (snd entry)))
            (matrix (buildCoOccurrenceMatrix cfg text)).
Proof.
  intros Hocc.
  assert (Hseq : forall t, In t (sequenceOf cfg text) -> P t).
  { intros t Ht. apply Hocc. unfold sequenceOf, validTermsOf in Ht.
    apply in_map_iff in Ht as (item & <- & Hitem).
    apply filter_In in Hitem as [Hitem _]. now apply in_map. }
  destruct (index_maps_in_order_aux cfg text) as (Hgood & Hwf & Hpos).
  split.
  - apply Forall_forall. intros k Hk. apply Hocc.
    apply occurrences_in. rewrite <- frequency_occurrences.
    apply has_positive_count; [exact Hpos|]. now apply map_has_keys.
  - apply Forall_forall. intros [T v] Hin. cbn [fst snd]. split.
    + apply Hseq. apply matrix_keys_are_valid_terms.
      apply in_map_iff. now exists (T, v).
    + apply Forall_forall. intros U HU. apply map_has_keys in HU.
      assert (Hv : vectorOf (matrix (buildCoOccurrenceMatrix cfg text)) T = v).
      { unfold vectorOf. now rewrite (@map_get_of_in _ _ T v (proj1 Hgood) Hin). }
      rewrite <- Hv in HU. cbn [buildCoOccurrenceMatrix matrix] in HU.
      apply matrix_loop_has in HU as [HU | (i & j & Hi & Hj & _ & _ & Htj)];
        [discriminate|].
      apply in_seq in Hi. apply in_window in Hj; [|lia].
      apply Hseq. apply nth_error_In with (n := j).
      apply sequence_nth. split; [lia|exact Htj].
Qed.

(** Every term of an index, as a key of the matrix, of one of its vectors or
    of the frequencies, is a token or a phrase of the text: it is not empty
    and it is in lower case. *)
Theorem index_terms_plain (text : string) :
  let index := buildCoOccurrenceMatrix cfg text in
  Forall plainTerm (map_keys (termFrequencies index))
  /\ Forall (fun entry => plainTerm (fst entry) /\ Forall plainTerm (map_keys (snd entry)))
            (matrix index).
Proof.
  intros index. subst index. apply index_terms_all.
  pose proof (allTerms_plain cfg text) as Hall. rewrite Forall_forall in Hall.
  intros t Ht. apply in_map_iff in Ht as (item & <- & Hitem). auto.
Qed.

End Index.

End IndexTheorems.


(* ===================================================================== *)
(** * More on the similarity engine                                       *)
(* ===================================================================== *)

Module SimilarityFacts.
Import Js Order Counts IndexSpec TokenSpec PairSpec JsFacts Vectorizer.
Import CosineFacts ExactFacts IndexFacts IndexTheorems.

Lemma dotN_entries (vec : JsMap nat) (l : JsMap nat) :
  map_wf vec -> (forall e, In e l -> In e vec) ->
  fold_right (fun entry acc => snd entry * count_of vec (fst entry) + acc) 0 l
  = squaresN l.
Proof.
  intros Hwf. induction l as [|[k c] l IH]; intros Hin; simpl; [reflexivity|].
  rewrite IH by (intros e He; apply Hin; now right).
  unfold count_of. rewrite (@map_get_of_in _ vec k c Hwf) by (apply Hin; now left).
  reflexivity.
Qed.

Lemma dotN_self (vec : JsMap nat) : map_wf vec -> dotN vec vec = squaresN vec.
Proof. intros Hwf. unfold dotN. now apply dotN_entries. Qed.

Lemma squaresN_positive (vec : JsMap nat) :
  positive vec -> vec <> [] -> 1 <= squaresN vec.
Proof.
  intros Hpos Hne. destruct vec as [|[k c] vec]; [congruence|].
  inversion Hpos as [|? ? Hc _]; subst. simpl in *. nia.
Qed.

Lemma count_zero_iff (vec : JsMap nat) (k : string) :
  positive vec -> (count_of vec k = 0 <-> ~ In k (map_keys vec)).
Proof.
  intros Hpos. rewrite <- map_has_keys. split.
  - intros H0 Hhas. pose proof (has_positive_count k Hpos Hhas). lia.
  - intros Hno. unfold count_of, map_has in *.
    destruct (map_get vec k); [exfalso; now apply Hno|reflexivity].
Qed.

Lemma dotN_zero_iff (vec1 vec2 : JsMap nat) :
  positive vec1 -> positive vec2 ->
  (dotN vec1 vec2 = 0
   <-> forall k, In k (map_keys vec1) -> ~ In k (map_keys vec2)).
Proof.
  intros H1 H2. unfold dotN. induction vec1 as [|[k c] vec1 IH]; simpl.
  - split; [intros _ k []|reflexivity].
  - inversion H1 as [|? ? Hc H1']; subst. simpl in Hc.
    specialize (IH H1'). split.
    + intros H0 k' [<- | Hk'].
      * apply (count_zero_iff k H2). nia.
      * apply IH; [lia|exact Hk'].
    + intros Hall.
      assert (Hk : count_of vec2 k = 0)
        by (apply (count_zero_iff k H2); apply Hall; now left).
      rewrite Hk. rewrite (proj2 IH) by (intros k' Hk'; apply Hall; now right). lia.
Qed.

Lemma natR_positive (n : nat) : (1 <= n)%nat -> (0 < natR n)%R.
Proof. intros H. unfold natR. apply IZR_lt. lia. Qed.

Lemma natR_zero_iff (n : nat) : natR n = 0%R <-> n = 0%nat.
Proof.
  unfold natR. split.
  - intros H. apply eq_IZR in H. lia.
  - intros ->. reflexivity.
Qed.

(** The cosine of two vectors that are not empty and hold positive counts
    is their dot product over the product of the magnitudes, neither of
    which is zero. *)
Lemma cosine_proper (vec1 vec2 : JsMap nat) :
  positive vec1 -> positive vec2 -> vec1 <> [] -> vec2 <> [] ->
  (0 < R_sqrt.sqrt (natR (squaresN vec1)))%R
  /\ (0 < R_sqrt.sqrt (natR (squaresN vec2)))%R
  /\ cosineSimilarity (N:=Num.Exact) (Some vec1) (Some vec2)
     = (natR (dotN vec1 vec2)
        / (R_sqrt.sqrt (natR (squaresN vec1)) * R_sqrt.sqrt (natR (squaresN vec2))))%R.
Proof.
  intros P1 P2 N1 N2.
  assert (S1 : (0 < R_sqrt.sqrt (natR (squaresN vec1)))%R)
    by (apply sqrt_lt_R0, natR_positive, squaresN_positive; assumption).
  assert (S2 : (0 < R_sqrt.sqrt (natR (squaresN vec2)))%R)
    by (apply sqrt_lt_R0, natR_positive, squaresN_positive; assumption).
  split; [exact S1|]. split; [exact S2|].
  rewrite cosine_exact.
  destruct vec1 as [|e1 vec1]; [congruence|]. destruct vec2 as [|e2 vec2]; [congruence|].
  cbn [List.length Nat.eqb orb].
  replace (Num.Reqb (R_sqrt.sqrt (natR (squaresN (e1 :: vec1)))) 0) with false
    by (symmetry; apply Reqb_false; lra).
  replace (Num.Reqb (R_sqrt.sqrt (natR (squaresN (e2 :: vec2)))) 0) with false
    by (symmetry; apply Reqb_false; lra).
  reflexivity.
Qed.

End SimilarityFacts.

Module SimilarityTheorems.
Import Js Order Counts IndexSpec TokenSpec PairSpec Samples JsFacts Vectorizer.
Import CosineFacts ExactFacts IndexFacts SimilarityFacts.
Local Open Scope R_scope.

(** In exact arithmetic the cosine of a vector with itself is 1, for every
    vector that is not empty and holds positive counts, one per key. *)
Theorem cosine_of_itself (vec : JsMap nat) :
  map_wf vec -> positive vec -> vec <> [] ->
  cosineSimilarity (N:=Num.Exact) (Some vec) (Some vec) = 1.
Proof.
  intros Hwf Hpos Hne.
  destruct (cosine_proper Hpos Hpos Hne Hne) as (S1 & _ & ->).
  rewrite dotN_self by assumption.
  rewrite sqrt_sqrt by apply natR_nonneg.
  apply Rdiv_diag. apply Rgt_not_eq, Rlt_gt, natR_positive.
  now apply squaresN_positive.
Qed.

(** In exact arithmetic the cosine of two such vectors is 0 exactly when
    they have no key in common. *)
Theorem cosine_zero_iff_disjoint (vec1 vec2 : JsMap nat) :
  positive vec1 -> positive vec2 -> vec1 <> [] -> vec2 <> [] ->
  (cosineSimilarity (N:=Num.Exact) (Some vec1) (Some vec2) = 0
   <-> forall k, In k (map_keys vec1) -> ~ In k (map_keys vec2)).
Proof.
  intros P1 P2 N1 N2.
  destruct (cosine_proper P1 P2 N1 N2) as (S1 & S2 & ->).
  rewrite <- (dotN_zero_iff P1 P2), <- natR_zero_iff.
  assert (Hm : 0 < R_sqrt.sqrt (natR (squaresN vec1)) * R_sqrt.sqrt (natR (squaresN vec2)))
    by (apply Rmult_lt_0_compat; assumption).
  split.
  - intros H. apply (Rmult_eq_compat_r
                       (R_sqrt.sqrt (natR (squaresN vec1)) * R_sqrt.sqrt (natR (squaresN vec2)))) in H.
    unfold Rdiv in H. rewrite Rmult_assoc, Rinv_l, Rmult_1_r, Rmult_0_l in H by lra.
    exact H.
  - intros ->. unfold Rdiv. apply Rmult_0_l.
Qed.

Lemma three_ones_wf : map_wf three_ones.
Proof. unfold map_wf. simpl. repeat constructor; simpl; intuition discriminate. Qed.

Lemma three_ones_positive : positive three_ones.
Proof. repeat constructor. Qed.

Lemma fuel_vector_positive : positive fuel_vector.
Proof. repeat constructor; simpl; lia. Qed.

Lemma pump_vector_positive : positive pump_vector.
Proof. repeat constructor; simpl; lia. Qed.

Lemma cosine_of_itself_witness :
  cosineSimilarity (N:=Num.Exact) (Some three_ones) (Some three_ones) = 1.
Proof.
  apply (@cosine_of_itself three_ones three_ones_wf three_ones_positive).
  discriminate.
Defined.

Lemma cosine_zero_iff_disjoint_witness :
  cosineSimilarity (N:=Num.Exact) (Some fuel_vector) (Some pump_vector) = 0
  <-> forall k, In k (map_keys fuel_vector) -> ~ In k (map_keys pump_vector).
Proof.
  apply (@cosine_zero_iff_disjoint fuel_vector pump_vector
           fuel_vector_positive pump_vector_positive); discriminate.
Defined.

End SimilarityTheorems.


(* ===================================================================== *)
(** * Query expansion                                                     *)
(* ===================================================================== *)

Module ExpansionFacts.
Import Js Order Counts IndexSpec TokenSpec PairSpec ExpansionSpec JsFacts Vectorizer.
Import TokenFacts IndexFacts IndexTheorems.

(** ** [[...new Set(array)]] *)

Lemma array_includes_in (l : list string) (x : string) :
  array_includes l x = true <-> In x l.
Proof.
  unfold array_includes. rewrite existsb_exists. split.
  - intros (y & Hy & E). apply String.eqb_eq in E. now subst.
  - intros H. exists x. split; [exact H|apply String.eqb_refl].
Qed.

Lemma array_includes_not_in (l : list string) (x : string) :
  array_includes l x = false <-> ~ In x l.
Proof.
  rewrite <- array_includes_in. destruct (array_includes l x); split; congruence.
Qed.

Lemma uniq_acc_in (l seen : list string) (x : string) :
  In x (uniq_acc seen l) <-> In x l /\ ~ In x seen.
Proof.
  revert seen. induction l as [|y l IH]; intros seen; simpl; [tauto|].
  destruct (array_includes seen y) eqn:E.
  - apply array_includes_in in E. rewrite IH. split.
    + intros [H1 H2]. auto.
    + intros [[<- | H1] H2]; [contradiction|auto].
  - apply array_includes_not_in in E. simpl. rewrite IH. simpl. split.
    + intros [<- | [H1 H2]]; [auto|]. split; [auto|]. intros H. apply H2. now right.
    + intros [[<- | H1] H2]; [auto|].
      destruct (string_dec y x) as [-> | Hne]; [auto|].
      right. split; [exact H1|]. intros [? | ?]; [contradiction|contradiction].
Qed.

Lemma uniq_acc_NoDup (l seen : list string) : NoDup (uniq_acc seen l).
Proof.
  revert seen. induction l as [|y l IH]; intros seen; simpl; [constructor|].
  destruct (array_includes seen y); [apply IH|].
  constructor; [|apply IH]. rewrite uniq_acc_in. intros [_ H]. apply H. now left.
Qed.

Lemma uniq_in (l : list string) (x : string) : In x (uniq l) <-> In x l.
Proof. unfold uniq. rewrite uniq_acc_in. simpl. tauto. Qed.

Lemma uniq_NoDup (l : list string) : NoDup (uniq l).
Proof. apply uniq_acc_NoDup. Qed.

(** ** Sets of strings *)

Lemma set_add_in (s : list string) (x y : string) :
  In y (set_add s x) <-> In y s \/ y = x.
Proof.
  unfold set_add. destruct (array_includes s x) eqn:E.
  - apply array_includes_in in E. split; [auto|]. intros [H | ->]; auto.
  - rewrite in_app_iff. simpl. split.
    + intros [H | [<- | []]]; auto.
    + intros [H | ->]; auto.
Qed.

Lemma set_add_NoDup (s : list string) (x : string) : NoDup s -> NoDup (set_add s x).
Proof.
  unfold set_add. destruct (array_includes s x) eqn:E; [auto|].
  apply array_includes_not_in in E. intros H.
  apply NoDup_app; [exact H|repeat constructor; simpl; tauto|].
  intros y Hy [<- | []]. contradiction.
Qed.

Lemma set_add_head (s : list string) (x h : string) (more : list string) :
  s = h :: more -> exists more', set_add s x = h :: more'.
Proof.
  intros ->. unfold set_add. destruct (array_includes (h :: more) x); eauto.
  simpl. eauto.
Qed.

(** ** Elements with their indices *)

Lemma entries_from {A} (l : list A) (n : nat) (j : nat) (x : A) :
  In (j, x) (combine (seq n (List.length l)) l) <-> n <= j /\ nth_error l (j - n) = Some x.
Proof.
  revert n. induction l as [|y l IH]; intros n; simpl.
  - split; [tauto|]. intros [_ H]. now destruct (j - n).
  - rewrite IH. split.
    + intros [[= <- <-] | [H1 H2]].
      * rewrite Nat.sub_diag. auto.
      * split; [lia|]. replace (j - n) with (S (j - S n)) by lia. exact H2.
    + intros [H1 H2]. destruct (j - n) as [|k] eqn:E.
      * left. injection H2 as <-. f_equal. lia.
      * right. split; [lia|]. now replace (j - S n) with k by lia.
Qed.

Lemma entries_in {A} (l : list A) (j : nat) (x : A) :
  In (j, x) (entries l) <-> nth_error l j = Some x.
Proof.
  unfold entries. rewrite entries_from, Nat.sub_0_r. split; [tauto|]. split; [lia|auto].
Qed.

Lemma entries_terms {A} (l : list A) : map snd (entries l) = l.
Proof.
  unfold entries. generalize 0. induction l as [|x l IH]; intros n; simpl; [reflexivity|].
  now rewrite IH.
Qed.

(** ** The terms similar to a term, on any arithmetic *)

Section TopK.
Context {num : Type} {N : Num.Number num}.
Variable cfg : Config num.

Lemma candidates_as_flat_map queryTerm queryVector (m : JsMap (JsMap nat)) :
  candidates cfg queryTerm queryVector m
  = flat_map (candidate cfg queryTerm queryVector) m.
Proof.
  unfold candidates.
  assert (H : forall acc,
    fold_left
      (fun similarities entry =>
         let '(term, termVector) := entry in
         if String.eqb term queryTerm then similarities
         else
           let similarity := cosineSimilarity (Some queryVector) (Some termVector) in
           if Num.leb (minSimilarity cfg) similarity
           then similarities ++ [ {| sim_term := term; similarity := similarity |} ]
           else similarities) m acc
    = acc ++ flat_map (candidate cfg queryTerm queryVector) m).
  { induction m as [|[k v] m IH]; intros acc; simpl.
    - now rewrite app_nil_r.
    - rewrite IH. unfold candidate at 2. simpl.
      destruct (String.eqb k queryTerm); [reflexivity|].
      destruct (Num.leb _ _); [|reflexivity].
      now rewrite <- app_assoc. }
  now rewrite H.
Qed.

Lemma candidate_of queryTerm queryVector entry u :
  In u (candidate cfg queryTerm queryVector entry) ->
  sim_term u = fst entry
  /\ fst entry <> queryTerm
  /\ similarity u = cosineSimilarity (Some queryVector) (Some (snd entry))
  /\ Num.leb (minSimilarity cfg) (similarity u) = true.
Proof.
  unfold candidate. destruct (String.eqb (fst entry) queryTerm) eqn:E; [intros []|].
  apply String.eqb_neq in E.
  destruct (Num.leb _ _) eqn:L; [|intros []].
  intros [<- | []]. simpl. auto.
Qed.

Lemma candidates_distinct queryTerm queryVector (m : JsMap (JsMap nat)) :
  map_wf m ->
  NoDup (map (fun s => sim_term s) (flat_map (candidate cfg queryTerm queryVector) m)).
Proof.
  unfold map_wf. induction m as [|entry m IH]; simpl; intros Hnd; [constructor|].
  inversion Hnd as [|? ? Hk Hnd']; subst. rewrite map_app.
  apply NoDup_app.
  - unfold candidate. destruct (String.eqb _ _); [constructor|].
    destruct (Num.leb _ _); repeat constructor. simpl. tauto.
  - now apply IH.
  - intros t H1 H2. apply in_map_iff in H1 as (u & <- & Hu).
    apply candidate_of in Hu as (Hu & _).
    apply in_map_iff in H2 as (u' & E & Hu').
    apply in_flat_map in Hu' as (entry' & Hin & Hu').
    apply candidate_of in Hu' as (Hu' & _).
    apply Hk. apply in_map_iff. exists entry'. split; [congruence|exact Hin].
Qed.

Lemma NoDup_firstn {A} (n : nat) (l : list A) : NoDup l -> NoDup (firstn n l).
Proof.
  intros H. rewrite <- (firstn_skipn n l) in H. now apply NoDup_app_remove_r in H.
Qed.

Lemma findSimilarTerms_found (queryTerm : string) (data : CoOccurrenceIndex)
    (maxResults : nat) (u : Similar num) :
  In u (findSimilarTerms cfg queryTerm data maxResults) ->
  exists queryVector termVector,
    map_get (matrix data) (toLowerCase queryTerm) = Some queryVector
    /\ In (sim_term u, termVector) (matrix data)
    /\ sim_term u <> toLowerCase queryTerm
    /\ similarity u = cosineSimilarity (Some queryVector) (Some termVector)
    /\ Num.leb (minSimilarity cfg) (similarity u) = true.
Proof.
  unfold findSimilarTerms.
  destruct (map_get (matrix data) (toLowerCase queryTerm)) as [queryVector|]; [|intros []].
  rewrite candidates_as_flat_map. intros Hu.
  apply in_firstn, sort_in in Hu. apply in_flat_map in Hu as ([k v] & Hin & Hu).
  apply candidate_of in Hu as (Ht & Hne & Hs & Hmin). simpl in *.
  exists queryVector, v. subst k. auto.
Qed.

Lemma findSimilarTerms_distinct (queryTerm : string) (data : CoOccurrenceIndex)
    (maxResults : nat) :
  map_wf (matrix data) ->
  NoDup (map (fun s => sim_term s) (findSimilarTerms cfg queryTerm data maxResults)).
Proof.
  intros Hwf. unfold findSimilarTerms.
  destruct (map_get (matrix data) (toLowerCase queryTerm)) as [queryVector|]; [|constructor].
  rewrite candidates_as_flat_map, <- firstn_map. apply NoDup_firstn.
  eapply Permutation_NoDup.
  - apply Permutation_map. symmetry. apply sort_perm.
  - now apply candidates_distinct.
Qed.

Lemma findSimilarTerms_length (queryTerm : string) (data : CoOccurrenceIndex)
    (maxResults : nat) :
  List.length (findSimilarTerms cfg queryTerm data maxResults) <= maxResults.
Proof.
  unfold findSimilarTerms. destruct (map_get _ _); [|simpl; lia].
  apply firstn_le_length.
Qed.

(** ** One document *)

Lemma expandQuery_shaped (queryText : string) (vectors : option CoOccurrenceIndex) :
  Forall (wellShaped cfg) (expandQuery cfg queryText vectors).
Proof.
  pose proof (allTerms_plain cfg queryText) as Hall. rewrite Forall_forall in Hall.
  apply Forall_forall. intros e He. unfold expandQuery in He.
  destruct vectors as [vectors|].
  - apply in_map_iff in He as (t & <- & Ht). apply (proj1 (uniq_in _ _)) in Ht.
    unfold wellShaped. cbn [originalTerm expandedTerms similarities].
    split; [eauto|]. split; [eauto|]. split; [simpl; now rewrite !length_map|].
    split.
    + simpl. rewrite length_map. apply le_n_S. apply findSimilarTerms_length.
    + apply in_map_iff in Ht as (item & <- & Hitem). now apply Hall.
  - apply in_map_iff in He as (t & <- & Ht).
    unfold wellShaped. cbn [originalTerm expandedTerms similarities].
    split; [eauto|]. split; [eauto|]. split; [reflexivity|]. split; [simpl; lia|].
    apply Hall. unfold allTermsOf. apply in_or_app. now left.
Qed.

Lemma expandQuery_originals (queryText : string) (vectors : option CoOccurrenceIndex)
    (t : string) :
  In t (map (fun e => originalTerm e) (expandQuery cfg queryText vectors))
  <-> In t (map term (match vectors with
                      | Some _ => allTermsOf cfg queryText
                      | None => tokenize cfg queryText
                      end)).
Proof.
  unfold expandQuery. destruct vectors as [vectors|]; rewrite map_map; cbn [originalTerm].
  - rewrite map_id. apply uniq_in.
  - reflexivity.
Qed.

End TopK.

End ExpansionFacts.

Module MergeFacts.
Import Js Order Counts IndexSpec TokenSpec PairSpec ExpansionSpec JsFacts Vectorizer.
Import TokenFacts IndexFacts IndexTheorems ExpansionFacts.

Section Merge.
Context {num : Type} {N : Num.Number num} {T : Num.Truth num}.

(** ** One entry *)

Lemma mergeTerm_terms (sims : list num) (m : Merged num) (entry : nat * string) (U : string) :
  In U (m_expandedTerms (mergeTerm sims m entry))
  <-> In U (m_expandedTerms m) \/ U = snd entry.
Proof. destruct entry as [j X]. cbn [mergeTerm m_expandedTerms snd]. apply set_add_in. Qed.

Lemma mergeTerm_inOrder (sims : list num) (term : string) (m : Merged num)
    (entry : nat * string) :
  entryInOrder term m -> entryInOrder term (mergeTerm sims m entry).
Proof.
  destruct entry as [j X]. intros (H1 & (more & H2) & H3).
  unfold entryInOrder. cbn [mergeTerm m_originalTerm m_expandedTerms].
  split; [exact H1|]. split; [now apply set_add_head with more|].
  now apply set_add_NoDup.
Qed.

Lemma mergeTerms_terms (sims : list num) (es : list (nat * string)) (m : Merged num)
    (U : string) :
  In U (m_expandedTerms (fold_left (mergeTerm sims) es m))
  <-> In U (m_expandedTerms m) \/ In U (map snd es).
Proof.
  revert m. induction es as [|e es IH]; intros m; simpl; [tauto|].
  rewrite IH, mergeTerm_terms. split.
  - intros [[H | H] | H]; auto.
  - intros [H | [H | H]]; auto.
Qed.

Lemma mergeTerms_inOrder (sims : list num) (term : string) (es : list (nat * string))
    (m : Merged num) :
  entryInOrder term m -> entryInOrder term (fold_left (mergeTerm sims) es m).
Proof.
  revert m. induction es as [|e es IH]; intros m H; simpl; [exact H|].
  apply IH. now apply mergeTerm_inOrder.
Qed.

Lemma mergeInto_terms (m : Merged num) (c : Expansion num) (U : string) :
  In U (m_expandedTerms (mergeInto m c))
  <-> In U (m_expandedTerms m) \/ In U (expandedTerms c).
Proof. unfold mergeInto. now rewrite mergeTerms_terms, entries_terms. Qed.

Lemma mergeInto_inOrder (term : string) (m : Merged num) (c : Expansion num) :
  entryInOrder term m -> entryInOrder term (mergeInto m c).
Proof. apply mergeTerms_inOrder. Qed.

Lemma freshEntry_inOrder (term : string) : entryInOrder term (freshEntry term).
Proof.
  unfold entryInOrder, freshEntry. simpl. split; [reflexivity|]. split; [eauto|].
  repeat constructor. simpl. tauto.
Qed.

(** ** The map of the entries *)

Lemma mergeConcept_get (all : JsMap (Merged num)) (c : Expansion num) (term : string) :
  map_get (mergeConcept all c) term = mergeEntry term (map_get all term) c.
Proof.
  unfold mergeConcept, mergeEntry.
  destruct (String.eqb (originalTerm c) term) eqn:E.
  - apply String.eqb_eq in E. subst term. rewrite map_get_set_same.
    unfold map_has. destruct (map_get all (originalTerm c)) eqn:G.
    + now rewrite G.
    + now rewrite map_get_set_same.
  - apply String.eqb_neq in E. rewrite map_get_set_other by assumption.
    unfold map_has. destruct (map_get all (originalTerm c)); [reflexivity|].
    now rewrite map_get_set_other.
Qed.

Lemma mergeConcept_wf (all : JsMap (Merged num)) (c : Expansion num) :
  map_wf all -> map_wf (mergeConcept all c).
Proof.
  intros H. unfold mergeConcept. apply map_set_wf.
  destruct (map_has all (originalTerm c)); [exact H|now apply map_set_wf].
Qed.

Lemma mergeConcepts_get (cs : list (Expansion num)) (all : JsMap (Merged num))
    (term : string) :
  map_get (fold_left mergeConcept cs all) term
  = fold_left (mergeEntry term) cs (map_get all term).
Proof.
  revert all. induction cs as [|c cs IH]; intros all; simpl; [reflexivity|].
  now rewrite IH, mergeConcept_get.
Qed.

Lemma mergeConcepts_wf (cs : list (Expansion num)) (all : JsMap (Merged num)) :
  map_wf all -> map_wf (fold_left mergeConcept cs all).
Proof.
  revert all. induction cs as [|c cs IH]; intros all H; simpl; [exact H|].
  apply IH. now apply mergeConcept_wf.
Qed.

(** The entry of a term after the concepts [cs]: there is one exactly when
    a concept has the term as its original term (or there was one before);
    it is in order and holds the terms the concepts bring. *)
Lemma mergeEntries_spec (term : string) (cs : list (Expansion num))
    (o : option (Merged num)) :
  match o with Some m => entryInOrder term m | None => True end ->
  match fold_left (mergeEntry term) cs o with
  | Some m' =>
      entryInOrder term m'
      /\ (o <> None \/ exists c, In c cs /\ originalTerm c = term)
      /\ forall U, In U (m_expandedTerms m')
                   <-> In U (m_expandedTerms
                               (match o with Some m => m | None => freshEntry term end))
                       \/ brings cs term U
  | None => o = None /\ forall c, In c cs -> originalTerm c <> term
  end.
Proof.
  revert o. induction cs as [|c cs IH]; intros o Ho; simpl.
  - destruct o as [m|].
    + split; [exact Ho|]. split; [left; discriminate|].
      intros U. split; [auto|]. intros [H | (c & [] & _)]. exact H.
    + split; [reflexivity|]. intros c [].
  - unfold mergeEntry at 2. destruct (String.eqb (originalTerm c) term) eqn:E.
    + apply String.eqb_eq in E.
      set (m0 := match o with Some m => m | None => freshEntry term end).
      assert (Hm0 : entryInOrder term m0)
        by (unfold m0; destruct o; [exact Ho|apply freshEntry_inOrder]).
      specialize (IH (Some (mergeInto m0 c)) (mergeInto_inOrder c Hm0)).
      destruct (fold_left (mergeEntry term) cs (Some (mergeInto m0 c))) as [m'|].
      * destruct IH as (H1 & _ & H3). split; [exact H1|].
        split; [right; exists c; simpl; auto|].
        intros U. rewrite H3, mergeInto_terms. split.
        -- intros [[H | H] | (c' & Hc' & Ht & HU)]; [auto| |].
           ++ right. exists c. simpl. auto.
           ++ right. exists c'. simpl. auto.
        -- intros [H | (c' & [<- | Hc'] & Ht & HU)]; [auto|auto|].
           right. exists c'. auto.
      * destruct IH as [IH _]. discriminate.
    + apply String.eqb_neq in E. specialize (IH o Ho).
      destruct (fold_left (mergeEntry term) cs o) as [m'|].
      * destruct IH as (H1 & H2 & H3). split; [exact H1|]. split.
        -- destruct H2 as [H2 | (c' & Hc' & Ht)]; [auto|]. right. exists c'. simpl. auto.
        -- intros U. rewrite H3. split.
           ++ intros [H | (c' & Hc' & Ht & HU)]; [auto|]. right. exists c'. simpl. auto.
           ++ intros [H | (c' & [<- | Hc'] & Ht & HU)]; [auto|contradiction|].
              right. exists c'. auto.
      * destruct IH as [IH1 IH2]. split; [exact IH1|].
        intros c' [<- | Hc']; [exact E|auto].
Qed.

Lemma merged_keys (cs : list (Expansion num)) (term : string) :
  In term (map_keys (fold_left mergeConcept cs []))
  <-> In term (map (fun c => originalTerm c) cs).
Proof.
  rewrite <- map_has_keys. unfold map_has. rewrite mergeConcepts_get. simpl.
  pose proof (@mergeEntries_spec term cs None I) as H.
  destruct (fold_left (mergeEntry term) cs None) as [m'|].
  - destruct H as (_ & [H | (c & Hc & Ht)] & _); [congruence|].
    split; [intros _|reflexivity]. apply in_map_iff. now exists c.
  - destruct H as [_ H]. split; [discriminate|].
    intros Hin. apply in_map_iff in Hin as (c & Ht & Hc). now apply H in Hc.
Qed.

Section MultiDoc.
Variable cfg : Config num.
Variable getVectors : Z -> option CoOccurrenceIndex.

Lemma mergeDocuments_concepts (queryText : string) (documentIds : list Z)
    (all : JsMap (Merged num)) :
  fold_left (mergeDocument cfg getVectors queryText) documentIds all
  = fold_left mergeConcept (contributions cfg getVectors queryText documentIds) all.
Proof.
  revert all. unfold contributions.
  induction documentIds as [|d ds IH]; intros all; simpl; [reflexivity|].
  now rewrite fold_left_app, IH.
Qed.

Lemma contributions_shaped (queryText : string) (documentIds : list Z) :
  Forall (wellShaped cfg) (contributions cfg getVectors queryText documentIds).
Proof.
  unfold contributions. apply Forall_forall. intros c Hc.
  apply in_flat_map in Hc as (d & _ & Hc).
  pose proof (expandQuery_shaped cfg queryText (getVectors d)) as H.
  rewrite Forall_forall in H. auto.
Qed.

(** What [expandQueryMultiDoc] returns, entry by entry. *)
Lemma multiDoc_entries (queryText : string) (documentIds : list Z) (e : Expansion num) :
  In e (expandQueryMultiDoc cfg getVectors queryText documentIds)
  <-> exists m,
        In (originalTerm e, m)
           (fold_left mergeConcept
              (contributions cfg getVectors queryText documentIds) [])
        /\ expandedTerms e = m_expandedTerms m
        /\ similarities e = map (valueOf m) (m_expandedTerms m).
Proof.
  unfold expandQueryMultiDoc. rewrite mergeDocuments_concepts, in_map_iff. split.
  - intros ([k m] & <- & Hin). exists m. cbn. auto.
  - intros (m & Hin & H1 & H2). exists (originalTerm e, m). split; [|exact Hin].
    destruct e as [o ex si]. cbn in *. now subst.
Qed.

End MultiDoc.

End Merge.

End MergeFacts.

Module ExactMergeFacts.
Import Js Order Counts IndexSpec TokenSpec PairSpec ExpansionSpec JsFacts Vectorizer.
Import CosineFacts ExactFacts TokenFacts IndexFacts IndexTheorems ExpansionFacts MergeFacts.
Local Open Scope R_scope.

Lemma orDefault_zero (o : option R) :
  Num.orDefault o Num.zero = match o with Some x => x | None => 0 end.
Proof.
  unfold Num.orDefault. destruct o as [x|]; [|reflexivity]. cbn.
  destruct (Num.Reqb x 0) eqn:E; [|reflexivity].
  apply Reqb_true in E. subst x. reflexivity.
Qed.

Lemma fold_Rmax_ge (l : list R) (x : R) :
  x <= fold_left Rmax l x /\ Forall (fun s => s <= fold_left Rmax l x) l.
Proof.
  revert x. induction l as [|y l IH]; intros x; simpl.
  - split; [lra|constructor].
  - destruct (IH (Rmax x y)) as [H1 H2].
    pose proof (Rmax_l x y). pose proof (Rmax_r x y).
    split; [lra|]. constructor; [lra|exact H2].
Qed.

Lemma fold_Rmax_in (l : list R) (x : R) : In (fold_left Rmax l x) (x :: l).
Proof.
  revert x. induction l as [|y l IH]; intros x; simpl; [auto|].
  destruct (IH (Rmax x y)) as [H | H]; [|auto].
  rewrite <- H. unfold Rmax. destruct (Rle_dec x y); auto.
Qed.

Lemma mergeTerm_value (sims : list R) (m : Merged R) (j : nat) (X U : string) :
  valueOf (mergeTerm sims m (j, X)) U
  = if String.eqb X U
    then match nth_error sims j with
         | Some s => Rmax (valueOf m U) s
         | None => valueOf m U
         end
    else valueOf m U.
Proof.
  unfold valueOf. cbn [mergeTerm m_similarities].
  destruct (nth_error sims j) as [s|].
  2:{ now destruct (String.eqb X U). }
  destruct (String.eqb X U) eqn:E.
  - apply String.eqb_eq in E. subst X. cbn [Num.ltb Num.Exact].
    destruct (Num.Rltb _ _) eqn:L.
    + apply Rltb_true in L. rewrite map_get_set_same, orDefault_zero.
      unfold Rmax. destruct (Rle_dec _ _); lra.
    + apply Rltb_false in L. unfold Rmax. destruct (Rle_dec _ _); lra.
  - apply String.eqb_neq in E.
    destruct (Num.ltb _ _); [|reflexivity].
    now rewrite map_get_set_other.
Qed.

Lemma mergeTerms_value (sims : list R) (es : list (nat * string)) (m : Merged R)
    (U : string) :
  valueOf (fold_left (mergeTerm sims) es m) U
  = fold_left Rmax
      (flat_map (fun entry =>
                   if String.eqb (snd entry) U
                   then match nth_error sims (fst entry) with
                        | Some s => [s]
                        | None => []
                        end
                   else []) es)
      (valueOf m U).
Proof.
  revert m. induction es as [|[j X] es IH]; intros m; [reflexivity|].
  cbn [fold_left flat_map fst snd].
  rewrite IH, fold_left_app, mergeTerm_value.
  destruct (String.eqb X U); [|reflexivity].
  now destruct (nth_error sims j).
Qed.

Lemma mergeInto_value (m : Merged R) (c : Expansion R) (U : string) :
  valueOf (mergeInto m c) U = fold_left Rmax (simsOf c U) (valueOf m U).
Proof. apply mergeTerms_value. Qed.

Lemma mergeEntries_value (term U : string) (cs : list (Expansion R))
    (o : option (Merged R)) :
  match fold_left (mergeEntry term) cs o with
  | Some m' =>
      valueOf m' U
      = fold_left Rmax (simsFor term cs U)
          (valueOf (match o with Some m => m | None => freshEntry term end) U)
  | None => True
  end.
Proof.
  revert o. induction cs as [|c cs IH]; intros o; simpl.
  - now destruct o.
  - unfold mergeEntry at 2. unfold simsFor. simpl.
    destruct (String.eqb (originalTerm c) term).
    + specialize (IH (Some (mergeInto (match o with Some m => m | None => freshEntry term end) c))).
      destruct (fold_left (mergeEntry term) cs _) as [m'|]; [|exact I].
      rewrite IH, fold_left_app, mergeInto_value. reflexivity.
    + specialize (IH o). destruct (fold_left (mergeEntry term) cs o); [|exact I].
      exact IH.
Qed.

Lemma simsOf_in (c : Expansion R) (U : string) (s : R) :
  In s (simsOf c U)
  <-> exists j, nth_error (expandedTerms c) j = Some U
                /\ nth_error (similarities c) j = Some s.
Proof.
  unfold simsOf. rewrite in_flat_map. split.
  - intros ([j X] & Hin & Hs). apply entries_in in Hin. cbn [fst snd] in Hs.
    destruct (String.eqb X U) eqn:E; [|destruct Hs].
    apply String.eqb_eq in E. subst X.
    destruct (nth_error (similarities c) j) as [s'|] eqn:G; [|destruct Hs].
    destruct Hs as [<- | []]. eauto.
  - intros (j & H1 & H2). exists (j, U). split; [now apply entries_in|].
    cbn [fst snd]. rewrite String.eqb_refl, H2. now left.
Qed.

Lemma simsFor_in (term : string) (cs : list (Expansion R)) (U : string) (s : R) :
  In s (simsFor term cs U) <-> observed cs term U s.
Proof.
  unfold simsFor, observed. rewrite in_flat_map. split.
  - intros (c & Hc & Hs). destruct (String.eqb (originalTerm c) term) eqn:E; [|destruct Hs].
    apply String.eqb_eq in E. apply simsOf_in in Hs as (j & H1 & H2).
    exists c, j. auto.
  - intros (c & j & Hc & Ht & H1 & H2). exists c. split; [exact Hc|].
    rewrite Ht, String.eqb_refl. apply simsOf_in. eauto.
Qed.

Lemma freshEntry_value (term U : string) :
  valueOf (freshEntry (num:=R) term) U = if String.eqb term U then 1 else 0.
Proof.
  unfold valueOf, freshEntry. cbn [m_similarities map_get].
  rewrite orDefault_zero. now destruct (String.eqb term U).
Qed.

Lemma cosine_nonneg (vec1 vec2 : JsMap nat) :
  0 <= cosineSimilarity (N:=Num.Exact) (Some vec1) (Some vec2).
Proof.
  rewrite cosine_exact.
  destruct ((List.length vec1 =? 0)%nat || (List.length vec2 =? 0)%nat); [lra|].
  destruct (Num.Reqb (R_sqrt.sqrt (natR (squaresN vec1))) 0) eqn:E1; [simpl; lra|].
  destruct (Num.Reqb (R_sqrt.sqrt (natR (squaresN vec2))) 0) eqn:E2; [simpl; lra|].
  simpl. apply Reqb_false in E1, E2.
  pose proof (sqrt_pos (natR (squaresN vec1))) as P1.
  pose proof (sqrt_pos (natR (squaresN vec2))) as P2.
  apply Rmult_le_pos; [apply natR_nonneg|].
  left. apply Rinv_0_lt_compat. apply Rmult_lt_0_compat; lra.
Qed.

Section MultiDoc.
Variable cfg : Config R.
Variable getVectors : Z -> option CoOccurrenceIndex.

Lemma contributions_nonneg (queryText : string) (documentIds : list Z) :
  Forall (fun c => Forall (fun s => 0 <= s) (similarities c))
         (contributions cfg getVectors queryText documentIds).
Proof.
  unfold contributions. apply Forall_forall. intros c Hc.
  apply in_flat_map in Hc as (d & _ & Hc). unfold expandQuery in Hc.
  destruct (getVectors d) as [vectors|].
  - apply in_map_iff in Hc as (t & <- & _). cbn [similarities].
    constructor; [unfold Num.one; cbn; lra|].
    apply Forall_forall. intros s Hs. apply in_map_iff in Hs as (u & <- & Hu).
    apply findSimilarTerms_found in Hu as (qv & tv & _ & _ & _ & -> & _).
    apply cosine_nonneg.
  - apply in_map_iff in Hc as (t & <- & _). cbn [similarities].
    constructor; [unfold Num.one; cbn; lra|constructor].
Qed.

End MultiDoc.

End ExactMergeFacts.

Module ExpansionTheorems.
Import Js Order Counts IndexSpec TokenSpec PairSpec ExpansionSpec Samples JsFacts Vectorizer.
Import TokenFacts IndexFacts IndexTheorems ExpansionFacts MergeFacts ExactMergeFacts ExactFacts.

Section OneDocument.
Context {num : Type} {N : Num.Number num}.
Variable cfg : Config num.

(** What [expandQuery] returns for a document, with or without an index:
    every entry has its original term first, with similarity 1, followed by
    at most [maxExpansions] terms, each with its similarity, and the
    original term is a plain term of the question.  With an index the
    original terms are the tokens and phrases of the question, each once;
    without one they are its tokens, in the order of the question. *)
Theorem expandQuery_expansions (queryText : string)
    (vectors : option CoOccurrenceIndex) :
  let result := expandQuery cfg queryText vectors in
  Forall (wellShaped cfg) result
  /\ match vectors with
     | Some _ =>
         NoDup (map (fun e => originalTerm e) result)
         /\ forall t, In t (map (fun e => originalTerm e) result)
                      <-> In t (map term (allTermsOf cfg queryText))
     | None =>
         map (fun e => originalTerm e) result = map term (tokenize cfg queryText)
     end.
Proof.
  intros result. subst result. split; [apply expandQuery_shaped|].
  destruct vectors as [vectors|].
  - split; [|intros t; apply (expandQuery_originals cfg queryText (Some vectors))].
    unfold expandQuery. rewrite map_map. cbn [originalTerm]. rewrite map_id.
    apply uniq_NoDup.
  - unfold expandQuery. now rewrite map_map.
Qed.

Context {T : Num.Truth num}.
Variable getVectors : Z -> option CoOccurrenceIndex.

Lemma expandQueryMultiDoc_spec (queryText : string) (documentIds : list Z) :
  let cs := contributions cfg getVectors queryText documentIds in
  let result := expandQueryMultiDoc cfg getVectors queryText documentIds in
  NoDup (map (fun e => originalTerm e) result)
  /\ (forall t, In t (map (fun e => originalTerm e) result)
                <-> In t (map (fun c => originalTerm c) cs))
  /\ Forall (fun e =>
               (exists more, expandedTerms e = originalTerm e :: more)
               /\ NoDup (expandedTerms e)
               /\ List.length (similarities e) = List.length (expandedTerms e)
               /\ plainTerm (originalTerm e)
               /\ forall U, In U (expandedTerms e) <-> brings cs (originalTerm e) U)
            result.
Proof.
  intros cs result. subst result.
  assert (Hkeys : map (fun e => originalTerm e)
                      (expandQueryMultiDoc cfg getVectors queryText documentIds)
                  = map_keys (fold_left mergeConcept cs [])).
  { unfold expandQueryMultiDoc. rewrite mergeDocuments_concepts. fold cs.
    unfold map_keys. rewrite map_map. apply map_ext. now intros [k m]. }
  assert (Hwf : map_wf (fold_left mergeConcept cs []))
    by (apply mergeConcepts_wf; constructor).
  split; [rewrite Hkeys; exact Hwf|].
  split; [intros t; rewrite Hkeys; apply merged_keys|].
  apply Forall_forall. intros e He.
  apply multiDoc_entries in He as (m & Hin & HE & HS). fold cs in Hin.
  pose proof (@map_get_of_in _ _ _ _ Hwf Hin) as Hget.
  rewrite mergeConcepts_get in Hget. simpl in Hget.
  pose proof (@mergeEntries_spec num N T (originalTerm e) cs None I) as Hspec.
  rewrite Hget in Hspec. destruct Hspec as ((_ & Hhead & Hnd) & Hsome & Hterms).
  destruct Hsome as [Hsome | (c & Hc & Ht)]; [congruence|].
  pose proof (contributions_shaped cfg getVectors queryText documentIds) as Hshape.
  fold cs in Hshape. rewrite Forall_forall in Hshape.
  destruct (Hshape c Hc) as ((more & Hc1) & _ & _ & _ & Hplain).
  rewrite HE. split; [exact Hhead|]. split; [exact Hnd|].
  split; [rewrite HS; apply length_map|]. split; [now rewrite <- Ht|].
  intros U. rewrite Hterms. cbn [freshEntry m_expandedTerms]. split.
  - intros [[<- | []] | H]; [|exact H]. exists c. rewrite Hc1, Ht. simpl. auto.
  - auto.
Qed.

(** [expandQueryMultiDoc] merges the concepts of the documents by original
    term: the result has one entry for each original term some document
    contributes, and none twice; the expanded terms of an entry start with
    the original term, hold no term twice and are exactly the terms the
    documents bring for that original term; every expanded term has its
    similarity. *)
Theorem expandQueryMultiDoc_merges (queryText : string) (documentIds : list Z) :
  let cs := contributions cfg getVectors queryText documentIds in
  let result := expandQueryMultiDoc cfg getVectors queryText documentIds in
  NoDup (map (fun e => originalTerm e) result)
  /\ (forall t, In t (map (fun e => originalTerm e) result)
                <-> In t (map (fun c => originalTerm c) cs))
  /\ Forall (fun e =>
               (exists more, expandedTerms e = originalTerm e :: more)
               /\ NoDup (expandedTerms e)
               /\ List.length (similarities e) = List.length (expandedTerms e)
               /\ plainTerm (originalTerm e)
               /\ forall U, In U (expandedTerms e) <-> brings cs (originalTerm e) U)
            result.
Proof. apply expandQueryMultiDoc_spec. Qed.

End OneDocument.

Section Maximum.
Variable cfg : Config R.
Variable getVectors : Z -> option CoOccurrenceIndex.
Local Open Scope R_scope.

(** In exact arithmetic, the similarity [expandQueryMultiDoc] keeps for an
    expanded term is the maximum of the similarities the documents give it
    for that original term: some document gives it, and none gives more. *)
Theorem expandQueryMultiDoc_keeps_maximum (queryText : string) (documentIds : list Z) :
  let cs := contributions cfg getVectors queryText documentIds in
  Forall (fun e =>
            Forall2 (fun U s =>
                       observed cs (originalTerm e) U s
                       /\ forall s', observed cs (originalTerm e) U s' -> s' <= s)
                    (expandedTerms e) (similarities e))
         (expandQueryMultiDoc cfg getVectors queryText documentIds).
Proof.
  intros cs. apply Forall_forall. intros e He.
  apply multiDoc_entries in He as (m & Hin & HE & HS). fold cs in Hin.
  assert (Hwf : map_wf (fold_left mergeConcept cs []))
    by (apply mergeConcepts_wf; constructor).
  pose proof (@map_get_of_in _ _ _ _ Hwf Hin) as Hget.
  rewrite mergeConcepts_get in Hget. simpl in Hget.
  pose proof (@mergeEntries_spec R _ _ (originalTerm e) cs None I) as Hspec.
  rewrite Hget in Hspec. destruct Hspec as (_ & Hsome & Hterms).
  destruct Hsome as [Hsome | (c0 & Hc0 & Ht0)]; [congruence|].
  pose proof (contributions_shaped cfg getVectors queryText documentIds) as Hshape.
  fold cs in Hshape. rewrite Forall_forall in Hshape.
  pose proof (contributions_nonneg cfg getVectors queryText documentIds) as Hpos.
  fold cs in Hpos. rewrite Forall_forall in Hpos.
  assert (Hvalue : forall U,
            valueOf m U
            = fold_left Rmax (simsFor (originalTerm e) cs U)
                (if String.eqb (originalTerm e) U then 1 else 0)).
  { intros U. pose proof (mergeEntries_value (originalTerm e) U cs None) as H.
    rewrite Hget in H. now rewrite H, freshEntry_value. }
  rewrite HE, HS.
  assert (Hall : forall U, In U (m_expandedTerms m) ->
            observed cs (originalTerm e) U (valueOf m U)
            /\ forall s', observed cs (originalTerm e) U s' -> s' <= valueOf m U).
  { intros U HU.
    assert (Hmax : forall s', observed cs (originalTerm e) U s' -> s' <= valueOf m U).
    { intros s' Hs'. apply simsFor_in in Hs'. rewrite Hvalue.
      destruct (fold_Rmax_ge (simsFor (originalTerm e) cs U)
                  (if String.eqb (originalTerm e) U then 1 else 0)) as [_ H].
      rewrite Forall_forall in H. auto. }
    split; [|exact Hmax].
    pose proof (fold_Rmax_in (simsFor (originalTerm e) cs U)
                  (if String.eqb (originalTerm e) U then 1 else 0)) as Hat.
    rewrite <- Hvalue in Hat. destruct Hat as [Hat | Hat]; [|now apply simsFor_in].
    destruct (String.eqb (originalTerm e) U) eqn:E.
    - apply String.eqb_eq in E. subst U. rewrite <- Hat.
      destruct (Hshape c0 Hc0) as ((more & H1) & (more' & H2) & _).
      exists c0, 0%nat. rewrite H1, H2, Ht0. simpl. auto.
    - apply Hterms in HU. cbn [freshEntry m_expandedTerms] in HU.
      destruct HU as [[HU | []] | (c & Hc & Ht & HU)].
      { apply String.eqb_neq in E. contradiction. }
      apply In_nth_error in HU as (j & Hj).
      destruct (Hshape c Hc) as (_ & _ & Hlen & _).
      destruct (nth_error (similarities c) j) as [s'|] eqn:Hs.
      2:{ apply nth_error_None in Hs.
          assert (j < List.length (expandedTerms c))%nat
            by (apply nth_error_Some; congruence).
          lia. }
      assert (Hobs : observed cs (originalTerm e) U s') by (exists c, j; auto).
      pose proof (Hmax s' Hobs) as Hle.
      pose proof (Hpos c Hc) as Hnn. rewrite Forall_forall in Hnn.
      pose proof (Hnn s' (nth_error_In _ _ Hs)) as H0.
      replace (valueOf m U) with s' by lra. exact Hobs. }
  clear -Hall. induction (m_expandedTerms m) as [|U l IH]; simpl; constructor.
  - apply Hall. now left.
  - apply IH. intros U' HU'. apply Hall. now right.
Qed.

End Maximum.

Section Distinct.
Context {num : Type} {N : Num.Number num}.
Variable cfg : Config num.

(** [findSimilarTerms] returns no term twice, the matrix of the index being
    a [Map], which has no key twice. *)
Theorem findSimilarTerms_no_term_twice (queryTerm : string)
    (data : CoOccurrenceIndex) (maxResults : nat) :
  map_wf (matrix data) ->
  NoDup (map (fun s => sim_term s) (findSimilarTerms cfg queryTerm data maxResults)).
Proof. apply findSimilarTerms_distinct. Qed.

End Distinct.

Lemma findSimilarTerms_no_term_twice_witness :
  NoDup (map (fun s => sim_term s)
             (findSimilarTerms (CONFIG (num:=float)) "fuel"
                (buildCoOccurrenceMatrix (CONFIG (num:=float)) tie_text) 5)).
Proof.
  apply (@findSimilarTerms_no_term_twice float _ CONFIG "fuel"
           (buildCoOccurrenceMatrix CONFIG tie_text) 5).
  unfold map_wf. vm_compute.
  repeat (constructor; [simpl; intuition discriminate|]). constructor.
Defined.

End ExpansionTheorems.


(* ===================================================================== *)
(** * The engine after the ranking                                        *)
(* ===================================================================== *)

Module EngineFacts.
Import Js Order PackSpec PackingSpec JsFacts Search.

(** ** Subsequences *)

Lemma subsequence_refl {A} (l : list A) : subsequence l l.
Proof. induction l; constructor; auto. Qed.

Lemma subsequence_nil {A} (l : list A) : subsequence [] l.
Proof. induction l; constructor; auto. Qed.

Lemma subsequence_firstn {A} (n : nat) (l : list A) : subsequence (firstn n l) l.
Proof.
  revert n. induction l as [|x l IH]; intros [|n]; simpl; try constructor; auto.
  apply subsequence_nil.
Qed.

Lemma subsequence_snoc {A} (l1 l2 : list A) (x : A) :
  subsequence l1 l2 -> subsequence (l1 ++ [x]) (l2 ++ [x]).
Proof.
  induction 1; simpl; constructor; auto. constructor.
Qed.

Lemma subsequence_skip_last {A} (l1 l2 : list A) (x : A) :
  subsequence l1 l2 -> subsequence l1 (l2 ++ [x]).
Proof.
  induction 1; simpl; try (constructor; auto; fail).
  constructor. constructor.
Qed.

Lemma subsequence_in {A} (l1 l2 : list A) (x : A) :
  subsequence l1 l2 -> In x l1 -> In x l2.
Proof.
  induction 1; simpl; [tauto| |]; intros H'; [destruct H'; auto|auto].
Qed.

Lemma subsequence_Forall {A} (P : A -> Prop) (l1 l2 : list A) :
  subsequence l1 l2 -> Forall P l2 -> Forall P l1.
Proof.
  intros Hs Hall. rewrite Forall_forall in *. intros x Hx.
  apply Hall. eapply subsequence_in; eauto.
Qed.

Lemma subsequence_length {A} (l1 l2 : list A) :
  subsequence l1 l2 -> List.length l1 <= List.length l2.
Proof. induction 1; simpl; lia. Qed.

(** ** The counts of the limiter *)

Lemma topicCount_set (m : list (Z * nat)) (k k' : Z) (v : nat) :
  topicCount (setTopicCount m k v) k' = if (k =? k')%Z then v else topicCount m k'.
Proof.
  induction m as [|[k0 v0] m IH]; simpl.
  - reflexivity.
  - destruct (k0 =? k)%Z eqn:E; simpl.
    + apply Z.eqb_eq in E. subst k0. now destruct (k =? k')%Z.
    + rewrite IH. destruct (k0 =? k')%Z eqn:E'; [|reflexivity].
      apply Z.eqb_eq in E'. subst k0. rewrite Z.eqb_sym in E. now rewrite E.
Qed.

Lemma limitStep_eq {num} (maxPerTopic : Z) (result : list (SuperChunk num))
    (counts : list (Z * nat)) (sc : SuperChunk num) :
  limitStep maxPerTopic (result, counts) sc
  = match topics sc with
    | [] => (result, counts)
    | t :: _ =>
        if (Z.of_nat (topicCount counts (sec_topicId t)) <? maxPerTopic)%Z
        then (result ++ [sc],
              setTopicCount counts (sec_topicId t)
                (topicCount counts (sec_topicId t) + 1))
        else (result, counts)
    end.
Proof. reflexivity. Qed.

Lemma limitStep_prefix {num} (maxPerTopic : Z) (l : list (SuperChunk num))
    (result : list (SuperChunk num)) (counts : list (Z * nat)) :
  exists more, fst (fold_left (limitStep maxPerTopic) l (result, counts)) = result ++ more.
Proof.
  revert result counts. induction l as [|sc l IH]; intros result counts; cbn [fold_left].
  - exists []. simpl. now rewrite app_nil_r.
  - rewrite limitStep_eq.
    destruct (topics sc) as [|t ts]; [apply IH|].
    destruct (_ <? _)%Z; [|apply IH].
    destruct (IH (result ++ [sc]) (setTopicCount counts (sec_topicId t)
                                     (topicCount counts (sec_topicId t) + 1)))
      as (more & ->).
    exists (sc :: more). now rewrite <- app_assoc.
Qed.

Lemma countedFor_app {num} (k : Z) (l1 l2 : list (SuperChunk num)) :
  countedFor k (l1 ++ l2) = countedFor k l1 ++ countedFor k l2.
Proof. apply filter_app. Qed.

Lemma firstn_snoc_short {A} (n : nat) (l : list A) (x : A) :
  List.length (firstn n l) < n -> firstn n (l ++ [x]) = firstn n l ++ [x].
Proof.
  intros H. rewrite length_firstn in H.
  assert (Hl : List.length l < n) by lia.
  rewrite (@firstn_all2 _ n l) by lia.
  apply firstn_all2. rewrite length_app. simpl. lia.
Qed.

Lemma firstn_snoc_full {A} (n : nat) (l : list A) (x : A) :
  n <= List.length (firstn n l) -> firstn n (l ++ [x]) = firstn n l.
Proof.
  intros H. rewrite length_firstn in H.
  rewrite firstn_app. replace (n - List.length l) with 0 by lia.
  simpl. apply app_nil_r.
Qed.

(** The loop of the limiter: for each topic the first super chunks counted
    for it are kept, up to the limit. *)
Lemma limitStep_loop {num} (maxPerTopic : Z) (l done : list (SuperChunk num))
    (result : list (SuperChunk num)) (counts : list (Z * nat)) :
  subsequence result done ->
  (forall k, topicCount counts k = List.length (countedFor k result)) ->
  (forall k, countedFor k result = firstn (Z.to_nat maxPerTopic) (countedFor k done)) ->
  Forall (fun sc => topics sc <> []) result ->
  let kept := fst (fold_left (limitStep maxPerTopic) l (result, counts)) in
  subsequence kept (done ++ l)
  /\ (forall k, countedFor k kept
                = firstn (Z.to_nat maxPerTopic) (countedFor k (done ++ l)))
  /\ Forall (fun sc => topics sc <> []) kept.
Proof.
  revert done result counts.
  induction l as [|sc l IH]; intros done result counts Hsub Hcount Hfirst Hne;
    cbn [fold_left].
  - simpl. rewrite app_nil_r. auto.
  - replace (done ++ sc :: l) with ((done ++ [sc]) ++ l) by now rewrite <- app_assoc.
    cbv zeta. rewrite limitStep_eq.
    destruct (topics sc) as [|t ts] eqn:Et.
    + apply IH; auto.
      * now apply subsequence_skip_last.
      * intros k. rewrite countedFor_app. unfold countedFor at 3. simpl.
        unfold primaryTopic. rewrite Et. simpl. now rewrite app_nil_r.
    + assert (Hone : forall k, countedFor k [sc]
                              = if (sec_topicId t =? k)%Z then [sc] else []).
      { intros k. unfold countedFor. simpl. unfold primaryTopic. now rewrite Et. }
      destruct (Z.of_nat (topicCount counts (sec_topicId t)) <? maxPerTopic)%Z eqn:L.
      * apply Z.ltb_lt in L. apply IH.
        -- now apply subsequence_snoc.
        -- intros k. rewrite topicCount_set, countedFor_app, length_app, Hone.
           destruct (sec_topicId t =? k)%Z eqn:E; simpl.
           ++ apply Z.eqb_eq in E. subst k. now rewrite Hcount.
           ++ rewrite Hcount. lia.
        -- intros k. rewrite !countedFor_app, Hone.
           destruct (sec_topicId t =? k)%Z eqn:E; [|now rewrite !app_nil_r].
           apply Z.eqb_eq in E. subst k. rewrite Hfirst.
           symmetry. apply firstn_snoc_short.
           rewrite <- Hfirst, <- Hcount. lia.
        -- apply Forall_app. split; [exact Hne|]. constructor; [|constructor].
           rewrite Et. discriminate.
      * apply Z.ltb_ge in L. apply IH; auto.
        -- now apply subsequence_skip_last.
        -- intros k. rewrite countedFor_app, Hone.
           destruct (sec_topicId t =? k)%Z eqn:E; [|now rewrite app_nil_r].
           apply Z.eqb_eq in E. subst k. rewrite Hfirst.
           symmetry. apply firstn_snoc_full.
           rewrite <- Hfirst, <- Hcount. lia.
Qed.

(** ** The combination of the topics *)

Section Combine.
Context {num : Type}.

Local Abbreviation idOf := (fun c : ScoredChunk num => id (chunk c)).

Local Abbreviation combineStep :=
  (fun (state : list (ScoredChunk num) * list Z) (c : ScoredChunk num) =>
     let '(allChunks, seenIds) := state in
     if existsb (Z.eqb (id (chunk c))) seenIds then state
     else (allChunks ++ [c], seenIds ++ [id (chunk c)])).

Lemma combine_flat (topicResults : list (TopicResult num))
    (state : list (ScoredChunk num) * list Z) :
  fold_left (fun state topicResult => fold_left combineStep (tr_chunks topicResult) state)
            topicResults state
  = fold_left combineStep (flat_map (fun tr => tr_chunks tr) topicResults) state.
Proof.
  revert state. induction topicResults as [|tr trs IH]; intros state; simpl; [reflexivity|].
  now rewrite fold_left_app, IH.
Qed.

Lemma seen_in (seen : list Z) (k : Z) : existsb (Z.eqb k) seen = true <-> In k seen.
Proof.
  rewrite existsb_exists. split.
  - intros (x & Hx & E). apply Z.eqb_eq in E. now subst.
  - intros H. exists k. split; [exact H|apply Z.eqb_refl].
Qed.

Lemma combine_loop (cs : list (ScoredChunk num)) (allChunks : list (ScoredChunk num))
    (seenIds : list Z) :
  seenIds = map idOf allChunks -> NoDup seenIds ->
  let combined := fst (fold_left combineStep cs (allChunks, seenIds)) in
  NoDup (map idOf combined)
  /\ (forall c, In c combined -> In c allChunks \/ In c cs)
  /\ (forall c, In c allChunks \/ In c cs -> In (idOf c) (map idOf combined)).
Proof.
  revert allChunks seenIds. induction cs as [|c cs IH]; intros allChunks seenIds Hseen Hnd.
  - simpl. subst seenIds. split; [exact Hnd|]. split; [auto|].
    intros c [H | []]. apply in_map_iff. now exists c.
  - cbn [fold_left]. destruct (existsb (Z.eqb (id (chunk c))) seenIds) eqn:E.
    + apply seen_in in E. destruct (IH allChunks seenIds Hseen Hnd) as (H1 & H2 & H3).
      split; [exact H1|]. split.
      * intros c' Hc'. apply H2 in Hc' as [? | ?]; [auto|right; now right].
      * intros c' [Hc' | [<- | Hc']]; [auto| |auto].
        subst seenIds. apply in_map_iff in E as (c0 & E0 & Hc0).
        rewrite <- E0. apply H3. now left.
    + assert (Hno : ~ In (id (chunk c)) seenIds).
      { intros H. apply seen_in in H. congruence. }
      destruct (IH (allChunks ++ [c]) (seenIds ++ [id (chunk c)])) as (H1 & H2 & H3).
      * subst seenIds. now rewrite map_app.
      * apply NoDup_app; [exact Hnd|repeat constructor; simpl; tauto|].
        intros x Hx [<- | []]. contradiction.
      * split; [exact H1|]. split.
        -- intros c' Hc'. apply H2 in Hc' as [Hc' | Hc']; [|right; now right].
           apply in_app_iff in Hc' as [? | [<- | []]]; [auto|right; now left].
        -- intros c' [Hc' | [<- | Hc']]; apply H3.
           ++ left. apply in_or_app. now left.
           ++ left. apply in_or_app. right. now left.
           ++ now right.
Qed.

End Combine.

(** ** The packer keeps every chunk *)

Section Packer.
Context {num : Type} {F : Num.Format num}.

Lemma chunksOf_app (l1 l2 : list (SuperChunk num)) :
  flat_map chunksOf (l1 ++ l2) = flat_map chunksOf l1 ++ flat_map chunksOf l2.
Proof. apply flat_map_app. Qed.

Lemma no_chunks (s : TopicSection num) :
  (0 <? List.length (chunks s)) = false -> chunks s = [].
Proof. destruct (chunks s); [reflexivity|discriminate]. Qed.

Lemma packChunk_packed maxChars headerChars topicResult topicHeaderChars
    (p p' : Packer num) (s s' : TopicSection num) (c : ScoredChunk num) :
  packChunk maxChars headerChars topicResult topicHeaderChars (p, s) c = (p', s') ->
  packed p' s' = packed p s ++ [c].
Proof.
  intros E. unfold packChunk in E. unfold packed.
  destruct ((maxChars <? _)%Z && _); injection E as <- <-.
  - cbn [superChunks currentTopics chunks flat_map app].
    rewrite chunksOf_app. cbn [flat_map]. unfold chunksOf at 3. cbn [topics].
    rewrite app_nil_r, <- !app_assoc. f_equal.
    unfold chunksOf. cbn [topics]. rewrite app_assoc. f_equal.
    destruct (0 <? List.length (chunks s)) eqn:L.
    + rewrite flat_map_app. cbn [flat_map]. now rewrite app_nil_r.
    + now rewrite (no_chunks s L), app_nil_r.
  - unfold pushChunk. cbn [superChunks currentTopics chunks]. now rewrite !app_assoc.
Qed.

Lemma packChunks_packed maxChars headerChars topicResult topicHeaderChars
    (cs : list (ScoredChunk num)) (p p' : Packer num) (s s' : TopicSection num) :
  fold_left (packChunk maxChars headerChars topicResult topicHeaderChars) cs (p, s)
    = (p', s') ->
  packed p' s' = packed p s ++ cs.
Proof.
  revert p s. induction cs as [|c cs IH]; intros p s E; cbn [fold_left] in E.
  - injection E as <- <-. now rewrite app_nil_r.
  - destruct (packChunk maxChars headerChars topicResult topicHeaderChars (p, s) c)
      as [p1 s1] eqn:E1.
    rewrite (IH p1 s1 E), (packChunk_packed _ _ _ _ _ _ _ E1).
    now rewrite <- app_assoc.
Qed.

Lemma packTopic_packed maxChars headerChars (p : Packer num)
    (it : nat * TopicResult num) :
  packed (packTopic maxChars headerChars p it) noSection
  = packed p noSection ++ sortChunksChronologically (tr_chunks (snd it)).
Proof.
  unfold packTopic. destruct it as [topicIndex topicResult]. cbn [snd].
  destruct (List.length (tr_chunks topicResult) =? 0) eqn:L.
  - apply Nat.eqb_eq in L. destruct (tr_chunks topicResult); [|discriminate].
    simpl. now rewrite app_nil_r.
  - match goal with
    | |- context [fold_left ?f ?l (p, ?s)] =>
        destruct (fold_left f l (p, s)) as [p' s'] eqn:E;
        apply packChunks_packed in E
    end.
    assert (E' : packed p' s'
                 = packed p noSection ++ sortChunksChronologically (tr_chunks topicResult)).
    { rewrite E. unfold packed. now cbn [chunks noSection]. }
    rewrite <- E'. unfold packed. cbn [chunks noSection].
    destruct (0 <? List.length (chunks s')) eqn:L'.
    + cbn [superChunks currentTopics]. rewrite flat_map_app. cbn [flat_map].
      now rewrite !app_nil_r.
    + now rewrite (no_chunks s' L').
Qed.

(** ** The marks of the super chunks *)

Lemma firstFlags_snoc (n : nat) : firstFlags (n + 1) = firstFlags n ++ [n =? 0].
Proof.
  destruct n as [|k]; [reflexivity|].
  simpl. f_equal. replace (k + 1) with (S k) by lia.
  induction k as [|k IH]; [reflexivity|]. simpl. f_equal. exact IH.
Qed.

Lemma marked_prefix (first : bool) (l : list (TopicSection num)) (t : TopicSection num) :
  marked first (l ++ [t]) -> marked first l.
Proof.
  destruct l as [|t0 l]; simpl; [auto|]. intros [H1 H2]. split; [exact H1|].
  apply Forall_app in H2. tauto.
Qed.

Lemma marked_flags (first : bool) (l l' : list (TopicSection num)) :
  map (fun t => isContinuation t) l = map (fun t => isContinuation t) l' ->
  marked first l -> marked first l'.
Proof.
  destruct l as [|t l], l' as [|t' l']; simpl; try discriminate; [auto|].
  intros [= E1 E2] [H1 H2]. split; [congruence|].
  revert l' E2. induction H2 as [|x l Hx _ IH]; intros [|x' l'] E2; try discriminate;
    constructor.
  - injection E2 as E2 _. congruence.
  - apply IH. now injection E2.
Qed.

Lemma packChunk_marks maxChars headerChars topicResult topicHeaderChars
    (p p' : Packer num) (s s' : TopicSection num) (c : ScoredChunk num) :
  packChunk maxChars headerChars topicResult topicHeaderChars (p, s) c = (p', s') ->
  marksInOrder p s -> marksInOrder p' s'.
Proof.
  intros E (Hflags & Hfirst & Hclosed & Hopen & _). unfold packChunk in E.
  destruct ((maxChars <? _)%Z && _); injection E as <- <-; unfold marksInOrder.
  - cbn [superChunks currentTopics isFirstSuperChunk chunks app].
    rewrite map_app, length_app, Hflags, firstFlags_snoc. cbn [map isFirst List.length].
    split; [now rewrite Hfirst|]. split; [now rewrite Nat.add_1_r|].
    split; [|split; [simpl; auto|intros _; right; discriminate]].
    apply Forall_app. split; [exact Hclosed|]. constructor; [|constructor].
    cbn [isFirst topics].
    destruct (0 <? List.length (chunks s)); [exact Hopen|].
    now apply marked_prefix with s.
  - cbn [superChunks currentTopics isFirstSuperChunk].
    split; [exact Hflags|]. split; [exact Hfirst|]. split; [exact Hclosed|]. split.
    + apply marked_flags with (currentTopics p ++ [s]); [|exact Hopen].
      now rewrite !map_app.
    + intros _. right. unfold pushChunk. cbn [chunks]. now destruct (chunks s).
Qed.

Lemma packChunks_marks maxChars headerChars topicResult topicHeaderChars
    (cs : list (ScoredChunk num)) (p p' : Packer num) (s s' : TopicSection num) :
  fold_left (packChunk maxChars headerChars topicResult topicHeaderChars) cs (p, s)
    = (p', s') ->
  marksInOrder p s -> marksInOrder p' s'.
Proof.
  revert p s. induction cs as [|c cs IH]; intros p s E H; cbn [fold_left] in E.
  - now injection E as <- <-.
  - destruct (packChunk maxChars headerChars topicResult topicHeaderChars (p, s) c)
      as [p1 s1] eqn:E1.
    apply (IH p1 s1 E). eapply packChunk_marks; eassumption.
Qed.

Lemma packTopic_marks maxChars headerChars (p : Packer num)
    (it : nat * TopicResult num) :
  marksBetween p -> marksBetween (packTopic maxChars headerChars p it).
Proof.
  intros (Hflags & Hfirst & Hclosed & Hcur & Hne).
  unfold packTopic. destruct it as [topicIndex topicResult].
  destruct (List.length (tr_chunks topicResult) =? 0); [repeat split; assumption|].
  match goal with
  | |- context [fold_left ?f ?l (p, ?s)] =>
      destruct (fold_left f l (p, s)) as [p' s'] eqn:E;
      apply packChunks_marks in E
  end.
  - destruct E as (Hflags' & Hfirst' & Hclosed' & Hopen' & Hne').
    destruct (0 <? List.length (chunks s')) eqn:L; unfold marksBetween.
    + cbn [superChunks currentTopics isFirstSuperChunk].
      repeat split; try assumption. intros _. now destruct (currentTopics p').
    + repeat split; try assumption.
      * now apply marked_prefix with s'.
      * intros Hf. destruct (Hne' Hf) as [H | H]; [exact H|].
        now rewrite (no_chunks s' L) in H.
  - unfold marksInOrder. repeat split; try assumption.
    + destruct (currentTopics p) as [|t ts] eqn:Ect; simpl.
      * split; [|constructor]. destruct (isFirstSuperChunk p); [reflexivity|].
        exfalso. now apply Hne.
      * simpl in Hcur. destruct Hcur as [H1 H2]. split; [exact H1|].
        apply Forall_app. split; [exact H2|]. now constructor.
    + intros Hf. left. now apply Hne.
Qed.

(** ** The formatter *)

Variable getDocument : Z -> option Document.

Lemma formatTopicSection_fails (t : TopicSection num) :
  formatTopicSection getDocument t = None <-> defective getDocument t.
Proof.
  unfold formatTopicSection, defective. destruct (chunks t) as [|c cs]; [tauto|].
  destruct (getDocument (documentId (chunk c))); split; congruence.
Qed.

Lemma formatTopicSections_fails (l : list (TopicSection num)) :
  formatTopicSections getDocument l = None
  <-> exists t, In t l /\ defective getDocument t.
Proof.
  induction l as [|t l IH]; simpl.
  - split; [discriminate|]. intros (t & [] & _).
  - destruct (formatTopicSection getDocument t) eqn:E1.
    + destruct (formatTopicSections getDocument l) eqn:E2.
      * split; [discriminate|]. intros (t' & [<- | Ht'] & Hd).
        -- apply formatTopicSection_fails in Hd. congruence.
        -- assert (H : exists t, In t l /\ defective getDocument t) by eauto.
           apply IH in H. discriminate.
      * split; [intros _|reflexivity].
        destruct (proj1 IH eq_refl) as (t' & Ht' & Hd). eauto.
    + split; [intros _|reflexivity]. exists t. split; [now left|].
      now apply formatTopicSection_fails.
Qed.

Lemma formatSuperChunkContent_fails (sc : SuperChunk num) (n total : nat)
    (allTopics : option (list string)) :
  formatSuperChunkContent getDocument sc n total allTopics = None
  <-> exists t, In t (topics sc) /\ defective getDocument t.
Proof.
  unfold formatSuperChunkContent. rewrite <- formatTopicSections_fails.
  destruct (formatTopicSections getDocument (topics sc)); split; congruence.
Qed.

Lemma chunkCount_sum (l : list (TopicSection num)) (n : nat) :
  fold_left (fun sum t => sum + List.length (chunks t)) l n = n + chunksIn l.
Proof.
  revert n. unfold chunksIn. induction l as [|t l IH]; intros n; simpl; [lia|].
  rewrite IH. lia.
Qed.

Lemma formatFrom_result (scs : list (SuperChunk num)) (i total : nat)
    (allTopics : list string) :
  match formatFrom getDocument i total allTopics scs with
  | None => exists sc t, In sc scs /\ In t (topics sc) /\ defective getDocument t
  | Some formatted =>
      (forall sc t, In sc scs -> In t (topics sc) -> ~ defective getDocument t)
      /\ map (fun f => index f) formatted = seq i (List.length scs)
      /\ map (fun f => chunkCount f) formatted = map (fun sc => chunksIn (topics sc)) scs
      /\ Forall (fun f => charCount f = strlen (formattedContent f)) formatted
  end.
Proof.
  revert i. induction scs as [|sc scs IH]; intros i; simpl.
  - split; [intros sc t []|]. repeat split; constructor.
  - specialize (IH (i + 1)).
    destruct (formatSuperChunkContent getDocument sc (i + 1) total
                (if i =? 0 then Some allTopics else None)) as [text|] eqn:E.
    + assert (Hok : forall t, In t (topics sc) -> ~ defective getDocument t).
      { intros t Ht Hd.
        assert (H : exists t, In t (topics sc) /\ defective getDocument t) by eauto.
        apply formatSuperChunkContent_fails
          with (n := i + 1) (total := total)
               (allTopics := if i =? 0 then Some allTopics else None) in H.
        congruence. }
      destruct (formatFrom getDocument (i + 1) total allTopics scs) as [formatted|].
      * destruct IH as (H1 & H2 & H3 & H4). split; [|split; [|split]].
        -- intros sc' t [<- | Hsc'] Ht; [now apply Hok|now apply (H1 sc')].
        -- simpl. rewrite H2. now replace (i + 1) with (S i) by lia.
        -- simpl. rewrite H3. f_equal. now rewrite chunkCount_sum.
        -- constructor; [reflexivity|exact H4].
      * destruct IH as (sc' & t & Hsc' & Ht & Hd). exists sc', t. auto.
    + apply formatSuperChunkContent_fails in E as (t & Ht & Hd).
      exists sc, t. auto.
Qed.

End Packer.

End EngineFacts.

Module EngineTheorems.
Import Js Order PackSpec PackingSpec Samples JsFacts Search.
Import ExpansionFacts EngineFacts.

Section Engine.
Context {num : Type} {N : Num.Number num}.

Lemma filterBySpatialCategory_cases (chunks : list (ScoredChunk num))
    (category : string) :
  let kept := filterBySpatialCategory chunks category in
  (kept = chunks \/ kept = [])
  /\ (category <> "concentrated"%string -> category <> "spread"%string -> kept = chunks)
  /\ (category = "concentrated"%string \/ category = "spread"%string ->
      List.length chunks <= 1 -> kept = []).
Proof.
  intros kept. subst kept. unfold filterBySpatialCategory.
  set (pattern := detectSpatialPattern (calculateSpatialVariance chunks) (List.length chunks)).
  split; [|split].
  - destruct (String.eqb category "concentrated" && String.eqb pattern "concentrated");
      [now left|].
    destruct (String.eqb category "spread" && String.eqb pattern "spread"); [now left|].
    destruct (String.eqb category "concentrated" || String.eqb category "spread"); auto.
  - intros H1 H2. apply String.eqb_neq in H1, H2. now rewrite H1, H2.
  - intros Hcat Hlen.
    assert (Hp : String.eqb pattern "concentrated" = false
                 /\ String.eqb pattern "spread" = false).
    { unfold pattern, detectSpatialPattern.
      destruct (List.length chunks) as [|[|n]]; [auto|auto|lia]. }
    destruct Hp as [Hp1 Hp2]. rewrite Hp1, Hp2, !andb_false_r.
    destruct Hcat as [-> | ->]; reflexivity.
Qed.

(** The spatial filter keeps all the chunks of a topic or none.  It keeps
    them for every category but "concentrated" and "spread"; for these two
    it drops them whenever the topic has at most one chunk, since the
    pattern of such a topic is "none" or "single". *)
Theorem spatial_filter_all_or_nothing (chunks : list (ScoredChunk num))
    (category : string) :
  let kept := filterBySpatialCategory chunks category in
  (kept = chunks \/ kept = [])
  /\ (category <> "concentrated"%string -> category <> "spread"%string -> kept = chunks)
  /\ (category = "concentrated"%string \/ category = "spread"%string ->
      List.length chunks <= 1 -> kept = []).
Proof. apply filterBySpatialCategory_cases. Qed.

Lemma combineTopicResults_spec (topicResults : list (TopicResult num)) :
  let combined := combineTopicResults topicResults in
  NoDup (map (fun c => id (chunk c)) combined)
  /\ (forall c, In c combined ->
        exists topicResult, In topicResult topicResults /\ In c (tr_chunks topicResult))
  /\ (forall topicResult c,
        In topicResult topicResults -> In c (tr_chunks topicResult) ->
        In (id (chunk c)) (map (fun c => id (chunk c)) combined)).
Proof.
  intros combined. subst combined. unfold combineTopicResults.
  rewrite combine_flat.
  destruct (@combine_loop num (flat_map (fun tr => tr_chunks tr) topicResults) [] []
              eq_refl (NoDup_nil _)) as (H1 & H2 & H3).
  split; [exact H1|]. split.
  - intros c Hc. apply H2 in Hc as [[] | Hc].
    apply in_flat_map in Hc as (tr & Htr & Hc). eauto.
  - intros tr c Htr Hc. apply H3. right. apply in_flat_map. eauto.
Qed.

(** [combineTopicResults] holds every chunk [id] of the topic results once:
    no [id] stands twice, every chunk comes from a topic result, and the
    [id] of every chunk of every topic result is there. *)
Theorem combineTopicResults_once (topicResults : list (TopicResult num)) :
  let combined := combineTopicResults topicResults in
  NoDup (map (fun c => id (chunk c)) combined)
  /\ (forall c, In c combined ->
        exists topicResult, In topicResult topicResults /\ In c (tr_chunks topicResult))
  /\ (forall topicResult c,
        In topicResult topicResults -> In c (tr_chunks topicResult) ->
        In (id (chunk c)) (map (fun c => id (chunk c)) combined)).
Proof. apply combineTopicResults_spec. Qed.

Lemma limitSuperChunksPerTopic_spec (allSuperChunks : list (SuperChunk num))
    (numTopics : nat) (maxPerTopic : Z) :
  let kept := limitSuperChunksPerTopic allSuperChunks numTopics maxPerTopic in
  subsequence kept allSuperChunks
  /\ (if numTopics =? 1
      then (0 <= maxPerTopic)%Z -> kept = firstn (Z.to_nat maxPerTopic) allSuperChunks
      else (forall k, countedFor k kept
                      = firstn (Z.to_nat maxPerTopic) (countedFor k allSuperChunks))
           /\ Forall (fun sc => topics sc <> []) kept).
Proof.
  intros kept. subst kept. unfold limitSuperChunksPerTopic.
  destruct (numTopics =? 1).
  - unfold slice0. destruct (0 <=? maxPerTopic)%Z eqn:L.
    + split; [apply subsequence_firstn|reflexivity].
    + split; [apply subsequence_firstn|]. apply Z.leb_gt in L. lia.
  - assert (Hloop := @limitStep_loop num maxPerTopic allSuperChunks [] [] []
                       (@sub_nil _) (fun k => eq_refl)).
    cbv zeta in Hloop. apply Hloop; [|constructor].
    intros k. simpl. now rewrite firstn_nil.
Qed.

(** [limitSuperChunksPerTopic] leaves super chunks out and keeps the order
    of the others.  For a single topic and a limit that is not negative it
    keeps the first [maxPerTopic] super chunks.  Otherwise a super chunk is
    counted for the topic of its first section, and for every topic the
    first [maxPerTopic] super chunks counted for it are kept, whereas a super
    chunk without sections is dropped. *)
Theorem limitSuperChunksPerTopic_keeps (allSuperChunks : list (SuperChunk num))
    (numTopics : nat) (maxPerTopic : Z) :
  let kept := limitSuperChunksPerTopic allSuperChunks numTopics maxPerTopic in
  subsequence kept allSuperChunks
  /\ (if numTopics =? 1
      then (0 <= maxPerTopic)%Z -> kept = firstn (Z.to_nat maxPerTopic) allSuperChunks
      else (forall k, countedFor k kept
                      = firstn (Z.to_nat maxPerTopic) (countedFor k allSuperChunks))
           /\ Forall (fun sc => topics sc <> []) kept).
Proof. apply limitSuperChunksPerTopic_spec. Qed.

Context {F : Num.Format num}.

Lemma createSuperChunksWithTopics_packed (topicResults : list (TopicResult num))
    (maxCharsPerSuperChunk : Z) (allTopics : list string) :
  flat_map chunksOf
    (createSuperChunksWithTopics topicResults maxCharsPerSuperChunk allTopics)
  = flat_map (fun topicResult => sortChunksChronologically (tr_chunks topicResult))
             topicResults.
Proof.
  unfold createSuperChunksWithTopics.
  set (headerChars := strlen (formatChatPackageHeader allTopics)).
  assert (H : forall its p,
            packed (fold_left (packTopic maxCharsPerSuperChunk headerChars) its p) noSection
            = packed p noSection
              ++ flat_map (fun topicResult =>
                             sortChunksChronologically (tr_chunks topicResult))
                          (map snd its)).
  { induction its as [|it its IH]; intros p; simpl; [now rewrite app_nil_r|].
    now rewrite IH, packTopic_packed, <- app_assoc. }
  specialize (H (indexed topicResults)
                {| superChunks := []; currentChars := 0; currentTopics := [];
                   isFirstSuperChunk := true |}).
  change (map snd (indexed topicResults)) with (map snd (entries topicResults)) in H.
  rewrite entries_terms in H.
  set (P := fold_left _ _ _) in *.
  unfold packed in H. cbn [superChunks currentTopics noSection chunks flat_map app] in H.
  rewrite app_nil_r in H. rewrite <- H.
  destruct (0 <? List.length (currentTopics P)) eqn:L.
  - rewrite chunksOf_app. cbn [flat_map]. unfold chunksOf at 2. cbn [topics].
    now rewrite app_nil_r.
  - destruct (currentTopics P); [|discriminate]. simpl. now rewrite app_nil_r.
Qed.

(** The packer keeps every chunk and adds none: the chunks of the super
    chunks, read section after section, are the chunks of the topic results,
    topic after topic, each topic in chronological order. *)
Theorem packer_keeps_every_chunk (topicResults : list (TopicResult num))
    (maxCharsPerSuperChunk : Z) (allTopics : list string) :
  flat_map chunksOf
    (createSuperChunksWithTopics topicResults maxCharsPerSuperChunk allTopics)
  = flat_map (fun topicResult => sortChunksChronologically (tr_chunks topicResult))
             topicResults.
Proof. apply createSuperChunksWithTopics_packed. Qed.

(** The marks of the super chunks: the first super chunk, and only it, is
    flagged [isFirst]; the first section of every other super chunk is
    marked as the continuation of a topic, and no other section is. *)
Theorem superChunk_marks (topicResults : list (TopicResult num))
    (maxCharsPerSuperChunk : Z) (allTopics : list string) :
  let result :=
    createSuperChunksWithTopics topicResults maxCharsPerSuperChunk allTopics in
  map (fun sc => isFirst sc) result = firstFlags (List.length result)
  /\ Forall (fun sc => marked (isFirst sc) (topics sc)) result.
Proof.
  intros result. subst result. unfold createSuperChunksWithTopics.
  set (headerChars := strlen (formatChatPackageHeader allTopics)).
  assert (H : forall its p,
            marksBetween p ->
            marksBetween (fold_left (packTopic maxCharsPerSuperChunk headerChars) its p)).
  { induction its as [|it its IH]; intros p Hp; simpl; [exact Hp|].
    apply IH. now apply packTopic_marks. }
  match goal with
  | |- context [fold_left _ _ ?p0] =>
      assert (H0 : marksBetween p0)
  end.
  { unfold marksBetween. simpl. repeat split; try constructor. discriminate. }
  specialize (H (indexed topicResults) _ H0).
  destruct H as (Hflags & Hfirst & Hclosed & Hcur & _).
  match goal with
  | |- context [if ?b then _ else _] => destruct b
  end; [|split; assumption].
  rewrite map_app, length_app, Hflags, firstFlags_snoc. cbn [map isFirst List.length].
  split; [now rewrite Hfirst|].
  apply Forall_app. split; [exact Hclosed|]. constructor; [|constructor].
  exact Hcur.
Qed.

(** [formatSuperChunks] throws exactly when some section of some super
    chunk has no chunk or the document of its first chunk is not stored.
    Otherwise it returns one text for each super chunk, numbered from 0, with
    the number of chunks of the super chunk and the length of the text. *)
Theorem formatSuperChunks_result (getDocument : Z -> option Document)
    (superChunks : list (SuperChunk num)) (allTopics : list string) :
  match formatSuperChunks getDocument superChunks allTopics with
  | None =>
      exists sc t, In sc superChunks /\ In t (topics sc) /\ defective getDocument t
  | Some formatted =>
      (forall sc t, In sc superChunks -> In t (topics sc) -> ~ defective getDocument t)
      /\ map (fun f => index f) formatted = seq 0 (List.length superChunks)
      /\ map (fun f => chunkCount f) formatted
         = map (fun sc => chunksIn (topics sc)) superChunks
      /\ Forall (fun f => charCount f = strlen (formattedContent f)) formatted
  end.
Proof. apply formatFrom_result. Qed.

End Engine.

End EngineTheorems.


(* ===================================================================== *)
(** * From the question to the package                                    *)
(* ===================================================================== *)

Module QueryFacts.
Import Js Order PackSpec TokenSpec ExpansionSpec PackingSpec QuerySpec JsFacts.
Import Vectorizer Search QueryBuilder.
Import TokenFacts ExpansionFacts MergeFacts ExpansionTheorems.
Import ScoreFacts RankFacts EngineFacts EngineTheorems.

(** ** When the scoring does not end *)

Section Scoring.
Context {num : Type} {N : Num.Number num}.
Variable cfg : ScoringConfig num.

Lemma scoreTerm_matches (C : string) (concept : Concept num) (ts : list string)
    (a : Acc num) :
  acc_matched (fold_left (scoreTerm cfg (toLowerCase C) concept) ts a)
  = acc_matched a ++ filter (ScoreSpec.matches C) ts.
Proof.
  revert a. induction ts as [|T ts IH]; intros a; simpl; [now rewrite app_nil_r|].
  rewrite IH. unfold scoreTerm. fold (ScoreSpec.matches C T).
  destruct (ScoreSpec.matches C T); [|reflexivity].
  destruct (isOriginal _ || _); [simpl; now rewrite <- app_assoc|].
  destruct (Num.leb _ _); simpl; now rewrite <- app_assoc.
Qed.

Lemma pushOccurrences_none (c : string) (ts : list string) :
  fold_left (pushOccurrences c) ts None = None.
Proof. induction ts as [|T ts IH]; simpl; auto. Qed.

Lemma pushOccurrences_hangs (c : string) (ts : list string) (o : option (list nat)) :
  In EmptyString ts -> fold_left (pushOccurrences c) ts o = None.
Proof.
  revert o. induction ts as [|T ts IH]; intros o Hin; [destruct Hin|].
  simpl. destruct Hin as [-> | Hin]; [|now apply IH].
  destruct o as [ps|]; simpl; [|apply pushOccurrences_none].
  rewrite occurrences_loop_empty_term. apply pushOccurrences_none.
Qed.

Lemma pushOccurrences_ends (c : string) (ts : list string) (ps : list nat) :
  ~ In EmptyString ts -> exists ps', fold_left (pushOccurrences c) ts (Some ps) = Some ps'.
Proof.
  revert ps. induction ts as [|T ts IH]; intros ps Hno; simpl; [eauto|].
  rewrite occurrences_loop_enough.
  - apply IH. intros H. apply Hno. now right.
  - apply toLowerCase_empty. intros ->. apply Hno. now left.
Qed.

Lemma calculateProximityScore_hangs (c : string) (ts : list string) :
  calculateProximityScore cfg c ts = None <-> In EmptyString ts.
Proof.
  unfold calculateProximityScore. split.
  - intros H. destruct (in_dec string_dec EmptyString ts) as [Hin | Hno]; [exact Hin|].
    destruct (pushOccurrences_ends c ts [] Hno) as (ps & E). rewrite E in H.
    destruct (List.length ps <? 2); [discriminate|].
    destruct (minDistanceLoop _ _); [|discriminate].
    destruct (Num.leb _ _); discriminate.
  - intros Hin. now rewrite pushOccurrences_hangs.
Qed.

Lemma empty_term_matches (C : string) : ScoreSpec.matches C EmptyString = true.
Proof. reflexivity. Qed.

Lemma scoreChunk_hangs (chunk : Chunk) (concept : Concept num) :
  scoreChunk cfg chunk concept = None
  <-> In EmptyString (terms concept)
      /\ 2 <= List.length (ScoreSpec.matched (content chunk) concept).
Proof.
  unfold scoreChunk. rewrite scoreTerm_matches. cbn [acc_matched app].
  fold (ScoreSpec.matched (content chunk) concept).
  set (ms := ScoreSpec.matched (content chunk) concept).
  assert (Hempty : In EmptyString ms <-> In EmptyString (terms concept)).
  { unfold ms, ScoreSpec.matched. rewrite filter_In. split; [tauto|].
    intros H. split; [exact H|apply empty_term_matches]. }
  destruct (2 <=? List.length ms) eqn:L.
  - apply Nat.leb_le in L.
    destruct (calculateProximityScore cfg (toLowerCase (content chunk)) ms) eqn:E.
    + split; [discriminate|]. intros [Hin _]. apply Hempty in Hin.
      apply calculateProximityScore_hangs
        with (c := toLowerCase (content chunk)) in Hin.
      congruence.
    + split; [intros _|reflexivity]. split; [|exact L].
      apply Hempty. now apply calculateProximityScore_hangs in E.
  - apply Nat.leb_gt in L. split; [discriminate|]. intros [_ H]. lia.
Qed.

End Scoring.

(** ** The concept of a topic *)

Section Concept.
Context {num : Type} {N : Num.Number num} {T : Num.Truth num}.

Lemma noteTerm_step (exp : Expansion num) (all : list string)
    (meta : JsMap (TermMeta num)) (idx : nat) (term : string) :
  noteTerm exp (all, meta) (idx, term)
  = (all ++ [term],
     if negb (map_has meta term)
     then map_set meta term
            {| similarity := Num.orDefault (nth_error (similarities exp) idx) Num.one;
               isOriginal := String.eqb (originalTerm exp) term |}
     else meta).
Proof. reflexivity. Qed.

Lemma noteTerms_loop (exp : Expansion num) (es : list (nat * string))
    (all : list string) (meta : JsMap (TermMeta num)) :
  exists meta',
    fold_left (noteTerm exp) es (all, meta) = (all ++ map snd es, meta')
    /\ (forall t, map_has meta' t = true <-> map_has meta t = true \/ In t (map snd es))
    /\ (forall t md, map_get meta' t = Some md ->
          map_get meta t = Some md
          \/ (isOriginal md = String.eqb (originalTerm exp) t)).
Proof.
  revert all meta. induction es as [|[idx term] es IH]; intros all meta.
  - exists meta. simpl. rewrite app_nil_r. split; [reflexivity|]. split; [tauto|auto].
  - cbn [fold_left]. rewrite noteTerm_step.
    destruct (map_has meta term) eqn:E; cbn [negb].
    + destruct (IH (all ++ [term]) meta) as (meta' & H1 & H2 & H3).
      exists meta'. split; [rewrite H1; simpl; now rewrite <- app_assoc|].
      split; [|exact H3].
      intros t. rewrite H2. simpl. split; [tauto|].
      intros [H | [<- | H]]; auto.
    + match goal with
      | |- context [map_set meta term ?md0] =>
          destruct (IH (all ++ [term]) (map_set meta term md0)) as (meta' & H1 & H2 & H3);
          set (fresh := md0) in *
      end.
      exists meta'. split; [rewrite H1; simpl; now rewrite <- app_assoc|]. split.
      * intros t. rewrite H2. simpl.
        destruct (string_dec term t) as [<- | Hne].
        -- rewrite map_has_set_same. tauto.
        -- rewrite map_has_set_other by assumption. split; [tauto|].
           intros [H | [H | H]]; [auto|contradiction|auto].
      * intros t md Hget. apply H3 in Hget as [Hget | Hget]; [|now right].
        destruct (string_dec term t) as [<- | Hne].
        -- rewrite map_get_set_same in Hget. injection Hget as <-. now right.
        -- rewrite map_get_set_other in Hget by assumption. now left.
Qed.

Lemma noteExpansions_loop (expansions : list (Expansion num))
    (all : list string) (meta : JsMap (TermMeta num)) :
  exists meta',
    fold_left (fun state exp =>
                 fold_left (noteTerm exp) (entries (expandedTerms exp)) state)
              expansions (all, meta)
    = (all ++ flat_map (fun exp => expandedTerms exp) expansions, meta')
    /\ (forall t, map_has meta' t = true
                  <-> map_has meta t = true
                      \/ In t (flat_map (fun exp => expandedTerms exp) expansions))
    /\ (forall t md, map_get meta' t = Some md ->
          map_get meta t = Some md
          \/ (isOriginal md = true -> In t (map (fun exp => originalTerm exp) expansions))).
Proof.
  revert all meta. induction expansions as [|exp exps IH]; intros all meta.
  - exists meta. simpl. rewrite app_nil_r. split; [reflexivity|]. split; [tauto|auto].
  - cbn [fold_left flat_map map].
    destruct (noteTerms_loop exp (entries (expandedTerms exp)) all meta)
      as (meta1 & H1 & H2 & H3).
    rewrite H1, entries_terms. rewrite entries_terms in H2.
    destruct (IH (all ++ expandedTerms exp) meta1) as (meta' & K1 & K2 & K3).
    exists meta'. split; [rewrite K1; now rewrite <- app_assoc|]. split.
    + intros t. rewrite K2, H2, in_app_iff. tauto.
    + intros t md Hget. apply K3 in Hget as [Hget | Hget].
      * apply H3 in Hget as [Hget | Hget]; [now left|right].
        intros Ho. left. rewrite Ho in Hget. symmetry in Hget.
        now apply String.eqb_eq in Hget.
      * right. intros Ho. right. now apply Hget.
Qed.

Lemma singleConcept_spec (expansions : list (Expansion num)) :
  let concept := singleConcept expansions in
  NoDup (terms concept)
  /\ (forall t, In t (terms concept)
                <-> exists e, In e expansions /\ In t (expandedTerms e))
  /\ originalTerms concept = map (fun e => originalTerm e) expansions
  /\ (forall t, map_has (termMetadata concept) t = true <-> In t (terms concept))
  /\ (forall t, ScoreSpec.original concept t = true <-> In t (originalTerms concept)).
Proof.
  intros concept. subst concept. unfold singleConcept.
  destruct (noteExpansions_loop expansions [] []) as (meta & E & H2 & H3).
  cbv zeta.
  match goal with
  | |- context [fold_left ?f expansions ?i] =>
      destruct (fold_left f expansions i) as [all meta'] eqn:E'
  end.
  assert (E2 : (all, meta')
               = ([] ++ flat_map (fun exp => expandedTerms exp) expansions, meta))
    by (rewrite <- E'; exact E).
  injection E2 as -> ->. clear E E'.
  cbn [terms originalTerms termMetadata app].
  split; [apply uniq_NoDup|].
  split; [intros t; rewrite uniq_in, in_flat_map; reflexivity|].
  split; [reflexivity|].
  split.
  - intros t. rewrite H2, uniq_in. split; [intros [H | H]; [discriminate|exact H]|auto].
  - intros t. unfold ScoreSpec.original. cbn [termMetadata originalTerms].
    rewrite orb_true_iff, array_includes_in. split; [|auto].
    intros [H | H]; [|exact H].
    destruct (map_get meta t) as [md|] eqn:G; [|discriminate].
    apply H3 in G as [G | G]; [discriminate|auto].
Qed.

(** The terms of a concept of a document: the original term, or a key of
    the matrix of the index. *)
Lemma expandQuery_terms (cfg : Config num) (queryText : string)
    (vectors : option CoOccurrenceIndex) (c : Expansion num) (U : string) :
  In c (expandQuery cfg queryText vectors) -> In U (expandedTerms c) ->
  U = originalTerm c
  \/ exists index, vectors = Some index /\ In U (map_keys (matrix index)).
Proof.
  unfold expandQuery. destruct vectors as [index|]; intros Hc HU.
  - apply in_map_iff in Hc as (t & <- & _). cbn [expandedTerms originalTerm] in *.
    destruct HU as [<- | HU]; [now left|right].
    exists index. split; [reflexivity|].
    apply in_map_iff in HU as (u & <- & Hu).
    apply findSimilarTerms_found in Hu as (qv & tv & _ & Hin & _).
    apply in_map_iff. now exists (sim_term u, tv).
  - apply in_map_iff in Hc as (t & <- & _). cbn [expandedTerms originalTerm] in *.
    destruct HU as [<- | []]. now left.
Qed.

Section Stored.
Variable cfg : Config num.
Variable getVectors : Z -> option CoOccurrenceIndex.

Hypothesis keys_not_empty :
  forall d index, getVectors d = Some index ->
    Forall (fun k => k <> EmptyString) (map_keys (matrix index)).

Lemma expandQueryMultiDoc_terms (queryText : string) (documentIds : list Z) :
  Forall (fun e => Forall (fun U => U <> EmptyString) (expandedTerms e))
         (expandQueryMultiDoc cfg getVectors queryText documentIds).
Proof.
  destruct (expandQueryMultiDoc_spec cfg getVectors queryText documentIds)
    as (_ & _ & Hall).
  eapply Forall_impl; [|exact Hall]. cbv beta.
  intros e (_ & _ & _ & _ & Hterms). apply Forall_forall. intros U HU.
  apply Hterms in HU as (c & Hc & Ht & HU).
  pose proof (contributions_shaped cfg getVectors queryText documentIds) as Hshape.
  rewrite Forall_forall in Hshape. destruct (Hshape c Hc) as (_ & _ & _ & _ & [Hne _]).
  unfold contributions in Hc. apply in_flat_map in Hc as (d & _ & Hc).
  destruct (expandQuery_terms cfg queryText (getVectors d) c U Hc HU)
    as [-> | (index & Hget & Hkey)]; [exact Hne|].
  pose proof (keys_not_empty Hget) as Hk. rewrite Forall_forall in Hk. auto.
Qed.

Lemma singleConcept_scorable (queryText : string) (documentIds : list Z) :
  let concept :=
    singleConcept (expandQueryMultiDoc cfg getVectors queryText documentIds) in
  Forall (fun t => t <> EmptyString) (terms concept)
  /\ ScoreSpec.expansionsHaveMetadata concept (terms concept).
Proof.
  intros concept.
  destruct (singleConcept_spec (expandQueryMultiDoc cfg getVectors queryText documentIds))
    as (_ & Hterms & _ & Hmeta & _).
  fold concept in Hterms, Hmeta. split.
  - apply Forall_forall. intros t Ht. apply Hterms in Ht as (e & He & Ht).
    pose proof (expandQueryMultiDoc_terms queryText documentIds) as H.
    rewrite Forall_forall in H. specialize (H e He). rewrite Forall_forall in H. auto.
  - intros t Ht _. now apply Hmeta.
Qed.

End Stored.

End Concept.

(** ** The words of a question that is not expanded *)

Lemma all_chars_append (p : ascii -> bool) (a b : string) :
  all_chars p (a ++ b) = all_chars p a && all_chars p b.
Proof. induction a as [|c a IH]; simpl; [reflexivity|]. now rewrite IH, andb_assoc. Qed.

Lemma lower_char_not_upper (c : ascii) : is_upper (lower_char c) = false.
Proof. destruct c as [[] [] [] [] [] [] [] []]; vm_compute; reflexivity. Qed.

Lemma toLowerCase_not_upper (s : string) :
  all_chars (fun c => negb (is_upper c)) (toLowerCase s) = true.
Proof.
  induction s as [|c s IH]; simpl; [reflexivity|].
  now rewrite lower_char_not_upper, IH.
Qed.

Lemma remove_chars_spec (p q : ascii -> bool) (s : string) :
  all_chars q s = true ->
  all_chars (fun c => negb (p c) && q c) (remove_chars p s) = true.
Proof.
  induction s as [|c s IH]; simpl; [reflexivity|]. intros H.
  apply andb_true_iff in H as [Hc Hs]. destruct (p c) eqn:E; [auto|].
  simpl. now rewrite E, Hc, IH.
Qed.

Lemma split_loop_spec (q : ascii -> bool) (s piece : string) (in_space : bool) :
  all_chars q s = true ->
  all_chars (fun c => negb (is_space c) && q c) piece = true ->
  Forall (fun w => all_chars (fun c => negb (is_space c) && q c) w = true)
         (split_loop s piece in_space).
Proof.
  revert piece in_space. induction s as [|c s IH]; intros piece in_space Hs Hp; simpl.
  - now constructor.
  - simpl in Hs. apply andb_true_iff in Hs as [Hc Hs].
    destruct (is_space c) eqn:E.
    + destruct in_space; [now apply IH|]. constructor; [exact Hp|now apply IH].
    + apply IH; [exact Hs|]. rewrite all_chars_append, Hp. simpl. now rewrite E, Hc.
Qed.

Lemma wordsOf_spec (question : string) :
  Forall (fun w => 3 <= String.length w /\ all_chars wordChar w = true)
         (wordsOf question).
Proof.
  unfold wordsOf. apply Forall_forall. intros w Hw.
  apply filter_In in Hw as [Hw Hlen]. apply Nat.ltb_lt in Hlen. split; [lia|].
  pose proof (toLowerCase_not_upper question) as H1.
  apply (remove_chars_spec is_punctuation) in H1.
  apply split_loop_spec with (piece := EmptyString) (in_space := false) in H1;
    [|reflexivity].
  rewrite Forall_forall in H1. specialize (H1 w Hw).
  erewrite <- H1. clear. induction w as [|c w IH]; simpl; [reflexivity|].
  rewrite IH. unfold wordChar. now rewrite andb_assoc.
Qed.

(** ** The run of the engine *)

Section Run.
Context {num : Type} {N : Num.Number num} {F : Num.Format num}.
Variable cfg : ScoringConfig num.

Lemma scoreAll_none (concept : Concept num) (chunks : list Chunk) :
  scoreAll cfg concept chunks = None
  <-> exists chunk, In chunk chunks /\ scoreChunk cfg chunk concept = None.
Proof.
  induction chunks as [|ch chunks IH]; simpl.
  - split; [discriminate|]. intros (c & [] & _).
  - destruct (scoreChunk cfg ch concept) eqn:E1.
    + destruct (scoreAll cfg concept chunks) eqn:E2.
      * split; [discriminate|]. intros (c & [<- | Hc] & H); [congruence|].
        assert (H' : exists chunk, In chunk chunks /\ scoreChunk cfg chunk concept = None)
          by eauto.
        apply IH in H'. discriminate.
      * split; [intros _|reflexivity].
        destruct (proj1 IH eq_refl) as (c & Hc & H). eauto.
    + split; [intros _|reflexivity]. eauto.
Qed.

Lemma scoreAll_chunks (concept : Concept num) (chunks : list Chunk)
    (scored : list (ScoredChunk num)) :
  scoreAll cfg concept chunks = Some scored -> map (fun c => chunk c) scored = chunks.
Proof.
  revert scored. induction chunks as [|ch chunks IH]; intros scored; simpl.
  - now intros [= <-].
  - destruct (scoreChunk cfg ch concept); [|discriminate].
    destruct (scoreAll cfg concept chunks) as [rest|]; [|discriminate].
    intros [= <-]. simpl. now rewrite IH.
Qed.

Lemma executeBlock_none (block : Block num) (chunks : list Chunk) :
  executeBlockWithScoring cfg block chunks = None
  <-> exists chunk, In chunk chunks /\ hangs cfg block chunk.
Proof.
  unfold executeBlockWithScoring, hangs.
  destruct (inclusionConcepts block) as [|concept rest].
  - split; [discriminate|]. intros (c & _ & concept & rest & H & _). discriminate.
  - destruct (scoreAll cfg concept chunks) as [scored|] eqn:E.
    + split.
      * destruct (negb _); discriminate.
      * intros (c & Hc & concept' & rest' & [= <- <-] & H).
        assert (H' : exists chunk, In chunk chunks /\ scoreChunk cfg chunk concept = None)
          by eauto.
        apply scoreAll_none in H'. congruence.
    + split; [intros _|reflexivity].
      apply scoreAll_none in E as (c & Hc & H). exists c. split; [exact Hc|].
      exists concept, rest. auto.
Qed.

Lemma executeBlock_chunks (block : Block num) (chunks : list Chunk)
    (ranked : list (ScoredChunk num)) :
  executeBlockWithScoring cfg block chunks = Some ranked ->
  Forall (fun c => In (chunk c) chunks) ranked.
Proof.
  unfold executeBlockWithScoring.
  destruct (inclusionConcepts block) as [|concept rest]; [intros [= <-]; constructor|].
  destruct (scoreAll cfg concept chunks) as [scored|] eqn:E; [|discriminate].
  apply scoreAll_chunks in E.
  assert (Hq : Forall (fun c => In (chunk c) chunks)
                      (sort (byScoreDesc (num:=num)) (filter (qualifies cfg) scored))).
  { apply Forall_forall. intros c Hc. apply sort_in, filter_In in Hc as [Hc _].
    rewrite <- E. apply in_map_iff. now exists c. }
  destruct (negb _); intros [= <-]; [|exact Hq].
  destruct (filterBySpatialCategory_cases
              (sort (byScoreDesc (num:=num)) (filter (qualifies cfg) scored))
              (spatialCategory block)) as ([-> | ->] & _); [exact Hq|constructor].
Qed.

Lemma executeBlocks_none (blocks : list (Block num)) (chunks : list Chunk) :
  executeBlocks cfg blocks chunks = None
  <-> exists block chunk, In block blocks /\ In chunk chunks /\ hangs cfg block chunk.
Proof.
  induction blocks as [|block blocks IH]; simpl.
  - split; [discriminate|]. intros (b & c & [] & _).
  - destruct (executeBlockWithScoring cfg block chunks) eqn:E1.
    + destruct (executeBlocks cfg blocks chunks) eqn:E2.
      * split; [discriminate|]. intros (b & c & [<- | Hb] & Hc & H).
        -- assert (H' : exists chunk, In chunk chunks /\ hangs cfg block chunk) by eauto.
           apply executeBlock_none in H'. congruence.
        -- assert (H' : exists block chunk,
                     In block blocks /\ In chunk chunks /\ hangs cfg block chunk)
             by eauto.
           apply IH in H'. discriminate.
      * split; [intros _|reflexivity].
        destruct (proj1 IH eq_refl) as (b & c & Hb & Hc & H). exists b, c. auto.
    + split; [intros _|reflexivity].
      apply executeBlock_none in E1 as (c & Hc & H). exists block, c. auto.
Qed.

Lemma executeBlocks_some (blocks : list (Block num)) (chunks : list Chunk)
    (results : list (TopicResult num)) :
  executeBlocks cfg blocks chunks = Some results ->
  map (fun tr => tr_topicId tr) results = map (fun b => topicId b) blocks
  /\ map (fun tr => tr_topicQuestion tr) results = map (fun b => topicQuestion b) blocks
  /\ Forall (fun tr => Forall (fun c => In (chunk c) chunks) (tr_chunks tr)) results.
Proof.
  revert results. induction blocks as [|block blocks IH]; intros results; simpl.
  - intros [= <-]. repeat split; constructor.
  - destruct (executeBlockWithScoring cfg block chunks) as [ranked|] eqn:E1; [|discriminate].
    destruct (executeBlocks cfg blocks chunks) as [rest|]; [|discriminate].
    intros [= <-]. destruct (IH rest eq_refl) as (H1 & H2 & H3). simpl.
    rewrite H1, H2. repeat split. constructor; [|exact H3].
    cbn [tr_chunks]. now apply executeBlock_chunks with block.
Qed.

Lemma hangs_scorable (block : Block num) (chunk : Chunk) :
  scorable block -> ~ hangs cfg block chunk.
Proof.
  unfold scorable, hangs. intros Hs (concept & rest & E & H). rewrite E in Hs.
  destruct (scoreChunk_total cfg chunk concept Hs) as (score & Es). congruence.
Qed.

(** No section of a super chunk is empty. *)
Lemma packChunk_nonempty maxChars headerChars topicResult topicHeaderChars
    (p p' : Packer num) (s s' : TopicSection num) (c : ScoredChunk num) :
  packChunk maxChars headerChars topicResult topicHeaderChars (p, s) c = (p', s') ->
  Forall (fun sc => Forall nonempty (topics sc)) (superChunks p)
  /\ Forall nonempty (currentTopics p) ->
  Forall (fun sc => Forall nonempty (topics sc)) (superChunks p')
  /\ Forall nonempty (currentTopics p').
Proof.
  intros E [H1 H2]. unfold packChunk in E.
  destruct ((maxChars <? _)%Z && _); injection E as <- <-; [|now split].
  cbn [superChunks currentTopics]. split; [|constructor].
  apply Forall_app. split; [exact H1|]. constructor; [|constructor].
  cbn [topics]. destruct (0 <? List.length (chunks s)) eqn:L; [|exact H2].
  apply Forall_app. split; [exact H2|]. constructor; [|constructor].
  unfold nonempty. destruct (chunks s); [discriminate|congruence].
Qed.

Lemma packChunks_nonempty maxChars headerChars topicResult topicHeaderChars
    (cs : list (ScoredChunk num)) (p p' : Packer num) (s s' : TopicSection num) :
  fold_left (packChunk maxChars headerChars topicResult topicHeaderChars) cs (p, s)
    = (p', s') ->
  Forall (fun sc => Forall nonempty (topics sc)) (superChunks p)
  /\ Forall nonempty (currentTopics p) ->
  Forall (fun sc => Forall nonempty (topics sc)) (superChunks p')
  /\ Forall nonempty (currentTopics p').
Proof.
  revert p s. induction cs as [|c cs IH]; intros p s E H; cbn [fold_left] in E.
  - now injection E as <- <-.
  - destruct (packChunk maxChars headerChars topicResult topicHeaderChars (p, s) c)
      as [p1 s1] eqn:E1.
    apply (IH p1 s1 E). eapply packChunk_nonempty; eassumption.
Qed.

Lemma createSuperChunksWithTopics_nonempty (topicResults : list (TopicResult num))
    (maxChars : Z) (allTopics : list string) :
  Forall (fun sc => Forall nonempty (topics sc))
         (createSuperChunksWithTopics topicResults maxChars allTopics).
Proof.
  unfold createSuperChunksWithTopics.
  set (headerChars := strlen (formatChatPackageHeader allTopics)).
  assert (H : forall its p,
            Forall (fun sc => Forall nonempty (topics sc)) (superChunks p)
            /\ Forall nonempty (currentTopics p) ->
            Forall (fun sc => Forall nonempty (topics sc))
                   (superChunks (fold_left (packTopic maxChars headerChars) its p))
            /\ Forall nonempty
                      (currentTopics (fold_left (packTopic maxChars headerChars) its p))).
  { induction its as [|[i tr] its IH]; intros p Hp; simpl; [exact Hp|].
    apply IH. unfold packTopic.
    destruct (List.length (tr_chunks tr) =? 0); [exact Hp|].
    match goal with
    | |- context [fold_left ?f ?l (p, ?s)] =>
        destruct (fold_left f l (p, s)) as [p' s'] eqn:E;
        apply packChunks_nonempty in E; [|exact Hp]
    end.
    destruct E as [E1 E2].
    destruct (0 <? List.length (chunks s')) eqn:L; [|now split].
    cbn [superChunks currentTopics]. split; [exact E1|].
    apply Forall_app. split; [exact E2|]. constructor; [|constructor].
    unfold nonempty. destruct (chunks s'); [discriminate|congruence]. }
  match goal with
  | |- context [fold_left _ _ ?p0] =>
      destruct (H (indexed topicResults) p0) as [H1 H2]; [split; constructor|]
  end.
  match goal with
  | |- context [if ?b then _ else _] => destruct b
  end; [|exact H1].
  apply Forall_app. split; [exact H1|]. constructor; [exact H2|constructor].
Qed.

Lemma chunksIn_chunksOf (sc : SuperChunk num) :
  chunksIn (topics sc) = List.length (chunksOf sc).
Proof.
  unfold chunksIn, chunksOf. induction (topics sc) as [|t ts IH]; simpl; [reflexivity|].
  now rewrite length_app, IH.
Qed.

Lemma chunkCounts_sum (l : list (SuperChunk num)) :
  list_sum (map (fun sc => chunksIn (topics sc)) l) = List.length (flat_map chunksOf l).
Proof.
  induction l as [|sc l IH]; simpl; [reflexivity|].
  now rewrite length_app, IH, chunksIn_chunksOf.
Qed.

Lemma subsequence_flat_length {A B} (f : A -> list B) (l1 l2 : list A) :
  subsequence l1 l2 -> List.length (flat_map f l1) <= List.length (flat_map f l2).
Proof. induction 1; simpl; rewrite ?length_app; lia. Qed.

Lemma sorted_chunks_length (results : list (TopicResult num)) :
  List.length (flat_map (fun tr => sortChunksChronologically (tr_chunks tr)) results)
  = list_sum (map (fun tr => List.length (tr_chunks tr)) results).
Proof.
  induction results as [|tr trs IH]; simpl; [reflexivity|].
  rewrite length_app, IH. unfold sortChunksChronologically. now rewrite sort_length.
Qed.

End Run.

(** ** How a query ends *)

Section Outcome.
Context {num : Type} {N : Num.Number num} {F : Num.Format num}.
Variable cfg : ScoringConfig num.
Variable store : Store.

Lemma section_chunks_fetched (q : SearchQuery num) (results : list (TopicResult num))
    (kept : list (SuperChunk num)) :
  Forall (fun tr => Forall (fun c => In (chunk c) (fetchChunksForQuery store q))
                           (tr_chunks tr)) results ->
  subsequence kept
    (createSuperChunksWithTopics results (maxCharsPerSuperChunk q) (allTopics q)) ->
  forall sc t c, In sc kept -> In t (topics sc) -> In c (chunks t) ->
                 In (chunk c) (fetchChunksForQuery store q).
Proof.
  intros Hres Hsub sc t c Hsc Ht Hc.
  assert (Hin : In c (flat_map chunksOf
                        (createSuperChunksWithTopics results (maxCharsPerSuperChunk q)
                           (allTopics q)))).
  { apply in_flat_map. exists sc. split; [eapply subsequence_in; eauto|].
    unfold chunksOf. apply in_flat_map. eauto. }
  rewrite createSuperChunksWithTopics_packed in Hin.
  apply in_flat_map in Hin as (tr & Htr & Hin).
  unfold sortChunksChronologically in Hin. apply sort_in in Hin.
  rewrite Forall_forall in Hres. specialize (Hres tr Htr).
  rewrite Forall_forall in Hres. auto.
Qed.

Lemma combined_length (q : SearchQuery num) (results : list (TopicResult num)) :
  Forall (fun tr => Forall (fun c => In (chunk c) (fetchChunksForQuery store q))
                           (tr_chunks tr)) results ->
  List.length (combineTopicResults results)
  <= List.length (fetchChunksForQuery store q).
Proof.
  intros Hres.
  destruct (combineTopicResults_spec results) as (Hnd & Hfrom & _).
  rewrite <- (length_map (fun c => id (chunk c)) (combineTopicResults results)).
  rewrite <- (length_map (fun c => id c) (fetchChunksForQuery store q)).
  apply NoDup_incl_length; [exact Hnd|].
  intros i Hi. apply in_map_iff in Hi as (c & <- & Hc).
  destruct (Hfrom c Hc) as (tr & Htr & Hin).
  rewrite Forall_forall in Hres. specialize (Hres tr Htr).
  rewrite Forall_forall in Hres. apply in_map_iff. exists (chunk c). auto.
Qed.

Lemma executeQuery_outcome (q : SearchQuery num) :
  let fetched := fetchChunksForQuery store q in
  match executeQuery cfg store q with
  | NeverEnds =>
      exists block chunk, In block (blocks q) /\ In chunk fetched /\ hangs cfg block chunk
  | Throws =>
      exists chunk, In chunk fetched /\ getDocument store (documentId chunk) = None
  | Returns result =>
      map (fun tr => tr_topicId tr) (topicResults result)
        = map (fun b => topicId b) (blocks q)
      /\ Forall (fun tr => Forall (fun c => In (chunk c) fetched) (tr_chunks tr))
                (topicResults result)
      /\ totalChunks result <= List.length fetched
      /\ map (fun f => index f) (r_superChunks result)
         = seq 0 (List.length (r_superChunks result))
      /\ Forall (fun f => charCount f = strlen (formattedContent f))
                (r_superChunks result)
      /\ list_sum (map (fun f => chunkCount f) (r_superChunks result))
         <= list_sum (map (fun tr => List.length (tr_chunks tr)) (topicResults result))
      /\ (willLimit q = false ->
          list_sum (map (fun f => chunkCount f) (r_superChunks result))
          = list_sum (map (fun tr => List.length (tr_chunks tr)) (topicResults result)))
  end.
Proof.
  intros fetched. unfold executeQuery. cbv zeta. fold fetched.
  destruct (executeBlocks cfg (blocks q) fetched) as [results|] eqn:E.
  2: { now apply executeBlocks_none. }
  apply executeBlocks_some in E as (Hids & _ & Hres).
  set (all := createSuperChunksWithTopics results (maxCharsPerSuperChunk q) (allTopics q)).
  set (kept := if willLimit q
               then limitSuperChunksPerTopic all (List.length results)
                      (maxSuperChunksPerTopic q)
               else all).
  assert (Hsub : subsequence kept all).
  { unfold kept. destruct (willLimit q); [|apply subsequence_refl].
    apply limitSuperChunksPerTopic_spec. }
  pose proof (formatFrom_result (getDocument store) kept 0 (List.length kept)
                (allTopics q)) as Hf.
  unfold formatSuperChunks.
  destruct (formatFrom (getDocument store) 0 (List.length kept) (allTopics q) kept)
    as [formatted|].
  - destruct Hf as (_ & Hindex & Hcount & Hchars).
    cbn [topicResults totalChunks r_superChunks].
    assert (Hlen : List.length formatted = List.length kept)
      by (rewrite <- (length_map (fun f => index f)), Hindex; apply length_seq).
    split; [exact Hids|]. split; [exact Hres|].
    split; [now apply combined_length|].
    split; [now rewrite Hlen|]. split; [exact Hchars|].
    rewrite Hcount, chunkCounts_sum, <- sorted_chunks_length.
    rewrite <- (createSuperChunksWithTopics_packed results (maxCharsPerSuperChunk q)
                  (allTopics q)).
    fold all. split; [now apply subsequence_flat_length|].
    intros Hno. unfold kept. now rewrite Hno.
  - destruct Hf as (sc & t & Hsc & Ht & Hdef). unfold defective in Hdef.
    destruct (chunks t) as [|c cs] eqn:Ec.
    + pose proof (createSuperChunksWithTopics_nonempty results (maxCharsPerSuperChunk q)
                    (allTopics q)) as Hne.
      fold all in Hne. apply (subsequence_Forall Hsub) in Hne.
      rewrite Forall_forall in Hne. specialize (Hne sc Hsc).
      rewrite Forall_forall in Hne. now destruct (Hne t Ht).
    + exists (chunk c). split; [|exact Hdef].
      apply (@section_chunks_fetched q results kept Hres Hsub sc t c Hsc Ht).
      rewrite Ec. now left.
Qed.

End Outcome.

End QueryFacts.

Module QueryTheorems.
Import Js Order PackSpec TokenSpec ExpansionSpec PackingSpec QuerySpec JsFacts.
Import Vectorizer Search QueryBuilder Samples QuerySamples.
Import ExpansionFacts RankFacts EngineFacts QueryFacts.

Section Scoring.
Context {num : Type} {N : Num.Number num}.
Variable cfg : ScoringConfig num.

(** [scoreChunk] does not return a score exactly when the empty string is a
    term of the concept and at least two terms of the concept occur in the
    chunk: the position loop of [calculateProximityScore] then finds the
    empty term at every offset, stays at the end of the content and pushes
    positions without end.  In every other case a score is returned. *)
Theorem scoreChunk_never_ends_iff (chunk : Chunk) (concept : Concept num) :
  scoreChunk cfg chunk concept = None
  <-> In EmptyString (terms concept)
      /\ 2 <= List.length (ScoreSpec.matched (content chunk) concept).
Proof. apply scoreChunk_hangs. Qed.

End Scoring.

Section Builder.
Context {num : Type} {N : Num.Number num} {T : Num.Truth num}.

(** The concept [expandQueryTopics] builds from the expansions of a
    question: its terms are the expanded terms of the expansions, each
    once; its original terms are the original terms of the expansions, in
    their order; exactly its terms have a metadata entry; and the scoring
    takes a term for an original one exactly when it is among the original
    terms. *)
Theorem singleConcept_terms (expansions : list (Expansion num)) :
  let concept := singleConcept expansions in
  NoDup (terms concept)
  /\ (forall t, In t (terms concept)
                <-> exists e, In e expansions /\ In t (expandedTerms e))
  /\ originalTerms concept = map (fun e => originalTerm e) expansions
  /\ (forall t, map_has (termMetadata concept) t = true <-> In t (terms concept))
  /\ (forall t, ScoreSpec.original concept t = true <-> In t (originalTerms concept)).
Proof. apply singleConcept_spec. Qed.

End Builder.

(** The words [convertToSearchFormat] takes from a question that is not
    expanded have at least three characters, none of which is white space,
    one of [?.,!] or a capital letter. *)
Theorem wordsOf_words (question : string) :
  Forall (fun w => 3 <= String.length w /\ all_chars wordChar w = true)
         (wordsOf question).
Proof. apply wordsOf_spec. Qed.

Section Pipeline.
Context {num : Type} {N : Num.Number num} {T : Num.Truth num} {F : Num.Format num}.
Variable cfg : Config num.
Variable scoring : ScoringConfig num.
Variable getVectors : Z -> option CoOccurrenceIndex.
Variable store : Store.

Lemma blockOf_words (topic : Topic num) :
  expandedConcepts topic = None ->
  exists concept,
    inclusionConcepts (blockOf topic) = [concept]
    /\ Forall (fun t => t <> EmptyString) (terms concept)
    /\ ScoreSpec.expansionsHaveMetadata concept (terms concept).
Proof.
  intros E. unfold blockOf. rewrite E. cbn [inclusionConcepts].
  eexists. split; [reflexivity|]. cbn [terms]. split.
  - eapply Forall_impl; [|apply wordsOf_spec]. cbv beta.
    intros w [Hlen _] ->. simpl in Hlen. lia.
  - intros t Ht Ho. unfold ScoreSpec.original in Ho. cbn [originalTerms] in Ho.
    apply orb_false_elim in Ho as [_ Ho].
    apply array_includes_in in Ht. congruence.
Qed.

Lemma blockOf_expanded (documentIds : list Z) (topic : Topic num) :
  (forall d index, getVectors d = Some index ->
     Forall (fun k => k <> EmptyString) (map_keys (matrix index))) ->
  exists concept,
    inclusionConcepts (blockOf (expandTopic cfg getVectors documentIds topic)) = [concept]
    /\ Forall (fun t => t <> EmptyString) (terms concept)
    /\ ScoreSpec.expansionsHaveMetadata concept (terms concept).
Proof.
  intros Hkeys. unfold blockOf, expandTopic.
  cbn [expandedConcepts inclusionConcepts]. eexists. split; [reflexivity|].
  apply (singleConcept_scorable cfg getVectors Hkeys).
Qed.

Lemma built_blocks (vectorizationEnabled : bool) (query : Query num) :
  (forall d index, getVectors d = Some index ->
     Forall (fun k => k <> EmptyString) (map_keys (matrix index))) ->
  Forall (fun topic => expandedConcepts topic = None) (q_topics query) ->
  let search :=
    convertToSearchFormat
      (expandQueryTopics cfg getVectors (getChunksByCollection store)
         vectorizationEnabled query) in
  map (fun b => topicId b) (blocks search) = map (fun t => t_topicId t) (q_topics query)
  /\ Forall (fun block =>
               exists concept,
                 inclusionConcepts block = [concept]
                 /\ Forall (fun t => t <> EmptyString) (terms concept)
                 /\ ScoreSpec.expansionsHaveMetadata concept (terms concept))
            (blocks search).
Proof.
  intros Hkeys Hplain search. subst search.
  assert (Hsame :
    map (fun b : Block num => topicId b)
        (blocks (convertToSearchFormat query))
    = map (fun t => t_topicId t) (q_topics query)
    /\ Forall (fun block : Block num =>
                 exists concept,
                   inclusionConcepts block = [concept]
                   /\ Forall (fun t => t <> EmptyString) (terms concept)
                   /\ ScoreSpec.expansionsHaveMetadata concept (terms concept))
              (blocks (convertToSearchFormat query))).
  { unfold convertToSearchFormat. cbn [blocks]. split.
    - rewrite map_map. reflexivity.
    - apply Forall_map. eapply Forall_impl; [|exact Hplain]. cbv beta.
      intros topic. apply blockOf_words. }
  unfold expandQueryTopics.
  destruct (negb vectorizationEnabled); [exact Hsame|].
  match goal with
  | |- context [List.length ?ids =? 0] => set (documentIds := ids)
  end.
  destruct (List.length documentIds =? 0); [exact Hsame|].
  unfold convertToSearchFormat. cbn [blocks q_topics]. split.
  - rewrite !map_map. reflexivity.
  - apply Forall_map, Forall_map, Forall_forall. intros topic _.
    now apply blockOf_expanded.
Qed.

(** A query whose topics are not expanded yet, as [generateQueryStructure]
    builds it, is expanded by [expandQueryTopics] and converted by
    [convertToSearchFormat] into blocks, one for each topic and with its
    [topicId], that the engine can score: every block has exactly one
    concept, no term of the concept is empty, every term that is not an
    original one has a metadata entry, and [executeQuery] does not run into
    a position loop without end.  This holds whether or not the vectorization is enabled, provided no
    stored index has the empty string among the keys of its matrix. *)
Theorem built_query_can_be_scored (vectorizationEnabled : bool) (query : Query num) :
  (forall d index, getVectors d = Some index ->
     Forall (fun k => k <> EmptyString) (map_keys (matrix index))) ->
  Forall (fun topic => expandedConcepts topic = None) (q_topics query) ->
  let search :=
    convertToSearchFormat
      (expandQueryTopics cfg getVectors (getChunksByCollection store)
         vectorizationEnabled query) in
  map (fun b => topicId b) (blocks search) = map (fun t => t_topicId t) (q_topics query)
  /\ Forall (fun block =>
               exists concept,
                 inclusionConcepts block = [concept]
                 /\ Forall (fun t => t <> EmptyString) (terms concept)
                 /\ ScoreSpec.expansionsHaveMetadata concept (terms concept))
            (blocks search)
  /\ executeQuery scoring store search <> NeverEnds.
Proof.
  intros Hkeys Hplain search.
  destruct (built_blocks vectorizationEnabled query Hkeys Hplain) as [Hids Hblocks].
  fold search in Hids, Hblocks. split; [exact Hids|]. split; [exact Hblocks|].
  intros Hn. pose proof (executeQuery_outcome scoring store search) as Ho.
  rewrite Hn in Ho. cbv zeta in Ho. destruct Ho as (block & chunk & Hb & _ & Hh).
  rewrite Forall_forall in Hblocks.
  destruct (Hblocks block Hb) as (concept & Ec & Hne & _).
  apply (hangs_scorable (cfg := scoring) (block := block) (chunk := chunk)); [|exact Hh].
  unfold scorable. now rewrite Ec.
Qed.

End Pipeline.

Lemma pump_vectors_keys (d : Z) (index : CoOccurrenceIndex) :
  pump_vectors d = Some index ->
  Forall (fun k => k <> EmptyString) (map_keys (matrix index)).
Proof.
  unfold pump_vectors. destruct (d =? 1)%Z; [|discriminate].
  intros [= <-]. vm_compute. repeat (constructor; [discriminate|]). constructor.
Qed.

Lemma built_query_can_be_scored_witness :
  map (fun b => topicId b) (blocks pump_search)
  = map (fun t => t_topicId t) (q_topics pump_query)
  /\ Forall (fun block =>
               exists concept,
                 inclusionConcepts block = [concept]
                 /\ Forall (fun t => t <> EmptyString) (terms concept)
                 /\ ScoreSpec.expansionsHaveMetadata concept (terms concept))
            (blocks pump_search)
  /\ executeQuery SCORING_CONFIG pump_store pump_search <> NeverEnds.
Proof.
  apply (@built_query_can_be_scored float _ _ _ CONFIG SCORING_CONFIG pump_vectors
           pump_store true pump_query pump_vectors_keys).
  repeat constructor.
Defined.

Section Engine.
Context {num : Type} {N : Num.Number num} {F : Num.Format num}.
Variable cfg : ScoringConfig num.
Variable store : Store.

(** [executeQuery] runs into the position loop that goes round without end,
    and so does not return, exactly when the first concept of some block has
    the empty string among its terms and at least two terms of that concept
    occur in some chunk the query fetches. *)
Theorem executeQuery_never_ends_iff (q : SearchQuery num) :
  executeQuery cfg store q = NeverEnds
  <-> exists block concept rest chunk,
        In block (blocks q)
        /\ inclusionConcepts block = concept :: rest
        /\ In chunk (fetchChunksForQuery store q)
        /\ In EmptyString (terms concept)
        /\ 2 <= List.length (ScoreSpec.matched (content chunk) concept).
Proof.
  split.
  - intros Hn. pose proof (executeQuery_outcome cfg store q) as Ho.
    rewrite Hn in Ho. cbv zeta in Ho.
    destruct Ho as (block & chunk & Hb & Hc & concept & rest & Ec & Hs).
    apply scoreChunk_hangs in Hs as [H1 H2]. exists block, concept, rest, chunk. auto.
  - intros (block & concept & rest & chunk & Hb & Ec & Hc & H1 & H2).
    assert (Hnone : executeBlocks cfg (blocks q) (fetchChunksForQuery store q) = None).
    { apply executeBlocks_none. exists block, chunk. split; [exact Hb|].
      split; [exact Hc|]. exists concept, rest. split; [exact Ec|].
      apply scoreChunk_hangs. auto. }
    unfold executeQuery. cbv zeta. now rewrite Hnone.
Qed.

(** [executeQuery] throws the error of the formatter only if the document
    of some chunk the query fetches is not stored. *)
Theorem executeQuery_throws_only_without_document (q : SearchQuery num) :
  executeQuery cfg store q = Throws ->
  exists chunk,
    In chunk (fetchChunksForQuery store q)
    /\ getDocument store (documentId chunk) = None.
Proof.
  intros Ht. pose proof (executeQuery_outcome cfg store q) as Ho.
  rewrite Ht in Ho. exact Ho.
Qed.

(** When no block has an empty term in its first concept and the document
    of every fetched chunk is stored, [executeQuery] returns a result: it
    has one topic result for each block, in the order of the blocks; every
    chunk of a topic result is a fetched chunk; [totalChunks] is at most the
    number of fetched chunks; the super chunks are numbered from 0, each
    with the length of its text; and their chunk counts add up to at most
    the number of chunks of the topic results, and to exactly that number
    when the super chunks are not limited. *)
Theorem executeQuery_returns (q : SearchQuery num) :
  Forall scorable (blocks q) ->
  (forall chunk, In chunk (fetchChunksForQuery store q) ->
                 getDocument store (documentId chunk) <> None) ->
  exists result,
    executeQuery cfg store q = Returns result
    /\ map (fun tr => tr_topicId tr) (topicResults result)
       = map (fun b => topicId b) (blocks q)
    /\ Forall (fun tr => Forall (fun c => In (chunk c) (fetchChunksForQuery store q))
                                (tr_chunks tr))
              (topicResults result)
    /\ totalChunks result <= List.length (fetchChunksForQuery store q)
    /\ map (fun f => index f) (r_superChunks result)
       = seq 0 (List.length (r_superChunks result))
    /\ Forall (fun f => charCount f = strlen (formattedContent f))
              (r_superChunks result)
    /\ list_sum (map (fun f => chunkCount f) (r_superChunks result))
       <= list_sum (map (fun tr => List.length (tr_chunks tr)) (topicResults result))
    /\ (willLimit q = false ->
        list_sum (map (fun f => chunkCount f) (r_superChunks result))
        = list_sum (map (fun tr => List.length (tr_chunks tr)) (topicResults result))).
Proof.
  intros Hscorable Hstored.
  pose proof (executeQuery_outcome cfg store q) as Ho. cbv zeta in Ho.
  destruct (executeQuery cfg store q) as [result| |].
  - exists result. split; [reflexivity|exact Ho].
  - destruct Ho as (block & chunk & Hb & _ & Hh). exfalso.
    rewrite Forall_forall in Hscorable.
    exact (hangs_scorable (cfg := cfg) (Hscorable block Hb) Hh).
  - destruct Ho as (chunk & Hc & Hnone). exfalso. exact (Hstored chunk Hc Hnone).
Qed.

End Engine.

Lemma pump_search_scorable : Forall scorable (blocks pump_search).
Proof.
  vm_compute. constructor; [|constructor].
  repeat (constructor; [discriminate|]). constructor.
Qed.

Lemma executeQuery_throws_only_without_document_witness :
  exists chunk,
    In chunk (fetchChunksForQuery bare_store pump_search)
    /\ getDocument bare_store (documentId chunk) = None.
Proof.
  apply (@executeQuery_throws_only_without_document float _ _ SCORING_CONFIG bare_store
           pump_search).
  vm_compute. reflexivity.
Defined.

Lemma executeQuery_returns_witness :
  exists result,
    executeQuery SCORING_CONFIG pump_store pump_search = Returns result
    /\ map (fun tr => tr_topicId tr) (topicResults result)
       = map (fun b => topicId b) (blocks pump_search)
    /\ Forall (fun tr => Forall (fun c => In (chunk c)
                                            (fetchChunksForQuery pump_store pump_search))
                                (tr_chunks tr))
              (topicResults result)
    /\ totalChunks result <= List.length (fetchChunksForQuery pump_store pump_search)
    /\ map (fun f => index f) (r_superChunks result)
       = seq 0 (List.length (r_superChunks result))
    /\ Forall (fun f => charCount f = strlen (formattedContent f))
              (r_superChunks result)
    /\ list_sum (map (fun f => chunkCount f) (r_superChunks result))
       <= list_sum (map (fun tr => List.length (tr_chunks tr)) (topicResults result))
    /\ (willLimit pump_search = false ->
        list_sum (map (fun f => chunkCount f) (r_superChunks result))
        = list_sum (map (fun tr => List.length (tr_chunks tr)) (topicResults result))).
Proof.
  apply (@executeQuery_returns float _ _ SCORING_CONFIG pump_store pump_search
           pump_search_scorable).
  intros chunk _. discriminate.
Defined.

End QueryTheorems.


(* ===================================================================== *)
(** * Storing an index and reading it back                                *)
(* ===================================================================== *)

Module StorageFacts.
Import Js TokenSpec PairSpec StorageSpec JsFacts Vectorizer InvantiaDB.
Import TokenFacts IndexFacts IndexTheorems.

Lemma map_pairs_id {A B} (l : list (A * B)) :
  map (fun kv => (fst kv, snd kv)) l = l.
Proof. induction l as [|[a b] l IH]; simpl; [reflexivity|now rewrite IH]. Qed.

Lemma map_set_new {V} (m : JsMap V) (k : string) (v : V) :
  ~ In k (map_keys m) -> map_set m k v = m ++ [(k, v)].
Proof.
  induction m as [|[k' v'] m IH]; simpl; [reflexivity|]. intros H.
  destruct (String.eqb k' k) eqn:E.
  - apply String.eqb_eq in E. tauto.
  - rewrite IH; [reflexivity|tauto].
Qed.

Lemma keys_app {V} (a b : JsMap V) : map_keys (a ++ b) = map_keys a ++ map_keys b.
Proof. apply map_app. Qed.

Lemma NoDup_keys_step {V} (acc l : JsMap V) (k : string) (v : V) :
  NoDup (map_keys (acc ++ (k, v) :: l)) ->
  ~ In k (map_keys acc) /\ NoDup (map_keys ((acc ++ [(k, v)]) ++ l)).
Proof.
  intros H. split.
  - rewrite keys_app in H. simpl in H. apply NoDup_remove_2 in H.
    intros Hin. apply H. apply in_or_app. now left.
  - now rewrite <- app_assoc.
Qed.

Lemma mapOf_loop {V} (l acc : JsMap V) :
  NoDup (map_keys (acc ++ l)) ->
  fold_left (fun m e => map_set m (fst e) (snd e)) l acc = acc ++ l.
Proof.
  revert acc. induction l as [|[k v] l IH]; intros acc H; simpl.
  - now rewrite app_nil_r.
  - apply NoDup_keys_step in H as [Hk H].
    rewrite map_set_new by exact Hk. rewrite IH by exact H. now rewrite <- app_assoc.
Qed.

Lemma mapOf_wf {V} (m : JsMap V) : map_wf m -> mapOf m = m.
Proof. intros H. unfold mapOf. now rewrite mapOf_loop. Qed.

Lemma define_property_new {V} (o : JsObject V) (k : string) (v : V) :
  ~ In k (map_keys o) -> array_index k = None ->
  define_property o k v = o ++ [(k, v)].
Proof.
  intros Hk Hi. unfold define_property. rewrite Hi.
  destruct (map_has o k) eqn:E; [|reflexivity].
  apply map_has_keys in E. tauto.
Qed.

Lemma fromEntries_loop {V} (l : list (string * V)) (acc : JsObject V) :
  NoDup (map_keys (acc ++ l)) ->
  Forall (fun k => array_index k = None) (map_keys l) ->
  fold_left (fun o e => define_property o (fst e) (snd e)) l acc = acc ++ l.
Proof.
  revert acc. induction l as [|[k v] l IH]; intros acc H Hi; simpl.
  - now rewrite app_nil_r.
  - apply NoDup_keys_step in H as [Hk H]. inversion Hi as [|? ? Hi1 Hi2]; subst.
    rewrite define_property_new by assumption.
    rewrite IH by assumption. now rewrite <- app_assoc.
Qed.

Lemma fromEntries_plain {V} (m : JsMap V) : plainKeys m -> fromEntries m = m.
Proof. intros [Hwf Hi]. unfold fromEntries. now rewrite fromEntries_loop. Qed.

Lemma stored_vectors (m : JsMap (JsMap nat)) :
  Forall (fun entry => plainKeys (snd entry)) m ->
  map (fun entry => (fst entry, fromEntries (snd entry))) m = m.
Proof.
  induction 1 as [|[k v] m Hv _ IH]; simpl; [reflexivity|].
  cbn [snd] in Hv. now rewrite (fromEntries_plain Hv), IH.
Qed.

Lemma read_vectors (m : JsMap (JsMap nat)) :
  Forall (fun entry => plainKeys (snd entry)) m ->
  map (fun entry => (fst entry,
                     mapOf (map (fun kv => (fst kv, snd kv)) (objectEntries (snd entry)))))
      m = m.
Proof.
  induction 1 as [|[k v] m Hv _ IH]; simpl; [reflexivity|].
  cbn [snd] in Hv. unfold objectEntries in *.
  now rewrite map_pairs_id, (mapOf_wf (proj1 Hv)), IH.
Qed.

Lemma round_trip (store : VectorStore) (documentId : Z)
    (vectorData : CoOccurrenceIndex) :
  storable vectorData ->
  getVectors (addVectors store documentId vectorData) documentId = Some vectorData.
Proof.
  intros (Hm & Hv & Hf). unfold getVectors, addVectors, put, storableData.
  cbn [sv_documentId]. rewrite Z.eqb_refl.
  cbn [sv_matrix sv_termFrequencies sv_totalTerms]. unfold objectEntries.
  pose proof (stored_vectors Hv) as E1. pose proof (fromEntries_plain Hm) as E2.
  pose proof (fromEntries_plain Hf) as E3. pose proof (read_vectors Hv) as E4.
  pose proof (mapOf_wf (proj1 Hm)) as E5. pose proof (mapOf_wf (proj1 Hf)) as E6.
  unfold objectEntries in E4. unfold JsObject, JsMap in *.
  rewrite E1, E2, E3, E4, map_pairs_id, E5, E6.
  now destruct vectorData.
Qed.

Lemma other_documents (store : VectorStore) (documentId other : Z)
    (vectorData : CoOccurrenceIndex) :
  other <> documentId ->
  getVectors (addVectors store documentId vectorData) other = getVectors store other.
Proof.
  intros Hne. unfold getVectors, addVectors, put. cbn [storableData sv_documentId].
  apply Z.eqb_neq in Hne. now rewrite Hne.
Qed.

(** ** The keys of an index that was built *)

Lemma is_lower_not_digit (c : ascii) : is_lower c = true -> is_digit c = false.
Proof.
  unfold is_lower, is_digit. cbv zeta.
  remember (nat_of_ascii c) as n eqn:En. clear En. intros H.
  apply andb_true_iff in H as [H1 H2]. apply Nat.leb_le in H1.
  apply andb_false_iff. right. apply Nat.leb_gt. lia.
Qed.

Lemma startsLower_no_index (s : string) : startsLower s -> array_index s = None.
Proof.
  intros (c & r & -> & Hc). unfold array_index.
  destruct (Ascii.eqb c "0" && negb (String.eqb r EmptyString)); [reflexivity|].
  cbn [digits_value]. now rewrite (is_lower_not_digit c Hc).
Qed.

Lemma startsLower_append (a b : string) : startsLower a -> startsLower (a ++ b).
Proof. intros (c & r & -> & Hc). exists c, (r ++ b)%string. auto. Qed.

Lemma terms_start_lower {num} (cfg : Config num) (text : string) (t : string) :
  In t (map term (allTermsOf cfg text)) -> startsLower t.
Proof.
  assert (Htok : forall x, In x (tokenize cfg text) -> startsLower (term x)).
  { destruct (tokens_wellformed cfg text) as [H _]. rewrite Forall_forall in H.
    intros x Hx. destruct (H x Hx) as (_ & _ & (c & r & E & Hc & _) & _).
    exists c, r. auto. }
  intros Ht. apply in_map_iff in Ht as (item & <- & Hitem).
  unfold allTermsOf in Hitem. apply in_app_or in Hitem as [Hitem | Hitem]; [auto|].
  apply extractPhrases_terms in Hitem as (a & b & Ha & _ & [-> | (c & _ & ->)]);
    apply startsLower_append; auto.
Qed.

Lemma built_index_storable {num} (cfg : Config num) (text : string) :
  storable (buildCoOccurrenceMatrix cfg text).
Proof.
  destruct (index_maps_in_order_aux cfg text) as ((Hwf & Hvec) & Hfreq & _).
  destruct (index_terms_all cfg startsLower text (terms_start_lower cfg text))
    as [Hf Hm].
  rewrite Forall_forall in Hvec, Hm.
  repeat split.
  - exact Hwf.
  - apply Forall_forall. intros k Hk. apply in_map_iff in Hk as (e & <- & He).
    apply startsLower_no_index. apply (Hm e He).
  - apply Forall_forall. intros e He. split; [apply (Hvec e He)|].
    eapply Forall_impl; [|apply (Hm e He)]. apply startsLower_no_index.
  - exact Hfreq.
  - eapply Forall_impl; [|exact Hf]. apply startsLower_no_index.
Qed.

End StorageFacts.

Module StorageTheorems.
Import Js StorageSpec Vectorizer InvantiaDB StorageFacts.

(** An index is read back as it was stored when no map of it has a key
    twice or an array index among its keys: [getVectors] after [addVectors]
    for the same document returns the matrix, the frequencies and the count
    of terms, the maps with their entries in the same order.  The vectors of
    the other documents stay as they were. *)
Theorem stored_vectors_round_trip (store : VectorStore) (documentId : Z)
    (vectorData : CoOccurrenceIndex) :
  storable vectorData ->
  getVectors (addVectors store documentId vectorData) documentId = Some vectorData
  /\ forall other, other <> documentId ->
       getVectors (addVectors store documentId vectorData) other
       = getVectors store other.
Proof.
  intros H. split; [now apply round_trip|].
  intros other. apply other_documents.
Qed.

(** An index built by [buildCoOccurrenceMatrix] is read back unchanged,
    whatever the text: its terms start with a small letter, so that no key
    changes its place when the maps are stored as objects. *)
Theorem built_index_round_trip {num} (cfg : Config num) (text : string)
    (store : VectorStore) (documentId : Z) :
  getVectors (addVectors store documentId (buildCoOccurrenceMatrix cfg text)) documentId
  = Some (buildCoOccurrenceMatrix cfg text).
Proof. apply round_trip, built_index_storable. Qed.

Lemma small_index_storable : storable small_index.
Proof.
  unfold storable, plainKeys, map_wf. cbn.
  repeat split; repeat constructor; simpl; intuition discriminate.
Qed.

Lemma stored_vectors_round_trip_witness :
  getVectors (addVectors (fun _ => None) 1 small_index) 1 = Some small_index
  /\ forall other, other <> 1%Z ->
       getVectors (addVectors (fun _ => None) 1 small_index) other
       = getVectors (fun _ => None) other.
Proof.
  apply (@stored_vectors_round_trip (fun _ => None) 1%Z small_index
           small_index_storable).
Defined.

End StorageTheorems.
